(** * GLIDE v3.1: the tether physics engine, embedded and verified

    A shallow embedding of the Python sources under [glide_v3_1/]
    ([core/tether.py], [core/motor.py], [core/edt.py], [core/gravity.py],
    [core/energy.py], [core/integrator.py], [utils/config.py]).

    Numbers.  The engine computes on binary64 floats.  The physics is
    embedded over the real numbers [R]: every arithmetic operation is the
    exact one, so rounding, overflow, NaN and the infinities numpy answers
    to a division by zero do not occur in modules [DynamicTether] ..
    [GLIDEIntegrator].  The one place where the source itself inspects IEEE
    special values (the NaN guard that ends every sub-step) is embedded on
    primitive binary64 floats in [Module Float64].  So are the two places
    where the source turns a quotient of floats into a count, the number
    of sub-steps of [step] and the number of steps of [run]: a count is
    not continuous in the quotient, so the count from the exact quotient
    ([GLIDEIntegrator.substep_plan], [GLIDEIntegrator.run]) and the one
    from the binary64 quotient ([Float64.substep_plan],
    [Float64.run_steps]) can differ by one.  The theorems on [step] and
    [run] hold for either count; those that name a count say which.

    Strings.  A string is a Python [str] whose characters have code points
    below 256; [strip] and [lower] are embedded on all of them.

    Objects.  A Python object is a record of its attributes; a method is a
    function from the record (and its arguments) to the updated record (and
    its return value).  A method that can raise returns a [result].

    Arrays.  A numpy array of shape (n, 2) is a list of n pairs.  The
    source keeps every index in range by the shapes its constructors
    allocate: N + 1 rows in every buffer of a tether ([DynamicTether.wf],
    for N >= 1), three field components in an actuator
    ([ElectrodynamicTether.wf]).  The constructors establish these
    invariants for N >= 1, every method keeps them, and the theorems are
    stated for objects that satisfy them.  The constructor also accepts
    N = -1 and then allocates arrays without rows; the first write to row
    0, in [DynamicTether.anchor_update], raises IndexError on them, and so
    do [step] and every [run] that takes a step. *)

From Stdlib Require Import Reals Lra Lia ZArith List Sorted String Ascii Bool.
From Stdlib Require Floats.PrimFloat Floats.FloatOps Floats.SpecFloat.
From Stdlib Require Floats.FloatAxioms.
Import ListNotations.

Open Scope R_scope.

(* ================================================================== *)
(** * Python and numpy primitives *)
(* ================================================================== *)

(** ** Exceptions *)

Inductive exn : Type :=
| ValueError (msg : string)
| ZeroDivisionError
| IndexError
| OverflowError.

Inductive result (A : Type) : Type :=
| Ok (a : A)
| Raise (e : exn).

Arguments Ok {A} a.
Arguments Raise {A} e.

Definition bind {A B : Type} (m : result A) (k : A -> result B) : result B :=
  match m with
  | Ok a => k a
  | Raise e => Raise e
  end.

Notation "x <- m ;; k" := (bind m (fun x => k))
  (at level 61, m at next level, right associativity).

Definition raises {A : Type} (m : result A) : Prop :=
  exists e, m = Raise e.

(** ** Scalars *)

(** Python's built-in [max(a, b)]: the first argument unless the second is
    strictly greater. *)
Definition py_max (a b : R) : R := if Rlt_dec a b then b else a.

(** Python's built-in [min(a, b)]: the first argument unless the second is
    strictly smaller. *)
Definition py_min (a b : R) : R := if Rlt_dec b a then b else a.

(** [np.clip(x, lo, hi)] is [minimum(maximum(x, lo), hi)]. *)
Definition np_clip (x lo hi : R) : R := Rmin (Rmax x lo) hi.

(** [int(x)] of a float truncates toward zero. *)
Definition py_int (x : R) : Z := if Rle_dec 0 x then Zfloor x else Zceil x.

(** [range(n)] for a Python int [n] (empty when [n <= 0]). *)
Definition range (n : Z) : list nat := seq 0 (Z.to_nat n).

(** ** Planar vectors: one row of an (n, 2) array *)

Definition Vec2 : Type := (R * R)%type.

Definition vzero : Vec2 := (0, 0).
Definition vadd (a b : Vec2) : Vec2 := (fst a + fst b, snd a + snd b).
Definition vsub (a b : Vec2) : Vec2 := (fst a - fst b, snd a - snd b).
Definition vscale (a : Vec2) (x : R) : Vec2 := (fst a * x, snd a * x).
Definition smul (x : R) (a : Vec2) : Vec2 := (x * fst a, x * snd a).
Definition vdiv (a : Vec2) (x : R) : Vec2 := (fst a / x, snd a / x).
Definition dot (a b : Vec2) : R := fst a * fst b + snd a * snd b.

(** [np.linalg.norm] of a 2-vector. *)
Definition norm (a : Vec2) : R := sqrt (fst a * fst a + snd a * snd a).

Declare Scope vec_scope.
Delimit Scope vec_scope with vec.
Infix "+v" := vadd (at level 50, left associativity) : vec_scope.
Infix "-v" := vsub (at level 50, left associativity) : vec_scope.
Infix "*v" := vscale (at level 40, left associativity) : vec_scope.
Infix "*.v" := smul (at level 40, left associativity) : vec_scope.
Infix "/v" := vdiv (at level 40, left associativity) : vec_scope.
Open Scope vec_scope.

(** ** Arrays as lists *)

(** [a[i] = f(a[i])]; nothing changes when [i] is out of range (the shape
    invariant keeps every index of the source in range). *)
Fixpoint upd {A : Type} (i : nat) (f : A -> A) (l : list A) : list A :=
  match l, i with
  | [], _ => []
  | x :: xs, O => f x :: xs
  | x :: xs, S j => x :: upd j f xs
  end.

(** [a[i] = v]. *)
Definition set_at {A : Type} (i : nat) (v : A) (l : list A) : list A :=
  upd i (fun _ => v) l.

(** [a[-1] = f(a[-1])]. *)
Definition upd_last {A : Type} (f : A -> A) (l : list A) : list A :=
  upd (List.length l - 1) f l.

(** [a[1:] = g(a[1:])]: row 0 is kept. *)
Definition on_tail {A : Type} (g : list A -> list A) (l : list A) : list A :=
  match l with
  | [] => []
  | x :: xs => x :: g xs
  end.

(** Elementwise binary operation on two arrays of the same shape. *)
Fixpoint zip_with {A B C : Type} (f : A -> B -> C) (l : list A) (m : list B)
  : list C :=
  match l, m with
  | x :: xs, y :: ys => f x y :: zip_with f xs ys
  | _, _ => []
  end.

Definition row (i : nat) (a : list Vec2) : Vec2 := nth i a vzero.

Definition zeros_like (a : list Vec2) : list Vec2 := map (fun _ => vzero) a.

Definition Rsum (l : list R) : R := fold_right Rplus 0 l.

(** ** Strings *)

(** A string is a Python [str] whose characters have code points 0 .. 255
    (ASCII and the Latin-1 supplement); a character is its code point.
    On these code points [str.lower()] works character by character and
    [str.strip()] removes the characters for which [str.isspace()] holds;
    both are embedded for every one of the 256 code points.  Text with a
    code point of 256 or more is outside this type. *)

(** [str.lower()] on one character: the capitals A .. Z (65 .. 90), and
    the Latin-1 capitals 192 .. 214 and 216 .. 222, move up by 32; every
    other code point below 256 is its own lower case. *)
Definition lower_char (c : ascii) : ascii :=
  let n := nat_of_ascii c in
  if orb (andb (Nat.leb 65 n) (Nat.leb n 90))
         (orb (andb (Nat.leb 192 n) (Nat.leb n 214))
              (andb (Nat.leb 216 n) (Nat.leb n 222)))
  then ascii_of_nat (n + 32) else c.

Fixpoint lower (s : string) : string :=
  match s with
  | EmptyString => EmptyString
  | String c r => String (lower_char c) (lower r)
  end.

(** The characters [str.strip()] removes: tab, line feed, vertical tab,
    form feed, carriage return (9 .. 13), the four separators 28 .. 31,
    space (32), next line (133) and no-break space (160). *)
Definition is_space (c : ascii) : bool :=
  let n := nat_of_ascii c in
  orb (andb (Nat.leb 9 n) (Nat.leb n 13))
      (orb (andb (Nat.leb 28 n) (Nat.leb n 31))
           (orb (Nat.eqb n 32) (orb (Nat.eqb n 133) (Nat.eqb n 160)))).

Fixpoint lstrip (s : string) : string :=
  match s with
  | EmptyString => EmptyString
  | String c r => if is_space c then lstrip r else s
  end.

Fixpoint rstrip (s : string) : string :=
  match s with
  | EmptyString => EmptyString
  | String c r =>
      match rstrip r with
      | EmptyString => if is_space c then EmptyString else String c EmptyString
      | r' => String c r'
      end
  end.

Definition strip (s : string) : string := rstrip (lstrip s).

(** [str(mode).lower().strip()], as every mode and preset name is read. *)
Definition normalize (s : string) : string := strip (lower s).

(* ================================================================== *)
(** * core/tether.py: DynamicTether *)
(* ================================================================== *)

Module DynamicTether.

Record t : Type := mk {
  N : Z;
  L0 : R;
  segment_length : R;
  A : R;
  k : R;
  rho_l : R;
  m_segment : R;
  c : R;
  _vel_decay_per_s : R;
  positions : list Vec2;
  velocities : list Vec2;
  _forces : list Vec2;
  _pos_prev : list Vec2
}.

Definition with_positions (s : t) (p : list Vec2) : t :=
  mk (N s) (L0 s) (segment_length s) (A s) (k s) (rho_l s) (m_segment s) (c s)
     (_vel_decay_per_s s) p (velocities s) (_forces s) (_pos_prev s).

Definition with_velocities (s : t) (v : list Vec2) : t :=
  mk (N s) (L0 s) (segment_length s) (A s) (k s) (rho_l s) (m_segment s) (c s)
     (_vel_decay_per_s s) (positions s) v (_forces s) (_pos_prev s).

Definition with_forces (s : t) (f : list Vec2) : t :=
  mk (N s) (L0 s) (segment_length s) (A s) (k s) (rho_l s) (m_segment s) (c s)
     (_vel_decay_per_s s) (positions s) (velocities s) f (_pos_prev s).

Definition with_pos_prev (s : t) (p : list Vec2) : t :=
  mk (N s) (L0 s) (segment_length s) (A s) (k s) (rho_l s) (m_segment s) (c s)
     (_vel_decay_per_s s) (positions s) (velocities s) (_forces s) p.

(** The shape invariant: at least one segment, N + 1 rows everywhere. *)
Definition wf (s : t) : Prop :=
  (1 <= N s)%Z /\
  List.length (positions s) = S (Z.to_nat (N s)) /\
  List.length (velocities s) = S (Z.to_nat (N s)) /\
  List.length (_forces s) = S (Z.to_nat (N s)) /\
  List.length (_pos_prev s) = S (Z.to_nat (N s)).

(** [__init__].  [L0 / N] and [E * A / segment_length] are divisions of
    Python floats and raise on a zero divisor; [np.zeros((N + 1, 2))]
    raises on a negative dimension. *)
Definition init (N_ : Z) (L0_ E d rho_l_ damping_ratio
                 numerical_vel_decay_per_s : R) : result t :=
  if (N_ =? 0)%Z then Raise ZeroDivisionError else
  let segment_length_ := L0_ / IZR N_ in
  let A_ := PI * (d / 2) ^ 2 in
  if Req_dec_T segment_length_ 0 then Raise ZeroDivisionError else
  let k_ := E * A_ / segment_length_ in
  let m_segment_ := rho_l_ * segment_length_ in
  let c_ := 2 * sqrt (k_ * m_segment_) * damping_ratio in
  let decay := py_max 0 numerical_vel_decay_per_s in
  if (N_ + 1 <? 0)%Z
  then Raise (ValueError "negative dimensions are not allowed")
  else
    let pos := map (fun i => (0, - INR i * segment_length_)) (range (N_ + 1)) in
    Ok (mk N_ L0_ segment_length_ A_ k_ rho_l_ m_segment_ c_ decay
           pos (zeros_like pos) (zeros_like pos) pos).

(** The two writes of [anchor_update], into arrays that have a row 0. *)
Definition anchor_write (s : t) (anchor_pos anchor_vel : Vec2) : t :=
  with_velocities (with_positions s (set_at 0 anchor_pos (positions s)))
                  (set_at 0 anchor_vel (velocities s)).

(** [anchor_update]: [positions[0] = anchor_pos], then
    [velocities[0] = anchor_vel]; index 0 of an array without rows (as
    [__init__] allocates for N = -1) raises IndexError. *)
Definition anchor_update (s : t) (anchor_pos anchor_vel : Vec2) : result t :=
  match positions s, velocities s with
  | _ :: _, _ :: _ => Ok (anchor_write s anchor_pos anchor_vel)
  | _, _ => Raise IndexError
  end.

(** One turn of the loop of [compute_internal_forces] (segment [i]). *)
Definition segment_force (s : t) (F : list Vec2) (i : nat) : list Vec2 :=
  let p0 := row i (positions s) in
  let p1 := row (S i) (positions s) in
  let v0 := row i (velocities s) in
  let v1 := row (S i) (velocities s) in
  let r := p1 -v p0 in
  let L := norm r in
  if Rlt_dec L 1e-12 then F
  else
    let u := r /v L in
    let stretch := L - segment_length s in
    let rel_vel := dot (v1 -v v0) u in
    let Fs := ((- k s * stretch) *.v u) -v ((c s * rel_vel) *.v u) in
    upd (S i) (fun f => f -v Fs) (upd i (fun f => f +v Fs) F).

Definition compute_internal_forces (s : t) : t * list Vec2 :=
  let F := fold_left (segment_force s) (range (N s))
                     (zeros_like (positions s)) in
  (with_forces s F, F).

Definition add_external_forces (s : t) (F_ext : list Vec2) : t :=
  with_forces s (zip_with vadd (_forces s) F_ext).

Definition apply_force_to_payload (s : t) (F_ext : Vec2) : t :=
  with_forces s (upd_last (fun f => f +v F_ext) (_forces s)).

Definition integrate (s : t) (dt : R) : t :=
  if Rle_dec dt 0 then s
  else
    let s1 := with_pos_prev s (positions s) in
    let a := map (fun f => f /v m_segment s1) (_forces s1) in
    let vel :=
      on_tail (fun v => zip_with (fun vi ai => vi +v ai *v dt) v (tl a))
              (velocities s1) in
    let pos :=
      on_tail (fun p => zip_with (fun pi vi => pi +v vi *v dt) p (tl vel))
              (positions s1) in
    let vel' :=
      if Rlt_dec 0 (_vel_decay_per_s s1)
      then on_tail (map (fun v => v *v exp (- _vel_decay_per_s s1 * dt))) vel
      else vel in
    with_velocities (with_positions s1 pos) vel'.

(** One turn of the inner loop of [enforce_constraints] (segment [i]). *)
Definition constrain_segment (seg : R) (pos : list Vec2) (i : nat)
  : list Vec2 :=
  let p0 := row i pos in
  let p1 := row (S i) pos in
  let delta := p1 -v p0 in
  let dist := norm delta in
  if Rlt_dec dist 1e-12 then pos
  else
    let diff := (dist - seg) / dist in
    match i with
    | O => upd (S i) (fun p => p -v delta *v diff) pos
    | _ =>
        let corr := (0.5 *.v delta) *v diff in
        upd (S i) (fun p => p -v corr) (upd i (fun p => p +v corr) pos)
    end.

(** One turn of the outer loop: all segments, then the anchor restored. *)
Definition constraint_pass (s : t) (pos : list Vec2) : list Vec2 :=
  set_at 0 (row 0 (_pos_prev s))
         (fold_left (constrain_segment (segment_length s)) (range (N s)) pos).

Definition enforce_constraints (s : t) (dt : R) (iterations : Z) : t :=
  if Rle_dec dt 0 then s
  else
    let iterations := Z.max 0 iterations in
    if (iterations =? 0)%Z then s
    else
      let pos := Nat.iter (Z.to_nat iterations) (constraint_pass s)
                          (positions s) in
      let vel := on_tail (fun _ => zip_with (fun p q => (p -v q) /v dt)
                                            (tl pos) (tl (_pos_prev s)))
                         (velocities s) in
      with_velocities (with_positions s pos) vel.

Definition get_payload_state (s : t) : Vec2 * Vec2 :=
  (last (positions s) vzero, last (velocities s) vzero).

Definition get_tension_profile (s : t) : list R :=
  map (fun i =>
         let p0 := row i (positions s) in
         let p1 := row (S i) (positions s) in
         let dist := norm (p1 -v p0) in
         k s * py_max 0 (dist - segment_length s))
      (range (N s)).

Definition total_energy_mech (s : t) : R :=
  let kinetic :=
    0.5 * m_segment s * Rsum (map (fun v => norm v ^ 2) (tl (velocities s))) in
  let elastic :=
    fold_left (fun e i =>
                 let p0 := row i (positions s) in
                 let p1 := row (S i) (positions s) in
                 let dist := norm (p1 -v p0) in
                 let stretch := dist - segment_length s in
                 e + 0.5 * k s * (stretch * stretch))
              (range (N s)) 0 in
  kinetic + elastic.

End DynamicTether.

(* ================================================================== *)
(** * core/motor.py: MotorSystem *)
(* ================================================================== *)

Module MotorSystem.

Record t : Type := mk {
  R_spool : R;
  J_m : R;
  tau_max : R;
  b_m : R;
  eta : R;
  omega : R;
  torque : R;
  energy_used : R;
  anchor_length : R;
  P_mech : R;
  P_elec : R
}.

Definition init (R_spool_ J_m_ tau_max_ b_m_ eta_ : R) : t :=
  mk R_spool_ J_m_ tau_max_ b_m_ eta_ 0 0 0 0 0 0.

(** The electrical power that goes with a mechanical power (the [if] that
    ends [update]). *)
Definition electrical_power (eta_ P_mech_ : R) : R :=
  if Rge_dec P_mech_ 0 then P_mech_ / eta_ else P_mech_ * eta_.

(** [update]: the new motor state and the returned anchor velocity. *)
Definition update (s : t) (dt tension omega_cmd : R) : t * R :=
  let tau_load := tension * R_spool s in
  let kp := 2 in
  let tau_cmd := kp * (omega_cmd - omega s) in
  let tau_cmd := np_clip tau_cmd (- tau_max s) (tau_max s) in
  let domega := (tau_cmd - tau_load - b_m s * omega s) / J_m s in
  let domega := np_clip domega (-100) 100 in
  let omega_ := np_clip (omega s + domega * dt) (-50) 50 in
  let torque_ := tau_cmd in
  let v_anchor := omega_ * R_spool s in
  let anchor_length_ := anchor_length s + v_anchor * dt in
  let P_mech_ := torque_ * omega_ in
  let P_elec_ := electrical_power (eta s) P_mech_ in
  let energy_used_ := energy_used s + P_elec_ * dt in
  (mk (R_spool s) (J_m s) (tau_max s) (b_m s) (eta s)
      omega_ torque_ energy_used_ anchor_length_ P_mech_ P_elec_,
   v_anchor).

Definition get_state (s : t) : list (string * R) :=
  [("omega"%string, omega s); ("torque"%string, torque s);
   ("P_mech"%string, P_mech s); ("P_elec"%string, P_elec s);
   ("energy_used"%string, energy_used s);
   ("anchor_length"%string, anchor_length s)].

Definition reset (s : t) : t :=
  mk (R_spool s) (J_m s) (tau_max s) (b_m s) (eta s) 0 0 0 0
     (P_mech s) (P_elec s).

End MotorSystem.

(* ================================================================== *)
(** * core/edt.py: ElectrodynamicTether *)
(* ================================================================== *)

Module ElectrodynamicTether.

Record t : Type := mk {
  L : R;
  B_vec : list R;
  R_tether : R;
  I_max : R;
  mode : string;
  I : R;
  F : Vec2;
  P_loss : R;
  P_orbit : R;
  P_net : R
}.

(** The invariant [__init__] establishes: the stored field vector has
    three components ([update] reads the third). *)
Definition wf (s : t) : Prop := List.length (B_vec s) = 3%nat.

(** [__init__]: a field vector of two components keeps its last one as the
    out-of-plane component; any size other than 2 or 3 is refused. *)
Definition init (L_ : R) (B_vec_ : list R) (R_tether_ I_max_ : R)
  (mode_ : string) : result t :=
  B <- (if (List.length B_vec_ =? 2)%nat then Ok [0; 0; last B_vec_ 0]
        else if negb (List.length B_vec_ =? 3)%nat
             then Raise (ValueError "B_vec must be length 2 or 3")
             else Ok B_vec_) ;;
  Ok (mk L_ B R_tether_ I_max_ (normalize mode_) 0 vzero 0 0 0).

(** The sign chosen for the candidate force. *)
Definition force_sign (mode_ : string) (v : Vec2) (P_candidate : R) : R :=
  if Rgt_dec (norm v) 1e-9 then
    if (mode_ =? "boost")%string
    then (if Rge_dec P_candidate 0 then 1 else -1)
    else (if Rge_dec P_candidate 0 then -1 else 1)
  else
    (if (mode_ =? "boost")%string then 1 else -1).

(** The net power booked for a resistive loss and an orbital power. *)
Definition net_power (mode_ : string) (P_loss_ P_orbit_ : R) : R :=
  if (mode_ =? "boost")%string
  then P_loss_ + py_max 0 P_orbit_
  else P_loss_ + py_min 0 P_orbit_.

(** [update]: the new actuator state and the returned force. *)
Definition update (s : t) (node_pos payload_pos velocity_vec : Vec2)
  (current_cmd : R) : t * Vec2 :=
  if (mode s =? "off")%string then
    (mk (L s) (B_vec s) (R_tether s) (I_max s) (mode s) 0 vzero 0 0 0, vzero)
  else
    let I_ := np_clip current_cmd (-1) 1 * I_max s in
    let L_vec2 := payload_pos -v node_pos in
    let L_norm := norm L_vec2 in
    if Rlt_dec L_norm 1e-9 then
      let P_loss_ := I_ ^ 2 * R_tether s in
      (mk (L s) (B_vec s) (R_tether s) (I_max s) (mode s)
          I_ vzero P_loss_ 0 P_loss_, vzero)
    else
      let L_hat := L_vec2 /v L_norm in
      let Bz := nth 2 (B_vec s) 0 in
      let F_mag := Rabs I_ * L_norm * Rabs Bz in
      let perp_L := (- snd L_hat, fst L_hat) in
      let F_candidate := F_mag *.v perp_L in
      let v := velocity_vec in
      let P_candidate := dot F_candidate v in
      let sgn := force_sign (mode s) v P_candidate in
      let F_ := sgn *.v F_candidate in
      let P_loss_ := I_ ^ 2 * R_tether s in
      let P_orbit_ := dot F_ v in
      let P_net_ := net_power (mode s) P_loss_ P_orbit_ in
      (mk (L s) (B_vec s) (R_tether s) (I_max s) (mode s)
          I_ F_ P_loss_ P_orbit_ P_net_, F_).

Definition get_force (s : t) : Vec2 := F s.

Definition get_power (s : t) : R := P_net s.

Definition set_mode (s : t) (mode_ : string) : t :=
  mk (L s) (B_vec s) (R_tether s) (I_max s) (normalize mode_)
     (I s) (F s) (P_loss s) (P_orbit s) (P_net s).

End ElectrodynamicTether.

(* ================================================================== *)
(** * core/gravity.py: GravityField *)
(* ================================================================== *)

Module GravityField.

Record t : Type := mk {
  mu : R;
  g0 : R;
  R_earth : R;
  mode : string
}.

Definition init (mu_ g0_ R_earth_ : R) (mode_ : string) : t :=
  mk mu_ g0_ R_earth_ (normalize mode_).

Definition get_acceleration (s : t) (pos : Vec2) : Vec2 :=
  if (mode s =? "local")%string then (0, - g0 s)
  else
    let r2 := dot pos pos in
    if Rlt_dec r2 1 then vzero
    else
      let r := sqrt r2 in
      ((- mu s) *.v pos) /v (r ^ 3).

Definition get_potential (s : t) (pos : Vec2) : R :=
  if (mode s =? "local")%string then g0 s * snd pos
  else
    let r2 := dot pos pos in
    if Rlt_dec r2 1 then 0
    else
      let r := sqrt r2 in
      - mu s / r.

Definition acceleration_difference (s : t) (p1 p2 : Vec2) : Vec2 :=
  get_acceleration s p2 -v get_acceleration s p1.

End GravityField.

(* ================================================================== *)
(** * core/energy.py: EnergyTracker *)
(* ================================================================== *)

Module EnergyTracker.

(** The numbers formatted into one printed "[Energy]" line. *)
Record log_line : Type := mk_log {
  log_t : R;
  log_SoC_percent : R;
  log_P_motor : R;
  log_P_edt : R;
  log_E_total : R;
  log_E_k : R;
  log_E_el : R;
  log_E_g : R
}.

(** The tracker's attributes, and [stdout]: the lines it has printed. *)
Record t : Type := mk {
  time : list R;
  E_kin : list R;
  E_elastic : list R;
  E_grav : list R;
  E_batt : list R;
  E_total : list R;
  SoC : list R;
  E_batt_capacity : R;
  E_batt_now : R;
  log_interval_s : R;
  _t_last_print : R;
  stdout : list log_line
}.

Definition init (battery_capacity_J log_interval_s_ : R) : t :=
  mk [] [] [] [] [] [] [] battery_capacity_J battery_capacity_J
     (py_max 0 log_interval_s_) (-1e9) [].

Definition kinetic_energy (tether : DynamicTether.t) : R :=
  let v2 := map (fun v => fst v ^ 2 + snd v ^ 2)
                (tl (DynamicTether.velocities tether)) in
  0.5 * DynamicTether.m_segment tether * Rsum v2.

Definition elastic_energy (tether : DynamicTether.t) : R :=
  fold_left
    (fun elastic i =>
       let p0 := row i (DynamicTether.positions tether) in
       let p1 := row (S i) (DynamicTether.positions tether) in
       let dist := norm (p1 -v p0) in
       let stretch := dist - DynamicTether.segment_length tether in
       elastic + 0.5 * DynamicTether.k tether * (stretch * stretch))
    (range (DynamicTether.N tether)) 0.

Definition gravitational_energy (tether : DynamicTether.t)
  (gravity : option GravityField.t) : R :=
  match gravity with
  | None => 0
  | Some g =>
      let nodes := seq 1 (Z.to_nat (DynamicTether.N tether)) in
      if (GravityField.mode g =? "local")%string then
        let y_ref := snd (row 0 (DynamicTether.positions tether)) in
        fold_left
          (fun grav i =>
             grav + DynamicTether.m_segment tether * GravityField.g0 g *
                    (snd (row i (DynamicTether.positions tether)) - y_ref))
          nodes 0
      else
        let U_ref :=
          GravityField.get_potential
            g (row 0 (DynamicTether.positions tether)) in
        fold_left
          (fun grav i =>
             let Ui := GravityField.get_potential
                         g (row i (DynamicTether.positions tether)) in
             grav + DynamicTether.m_segment tether * (Ui - U_ref))
          nodes 0
  end.

(** The battery energy after a call that books [P_total] over [dt]. *)
Definition battery_step (capacity E_now P_total dt : R) : R :=
  let dE_batt := - P_total * dt in
  np_clip (E_now + dE_batt) 0 capacity.

Definition state_of_charge (capacity E_now : R) : R :=
  if Rgt_dec capacity 0 then E_now / capacity else 0.

Definition update (s : t) (dt : R) (tether : DynamicTether.t)
  (motor : MotorSystem.t) (edt : ElectrodynamicTether.t)
  (gravity : option GravityField.t) : t :=
  let t_next := match time s with
                | [] => 0
                | _ => last (time s) 0 + dt
                end in
  let kinetic := kinetic_energy tether in
  let elastic := elastic_energy tether in
  let grav := gravitational_energy tether gravity in
  let P_motor := MotorSystem.P_elec motor in
  let P_edt := ElectrodynamicTether.get_power edt in
  let P_total := P_motor + P_edt in
  let E_batt_now_ :=
    battery_step (E_batt_capacity s) (E_batt_now s) P_total dt in
  let E_total_ := kinetic + elastic + grav + E_batt_now_ in
  let SoC_ := state_of_charge (E_batt_capacity s) E_batt_now_ in
  let printing :=
    if Rgt_dec (log_interval_s s) 0
    then (if Rge_dec (t_next - _t_last_print s) (log_interval_s s)
          then true else false)
    else false in
  mk (time s ++ [t_next])
     (E_kin s ++ [kinetic])
     (E_elastic s ++ [elastic])
     (E_grav s ++ [grav])
     (E_batt s ++ [E_batt_now_])
     (E_total s ++ [E_total_])
     (SoC s ++ [SoC_])
     (E_batt_capacity s)
     E_batt_now_
     (log_interval_s s)
     (if printing then t_next else _t_last_print s)
     (if printing
      then stdout s ++ [mk_log t_next (SoC_ * 100) P_motor P_edt E_total_
                               kinetic elastic grav]
      else stdout s).

(** [summary]: the dictionary of the last sample, empty before any. *)
Definition summary (s : t) : list (string * R) :=
  match time s with
  | [] => []
  | _ =>
      [("E_kin"%string, last (E_kin s) 0);
       ("E_elastic"%string, last (E_elastic s) 0);
       ("E_grav"%string, last (E_grav s) 0);
       ("E_batt"%string, last (E_batt s) 0);
       ("E_total"%string, last (E_total s) 0);
       ("SoC"%string, last (SoC s) 0)]
  end.

(** [export_csv]: the header row and the data rows handed to the writer. *)
Definition export_csv (s : t) : list string * list (list R) :=
  (["time"; "E_kin"; "E_elastic"; "E_grav"; "E_batt"; "E_total"; "SoC"]%string,
   map (fun i => [nth i (time s) 0; nth i (E_kin s) 0; nth i (E_elastic s) 0;
                  nth i (E_grav s) 0; nth i (E_batt s) 0; nth i (E_total s) 0;
                  nth i (SoC s) 0])
       (seq 0 (List.length (time s)))).

(** A sequence of [update] calls: the arguments of each call, and the
    tracker after all of them. *)
Record call : Type := mk_call {
  call_dt : R;
  call_tether : DynamicTether.t;
  call_motor : MotorSystem.t;
  call_edt : ElectrodynamicTether.t;
  call_gravity : option GravityField.t
}.

Definition apply_call (s : t) (c : call) : t :=
  update s (call_dt c) (call_tether c) (call_motor c) (call_edt c)
         (call_gravity c).

Definition apply_calls (s : t) (calls : list call) : t :=
  fold_left apply_call calls s.

(** A call hands the tracker a tether that satisfies the shape
    invariant (the tracker indexes its rows 0 .. N). *)
Definition call_ok (c : call) : Prop := DynamicTether.wf (call_tether c).

(** The combined electrical power a call books: motor plus EDT. *)
Definition call_power (c : call) : R :=
  MotorSystem.P_elec (call_motor c) +
  ElectrodynamicTether.get_power (call_edt c).

(** The state-of-charge samples that a sequence of calls appends. *)
Fixpoint soc_samples (s : t) (calls : list call) : list R :=
  match calls with
  | [] => []
  | c :: cs =>
      let s1 := apply_call s c in
      state_of_charge (E_batt_capacity s1) (E_batt_now s1) :: soc_samples s1 cs
  end.

(** The ledger invariant: the battery and every battery sample within
    [0, capacity], every state-of-charge sample within [0, 1]. *)
Definition ledger_ok (s : t) : Prop :=
  0 < E_batt_capacity s /\
  0 <= E_batt_now s <= E_batt_capacity s /\
  Forall (fun e => 0 <= e <= E_batt_capacity s) (E_batt s) /\
  Forall (fun x => 0 <= x <= 1) (SoC s).

End EnergyTracker.

(* ================================================================== *)
(** * utils/config.py: load_config *)
(* ================================================================== *)

Module Config.

(** The values a configuration mapping holds. *)
Inductive value : Type :=
| Float (x : R)
| Int (n : Z)
| Str (s : string)
| Bool (b : bool)
| Vec (l : list R).

(** A Python dict with string keys, in insertion order. *)
Definition dict : Type := list (string * value).

Fixpoint dict_get (key : string) (d : dict) : option value :=
  match d with
  | [] => None
  | (k0, v0) :: r => if (k0 =? key)%string then Some v0 else dict_get key r
  end.

(** [d[key] = v]: a key already present keeps its place. *)
Fixpoint dict_set (key : string) (v : value) (d : dict) : dict :=
  match d with
  | [] => [(key, v)]
  | (k0, v0) :: r =>
      if (k0 =? key)%string then (k0, v) :: r else (k0, v0) :: dict_set key v r
  end.

(** [d.update(other)]. *)
Definition dict_update (d other : dict) : dict :=
  fold_left (fun acc kv => dict_set (fst kv) (snd kv) acc) other d.

Definition base_cfg : dict :=
  [ ("dt", Float 0.01);
    ("N", Int 25);
    ("L0", Float 200);
    ("E", Float 30e9);
    ("d", Float 0.005);
    ("rho_l", Float 1.5);
    ("tether_damping_ratio", Float 0.05);
    ("tether_max_substep_dt", Float 0.005);
    ("constraint_iterations", Int 3);
    ("numerical_vel_decay_per_s", Float 0);
    ("R_spool", Float 0.25);
    ("J_m", Float 0.08);
    ("tau_max", Float 15);
    ("b_m", Float 0.02);
    ("eta", Float 0.87);
    ("gravity_mode", Str "local");
    ("local_g", Float 9.80665);
    ("mu", Float 3.986004418e14);
    ("R_earth", Float 6.371e6);
    ("EDT_L", Float 100);
    ("B_vec", Vec [0; 0; 3.1e-5]);
    ("EDT_R", Float 50);
    ("EDT_Imax", Float 2.5);
    ("EDT_mode", Str "off");
    ("battery_capacity_J", Float 5e5);
    ("log_interval", Float 1);
    ("save_energy_csv", Bool true);
    ("velocity_limit", Float 0) ]%string.

Definition orbital_test_cfg : dict :=
  [ ("gravity_mode", Str "local");
    ("local_g", Float 8.70);
    ("L0", Float 300);
    ("N", Int 40);
    ("E", Float 40e9);
    ("rho_l", Float 1.8);
    ("dt", Float 0.05);
    ("tether_max_substep_dt", Float 0.005);
    ("constraint_iterations", Int 4);
    ("EDT_mode", Str "drag");
    ("battery_capacity_J", Float 1e6) ]%string.

Definition engineering_cfg : dict :=
  [ ("L0", Float 250);
    ("N", Int 25);
    ("E", Float 5e9);
    ("rho_l", Float 1.6);
    ("EDT_mode", Str "boost");
    ("EDT_Imax", Float 0.5);
    ("tau_max", Float 8);
    ("battery_capacity_J", Float 2e6);
    ("dt", Float 0.005);
    ("tether_max_substep_dt", Float 0.005);
    ("constraint_iterations", Int 3) ]%string.

Definition local_demo_cfg : dict :=
  [ ("L0", Float 100);
    ("N", Int 15);
    ("gravity_mode", Str "local");
    ("local_g", Float 9.80665);
    ("EDT_mode", Str "off");
    ("dt", Float 0.005);
    ("tether_max_substep_dt", Float 0.005);
    ("constraint_iterations", Int 2) ]%string.

Definition load_config (mode : string) : result dict :=
  let mode := normalize mode in
  if (mode =? "orbital_test")%string then
    Ok (dict_update base_cfg orbital_test_cfg)
  else if (mode =? "engineering")%string then
    Ok (dict_update base_cfg engineering_cfg)
  else if (mode =? "local_demo")%string then
    Ok (dict_update base_cfg local_demo_cfg)
  else
    Raise (ValueError ("Unknown configuration mode: " ++ mode)).

End Config.

(* ================================================================== *)
(** * core/integrator.py: GLIDEIntegrator *)
(* ================================================================== *)

Module GLIDEIntegrator.

(** What [__init__] reads from the configuration mapping: the value of
    each [config.get(key, default)] after its [float], [int] or [str]. *)
Record params : Type := mk_params {
  p_dt : R;
  p_gravity_mode : string;
  p_local_g : R;
  p_mu : R;
  p_R_earth : R;
  p_N : Z;
  p_L0 : R;
  p_E : R;
  p_d : R;
  p_rho_l : R;
  p_tether_damping_ratio : R;
  p_numerical_vel_decay_per_s : R;
  p_R_spool : R;
  p_J_m : R;
  p_tau_max : R;
  p_b_m : R;
  p_eta : R;
  p_EDT_L : R;
  p_B_vec : list R;
  p_EDT_R : R;
  p_EDT_Imax : R;
  p_EDT_mode : string;
  p_battery_capacity_J : R;
  p_log_interval : R;
  p_constraint_iterations : Z;
  p_tether_max_substep_dt : R;
  p_velocity_limit : R
}.

(** Reading the mapping.  [None] marks an entry this model does not
    convert (text or a list where a number is read, a number where text or
    the field vector is read); no preset of [load_config] holds one. *)
Definition as_float (v : Config.value) : option R :=
  match v with
  | Config.Float x => Some x
  | Config.Int n => Some (IZR n)
  | Config.Bool b => Some (if b then 1 else 0)
  | _ => None
  end.

Definition as_int (v : Config.value) : option Z :=
  match v with
  | Config.Float x => Some (py_int x)
  | Config.Int n => Some n
  | Config.Bool b => Some (if b then 1 else 0)%Z
  | _ => None
  end.

Definition as_str (v : Config.value) : option string :=
  match v with
  | Config.Str s => Some s
  | _ => None
  end.

Definition as_vec (v : Config.value) : option (list R) :=
  match v with
  | Config.Vec l => Some l
  | _ => None
  end.

Definition get {A : Type} (conv : Config.value -> option A)
  (cfg : Config.dict) (key : string) (default : A) : option A :=
  match Config.dict_get key cfg with
  | None => Some default
  | Some v => conv v
  end.

Definition obind {A B : Type} (m : option A) (k : A -> option B) : option B :=
  match m with
  | Some a => k a
  | None => None
  end.

Notation "x <-? m ;; k" := (obind m (fun x => k))
  (at level 61, m at next level, right associativity).

Definition read_params (cfg : Config.dict) : option params :=
  (dt_ <-? get as_float cfg "dt" 0.01 ;;
   gravity_mode_ <-? get as_str cfg "gravity_mode" "local" ;;
   local_g_ <-? get as_float cfg "local_g" 9.80665 ;;
   mu_ <-? get as_float cfg "mu" 3.986004418e14 ;;
   R_earth_ <-? get as_float cfg "R_earth" 6.371e6 ;;
   N_ <-? get as_int cfg "N" 25%Z ;;
   L0_ <-? get as_float cfg "L0" 200 ;;
   E_ <-? get as_float cfg "E" 30e9 ;;
   d_ <-? get as_float cfg "d" 0.005 ;;
   rho_l_ <-? get as_float cfg "rho_l" 1.5 ;;
   damping_ <-? get as_float cfg "tether_damping_ratio" 0.05 ;;
   decay_ <-? get as_float cfg "numerical_vel_decay_per_s" 0 ;;
   R_spool_ <-? get as_float cfg "R_spool" 0.25 ;;
   J_m_ <-? get as_float cfg "J_m" 0.08 ;;
   tau_max_ <-? get as_float cfg "tau_max" 15 ;;
   b_m_ <-? get as_float cfg "b_m" 0.02 ;;
   eta_ <-? get as_float cfg "eta" 0.87 ;;
   EDT_L_ <-? get as_float cfg "EDT_L" 100 ;;
   B_vec_ <-? get as_vec cfg "B_vec" [0; 0; 3.1e-5] ;;
   EDT_R_ <-? get as_float cfg "EDT_R" 50 ;;
   EDT_Imax_ <-? get as_float cfg "EDT_Imax" 2.5 ;;
   EDT_mode_ <-? get as_str cfg "EDT_mode" "off" ;;
   battery_ <-? get as_float cfg "battery_capacity_J" 5e5 ;;
   log_interval_ <-? get as_float cfg "log_interval" 1 ;;
   iterations_ <-? get as_int cfg "constraint_iterations" 3%Z ;;
   max_substep_ <-? get as_float cfg "tether_max_substep_dt" 0.005 ;;
   velocity_limit_ <-? get as_float cfg "velocity_limit" 0 ;;
   Some (mk_params dt_ gravity_mode_ local_g_ mu_ R_earth_ N_ L0_ E_ d_ rho_l_
                   damping_ decay_ R_spool_ J_m_ tau_max_ b_m_ eta_ EDT_L_
                   B_vec_ EDT_R_ EDT_Imax_ EDT_mode_ battery_ log_interval_
                   iterations_ max_substep_ velocity_limit_))%string.

Record t : Type := mk {
  config : params;
  dt : R;
  anchor_pos : Vec2;
  anchor_vel : Vec2;
  gravity_mode : string;
  local_g : R;
  gravity : GravityField.t;
  tether : DynamicTether.t;
  motor : MotorSystem.t;
  edt : ElectrodynamicTether.t;
  energy : EnergyTracker.t;
  constraint_iterations : Z;
  max_substep_dt : R;
  velocity_limit : R;
  step_count : Z
}.

Definition init (p : params) : result t :=
  let gravity_mode_ := normalize (p_gravity_mode p) in
  let gravity_ := GravityField.init (p_mu p) (p_local_g p) (p_R_earth p)
                                    gravity_mode_ in
  tether_ <- DynamicTether.init (p_N p) (p_L0 p) (p_E p) (p_d p) (p_rho_l p)
               (p_tether_damping_ratio p) (p_numerical_vel_decay_per_s p) ;;
  let motor_ := MotorSystem.init (p_R_spool p) (p_J_m p) (p_tau_max p)
                                 (p_b_m p) (p_eta p) in
  edt_ <- ElectrodynamicTether.init (p_EDT_L p) (p_B_vec p) (p_EDT_R p)
            (p_EDT_Imax p) (p_EDT_mode p) ;;
  let energy_ := EnergyTracker.init (p_battery_capacity_J p)
                                    (p_log_interval p) in
  Ok (mk p (p_dt p) (0, 0) vzero gravity_mode_ (p_local_g p) gravity_ tether_
         motor_ edt_ energy_ (p_constraint_iterations p)
         (p_tether_max_substep_dt p) (p_velocity_limit p) 0%Z).

(** The invariant of the integrator: those of its tether and actuator. *)
Definition wf (s : t) : Prop :=
  DynamicTether.wf (tether s) /\ ElectrodynamicTether.wf (edt s).

Definition with_tether (s : t) (tether_ : DynamicTether.t) : t :=
  mk (config s) (dt s) (anchor_pos s) (anchor_vel s) (gravity_mode s)
     (local_g s) (gravity s) tether_ (motor s) (edt s) (energy s)
     (constraint_iterations s) (max_substep_dt s) (velocity_limit s)
     (step_count s).

Definition with_edt (s : t) (edt_ : ElectrodynamicTether.t) : t :=
  mk (config s) (dt s) (anchor_pos s) (anchor_vel s) (gravity_mode s)
     (local_g s) (gravity s) (tether s) (motor s) edt_ (energy s)
     (constraint_iterations s) (max_substep_dt s) (velocity_limit s)
     (step_count s).

Definition with_anchor (s : t) (pos vel : Vec2) : t :=
  mk (config s) (dt s) pos vel (gravity_mode s)
     (local_g s) (gravity s) (tether s) (motor s) (edt s) (energy s)
     (constraint_iterations s) (max_substep_dt s) (velocity_limit s)
     (step_count s).

Definition with_motor (s : t) (motor_ : MotorSystem.t) : t :=
  mk (config s) (dt s) (anchor_pos s) (anchor_vel s) (gravity_mode s)
     (local_g s) (gravity s) (tether s) motor_ (edt s) (energy s)
     (constraint_iterations s) (max_substep_dt s) (velocity_limit s)
     (step_count s).

Definition _gravity_accel (s : t) (pos : Vec2) : Vec2 :=
  GravityField.get_acceleration (gravity s) pos.

(** [_build_external_forces]: the actuator is updated on the way. *)
Definition _build_external_forces (s : t) (current_cmd : R)
  : t * list Vec2 :=
  let tth := tether s in
  let F_ext := zeros_like (DynamicTether.positions tth) in
  let F_ext :=
    fold_left
      (fun F i =>
         let a_g := _gravity_accel s (row i (DynamicTether.positions tth)) in
         upd i (fun f => f +v DynamicTether.m_segment tth *.v a_g) F)
      (seq 1 (Z.to_nat (DynamicTether.N tth))) F_ext in
  let '(payload_pos, payload_vel) := DynamicTether.get_payload_state tth in
  let '(edt_, F_edt) :=
    ElectrodynamicTether.update (edt s) (anchor_pos s) payload_pos payload_vel
                                current_cmd in
  (with_edt s edt_, upd_last (fun f => f +v F_edt) F_ext).

(** The optional safety ceiling on every node's speed. *)
Definition clamp_velocities (limit : R) (vel : list Vec2) : list Vec2 :=
  let too_fast v := if Rgt_dec (norm v) limit then true else false in
  if existsb too_fast vel
  then map (fun v => if too_fast v then v *v (limit / norm v) else v) vel
  else vel.

(** One turn of the sub-step loop of [step], from the tether that
    [anchor_update] returned on.  The loop body ends with the NaN guard; no
    real number is NaN, so over [R] the guard is never taken (its IEEE
    behaviour is [Float64.sanitize] below). *)
Definition substep_after (dt_sub current_cmd : R) (s : t)
  (tth : DynamicTether.t) : t :=
  let tth := fst (DynamicTether.compute_internal_forces tth) in
  let s := with_tether s tth in
  let '(s, F_ext) := _build_external_forces s current_cmd in
  let tth := DynamicTether.add_external_forces (tether s) F_ext in
  let tth := DynamicTether.integrate tth dt_sub in
  let tth := DynamicTether.enforce_constraints tth dt_sub
               (constraint_iterations s) in
  let tth :=
    if Rgt_dec (velocity_limit s) 0
    then DynamicTether.with_velocities
           tth (clamp_velocities (velocity_limit s)
                                 (DynamicTether.velocities tth))
    else tth in
  with_tether s tth.

(** One turn of the sub-step loop: the anchor moves, [anchor_update]
    writes it into the tether (or raises), the rest follows. *)
Definition substep (dt_sub current_cmd : R) (s : t) : result t :=
  let anchor_pos_ := anchor_pos s +v anchor_vel s *v dt_sub in
  let s := with_anchor s anchor_pos_ (anchor_vel s) in
  tth <- DynamicTether.anchor_update (tether s) (anchor_pos s)
                                     (anchor_vel s) ;;
  Ok (substep_after dt_sub current_cmd s tth).

(** The same turn on an integrator whose tether has a row 0, where
    [anchor_update] does not raise. *)
Definition substep_in_range (dt_sub current_cmd : R) (s : t) : t :=
  let anchor_pos_ := anchor_pos s +v anchor_vel s *v dt_sub in
  let s := with_anchor s anchor_pos_ (anchor_vel s) in
  substep_after dt_sub current_cmd s
    (DynamicTether.anchor_write (tether s) (anchor_pos s) (anchor_vel s)).

(** The control-rate part of [step] from the tether that [anchor_update]
    returned on: internal forces, motor update. *)
Definition step_control_after (s : t) (omega_cmd : R)
  (tth : DynamicTether.t) : t :=
  let tth := fst (DynamicTether.compute_internal_forces tth) in
  let tensions := DynamicTether.get_tension_profile tth in
  let T_tip := match tensions with
               | [] => 0
               | _ => last tensions 0
               end in
  let '(motor_, v_anchor_vertical) :=
    MotorSystem.update (motor s) (dt s) T_tip omega_cmd in
  with_anchor (with_motor (with_tether s tth) motor_)
              (anchor_pos s) (0, v_anchor_vertical).

(** The state after the control-rate part of [step]: anchor boundary
    condition (which raises on a tether without rows), internal forces,
    motor update. *)
Definition step_control (s : t) (omega_cmd : R) : result t :=
  tth <- DynamicTether.anchor_update (tether s) (anchor_pos s)
                                     (anchor_vel s) ;;
  Ok (step_control_after s omega_cmd tth).

(** The same on an integrator whose tether has a row 0. *)
Definition step_control_in_range (s : t) (omega_cmd : R) : t :=
  step_control_after s omega_cmd
    (DynamicTether.anchor_write (tether s) (anchor_pos s) (anchor_vel s)).

(** The sub-step count and size of [step]; [dt / dt_sub] divides Python
    floats and raises on a zero divisor.  The quotient is the exact one
    here; what the count is when the quotient is the binary64 one is
    [Float64.substep_plan], and no theorem on the physics depends on
    which of the two counts a step runs. *)
Definition substep_plan (s : t) : result (Z * R) :=
  let dt_sub := if Rgt_dec (max_substep_dt s) 0
                then py_min (dt s) (max_substep_dt s)
                else dt s in
  if Req_dec_T dt_sub 0 then Raise ZeroDivisionError
  else
    let n_sub := Z.max 1 (py_int (IZR (Zceil (dt s / dt_sub)))) in
    let dt_sub := dt s / IZR n_sub in
    Ok (n_sub, dt_sub).

(** The energy bookkeeping that ends [step]. *)
Definition step_bookkeeping (s : t) : t :=
  mk (config s) (dt s) (anchor_pos s) (anchor_vel s) (gravity_mode s)
     (local_g s) (gravity s) (tether s) (motor s) (edt s)
     (EnergyTracker.update (energy s) (dt s) (tether s) (motor s) (edt s)
                           (Some (gravity s)))
     (constraint_iterations s) (max_substep_dt s) (velocity_limit s)
     (step_count s + 1)%Z.

Definition step (s : t) (omega_cmd current_cmd : R) : result t :=
  s <- step_control s omega_cmd ;;
  plan <- substep_plan s ;;
  let '(n_sub, dt_sub) := plan in
  s <- fold_left (fun acc _ => st <- acc ;; substep dt_sub current_cmd st)
                 (range n_sub) (Ok s) ;;
  Ok (step_bookkeeping s).

(** The loop of [run], over the step indices still to do. *)
Fixpoint run_loop (s : t) (omega_profile current_profile : option (R -> R))
  (steps : list nat) : result t :=
  match steps with
  | [] => Ok s
  | i :: rest =>
      let t_ := INR i * dt s in
      let omega_cmd := match omega_profile with
                       | Some f => f t_
                       | None => 0
                       end in
      let current_cmd := match current_profile with
                         | Some f => f t_
                         | None => 0
                         end in
      s' <- step s omega_cmd current_cmd ;;
      run_loop s' omega_profile current_profile rest
  end.

(** [run]: [duration / self.dt] divides Python floats and raises on a
    zero divisor.  The quotient is the exact one here; the step count
    from the binary64 quotient is [Float64.run_steps]. *)
Definition run (s : t) (duration : R)
  (omega_profile current_profile : option (R -> R))
  : result (t * list (string * R)) :=
  if Req_dec_T (dt s) 0 then Raise ZeroDivisionError
  else
    let steps := py_int (duration / dt s) in
    s' <- run_loop s omega_profile current_profile (range steps) ;;
    Ok (s', EnergyTracker.summary (energy s')).

End GLIDEIntegrator.

(* ================================================================== *)
(** * The NaN guard of the sub-step loop, on binary64 floats *)
(* ================================================================== *)

Module Float64.

Import PrimFloat.

(** An array of shape (n, 2) of binary64 floats. *)
Definition array2 : Type := list (PrimFloat.float * PrimFloat.float).

(** The largest finite binary64 value. *)
Definition max_float : PrimFloat.float := 0x1.fffffffffffffp+1023%float.

Definition isnan (x : PrimFloat.float) : bool := PrimFloat.is_nan x.

Definition isposinf (x : PrimFloat.float) : bool :=
  PrimFloat.eqb x PrimFloat.infinity.

Definition isneginf (x : PrimFloat.float) : bool :=
  PrimFloat.eqb x PrimFloat.neg_infinity.

Definition isinf (x : PrimFloat.float) : bool := isposinf x || isneginf x.

Definition isfinite (x : PrimFloat.float) : bool :=
  negb (isnan x) && negb (isinf x).

(** [np.isnan(a).any()]. *)
Definition isnan_any (a : array2) : bool :=
  existsb (fun r => isnan (fst r) || isnan (snd r)) a.

(** [np.nan_to_num] on one entry, with numpy's defaults: NaN becomes 0.0,
    an infinity becomes the largest finite value of its sign. *)
Definition nan_to_num1 (x : PrimFloat.float) : PrimFloat.float :=
  if isnan x then PrimFloat.zero
  else if isposinf x then max_float
  else if isneginf x then PrimFloat.opp max_float
  else x.

Definition nan_to_num (a : array2) : array2 :=
  map (fun r => (nan_to_num1 (fst r), nan_to_num1 (snd r))) a.

(** The last statement of the sub-step loop of [GLIDEIntegrator.step],
    applied to the tether's [positions] and [velocities]. *)
Definition sanitize (positions velocities : array2) : array2 * array2 :=
  if isnan_any positions || isnan_any velocities
  then (nan_to_num positions, nan_to_num velocities)
  else (positions, velocities).

(** The entries of an array, row by row. *)
Definition entries (a : array2) : list PrimFloat.float :=
  flat_map (fun r => [fst r; snd r]) a.

(** ** The two counts of the integrator

    [step] and [run] each turn a quotient of floats into an integer,
    [int(np.ceil(dt / dt_sub))] and [int(float(duration) / self.dt)].
    The quotient is rounded to binary64 before the integer is taken, and
    that can move the integer by one.  The two expressions are embedded
    here on primitive floats, whose division is the IEEE one. *)

(** The exact value of a finite float (0 for NaN and the infinities): a
    finite float is [m * 2^e], signed. *)
Definition to_R (x : PrimFloat.float) : R :=
  match FloatOps.Prim2SF x with
  | SpecFloat.S754_finite s m e =>
      let a := if (0 <=? e)%Z
               then IZR (Z.pos m * 2 ^ e)
               else IZR (Z.pos m) / IZR (2 ^ (- e)) in
      if s then - a else a
  | _ => 0
  end.

(** [int(x)] of a float: truncation toward zero; NaN and the infinities
    have no integer value.  ([Z.shiftl a e] is [a * 2^e] for [e >= 0] and
    the floor of [a / 2^(-e)] for [e < 0].) *)
Definition to_int (x : PrimFloat.float) : result Z :=
  match FloatOps.Prim2SF x with
  | SpecFloat.S754_zero _ => Ok 0%Z
  | SpecFloat.S754_finite s m e =>
      Ok (if s then - Z.shiftl (Z.pos m) e else Z.shiftl (Z.pos m) e)%Z
  | SpecFloat.S754_infinity _ => Raise OverflowError
  | SpecFloat.S754_nan =>
      Raise (ValueError "cannot convert float NaN to integer")
  end.

(** [int(np.ceil(x))]. *)
Definition ceil_to_int (x : PrimFloat.float) : result Z :=
  match FloatOps.Prim2SF x with
  | SpecFloat.S754_zero _ => Ok 0%Z
  | SpecFloat.S754_finite s m e =>
      Ok (if s then - Z.shiftl (Z.pos m) e else - Z.shiftl (Z.neg m) e)%Z
  | SpecFloat.S754_infinity _ => Raise OverflowError
  | SpecFloat.S754_nan =>
      Raise (ValueError "cannot convert float NaN to integer")
  end.

(** [float(n)] of a Python int, as [dt / n_sub] converts its divisor: the
    nearest float, OverflowError beyond the largest one. *)
Definition of_int (n : Z) : result PrimFloat.float :=
  let f := FloatOps.SF2Prim
             (SpecFloat.binary_normalize FloatOps.prec FloatOps.emax
                                         n 0 false) in
  if isinf f then Raise OverflowError else Ok f.

(** Python's built-in [min(a, b)] on floats. *)
Definition py_min64 (a b : PrimFloat.float) : PrimFloat.float :=
  if PrimFloat.ltb b a then b else a.

(** The divisor of the first quotient of [step]:
    [min(dt, max_substep_dt) if max_substep_dt > 0 else dt]. *)
Definition first_dt_sub (dt max_substep_dt : PrimFloat.float)
  : PrimFloat.float :=
  if PrimFloat.ltb PrimFloat.zero max_substep_dt
  then py_min64 dt max_substep_dt
  else dt.

(** The sub-step count and size of [step], from the floats [self.dt] and
    [self.max_substep_dt]. *)
Definition substep_plan (dt max_substep_dt : PrimFloat.float)
  : result (Z * PrimFloat.float) :=
  let dt_sub := first_dt_sub dt max_substep_dt in
  if PrimFloat.eqb dt_sub PrimFloat.zero then Raise ZeroDivisionError
  else
    c <- ceil_to_int (PrimFloat.div dt dt_sub) ;;
    let n_sub := Z.max 1 c in
    n_sub_float <- of_int n_sub ;;
    Ok (n_sub, PrimFloat.div dt n_sub_float).

(** The step count of [run], from the floats [float(duration)] and
    [self.dt]. *)
Definition run_steps (duration dt : PrimFloat.float) : result Z :=
  if PrimFloat.eqb dt PrimFloat.zero then Raise ZeroDivisionError
  else to_int (PrimFloat.div duration dt).

(** The floats [main] runs on: [sim.run(duration=60.0, ...)], and the
    [dt] of the presets of [utils/config.py], 0.05 for orbital_test
    (0x1.999999999999ap-5 in binary64) and 0.005 for engineering and
    local_demo (0x1.47ae147ae147bp-8). *)
Definition main_duration : PrimFloat.float := 60%float.

Definition dt_orbital_test : PrimFloat.float := 0x1.999999999999ap-5%float.

Definition dt_engineering : PrimFloat.float := 0x1.47ae147ae147bp-8%float.

End Float64.

(* ================================================================== *)
(** * Concrete objects, for the examples that follow *)
(* ================================================================== *)

Module Examples.

(** One segment of rest length 10 and stiffness 100, anchored at the
    origin, the payload hanging at distance 12 (20 % overstretch). *)
Definition tether1 : DynamicTether.t :=
  DynamicTether.mk 1 10 10 1 100 1 10 0 0
    [(0, 0); (0, -12)] [(0, 0); (0, 0)] [(0, 0); (0, 0)]
    [(0, 0); (0, -12)].

(** The same segment, compressed to length 8. *)
Definition tether_slack : DynamicTether.t :=
  DynamicTether.mk 1 10 10 1 100 1 10 0 0
    [(0, 0); (0, -8)] [(0, 0); (0, 0)] [(0, 0); (0, 0)]
    [(0, 0); (0, -8)].

(** The default motor at rest, and the same motor spinning at 1 rad/s. *)
Definition motor_rest : MotorSystem.t :=
  MotorSystem.init 0.25 0.08 15 0.02 0.87.

Definition motor_spinning : MotorSystem.t :=
  MotorSystem.mk 0.25 0.08 15 0.02 0.87 1 0 0 0 0 0.

(** A motor drawing 5 W, and one returning 5 W. *)
Definition motor_drawing : MotorSystem.t :=
  MotorSystem.mk 0.25 0.08 15 0.02 0.87 0 0 0 0 0 5.

Definition motor_returning : MotorSystem.t :=
  MotorSystem.mk 0.25 0.08 15 0.02 0.87 0 0 0 0 0 (-5).

(** Actuators with unit field, resistance and maximum current. *)
Definition edt_in_mode (m : string) : ElectrodynamicTether.t :=
  ElectrodynamicTether.mk 100 [0; 0; 1] 1 1 m 0 vzero 0 0 0.

Definition gravity_local : GravityField.t :=
  GravityField.mk 3.986004418e14 9.80665 6.371e6 "local".

(** One [update] call that books 5 W over 1 s, and one that books -5 W. *)
Definition draw_call : EnergyTracker.call :=
  EnergyTracker.mk_call 1 tether1 motor_drawing (edt_in_mode "off") None.

Definition charge_call : EnergyTracker.call :=
  EnergyTracker.mk_call 1 tether1 motor_returning (edt_in_mode "off") None.

(** The parameters of the orbital_test preset with one tether segment, and
    an integrator over them before its first step. *)
Definition params1 : GLIDEIntegrator.params :=
  GLIDEIntegrator.mk_params 0.05 "local" 8.70 3.986004418e14 6.371e6
    1 10 40e9 0.005 1.8 0.05 0 0.25 0.08 15 0.02 0.87
    100 [0; 0; 3.1e-5] 50 2.5 "drag" 1e6 1 4 0.005 0.

(** The same parameters with N = -1: the constructor accepts them and
    builds arrays without rows. *)
Definition params_no_rows : GLIDEIntegrator.params :=
  GLIDEIntegrator.mk_params 0.05 "local" 8.70 3.986004418e14 6.371e6
    (-1) 10 40e9 0.005 1.8 0.05 0 0.25 0.08 15 0.02 0.87
    100 [0; 0; 3.1e-5] 50 2.5 "drag" 1e6 1 4 0.005 0.

Definition sim1 : GLIDEIntegrator.t :=
  GLIDEIntegrator.mk params1 0.05 (0, 0) vzero "local" 8.70 gravity_local
    tether1 motor_rest (edt_in_mode "drag") (EnergyTracker.init 1e6 1)
    4 0.005 0 0.

End Examples.

(* ================================================================== *)
(** * main.py: the command profiles and the run they drive *)
(* ================================================================== *)

Module Main.

Definition winch_profile (t : R) : R := 8 * sin (2 * PI * 0.2 * t).

(** [int(t // 10) % 2]: [//] on a float is the floor of the quotient,
    [%] on ints takes the sign of the divisor. *)
Definition current_profile (t : R) : R :=
  let cycle := (py_int (IZR (Zfloor (t / 10))) mod 2)%Z in
  if (cycle =? 0)%Z then 0.8 else -0.8.

Definition sim_duration : R := 60.

(** What [main] computes between its two banners: the preset, the
    integrator over it, the run of 60 s under the two profiles.  [None]
    stands for a mapping this model does not read (see [read_params]). *)
Definition simulate (mode : string)
  : option (result (GLIDEIntegrator.t * list (string * R))) :=
  match Config.load_config mode with
  | Raise e => Some (Raise e)
  | Ok cfg =>
      match GLIDEIntegrator.read_params cfg with
      | None => None
      | Some p =>
          Some (sim <- GLIDEIntegrator.init p ;;
                GLIDEIntegrator.run sim sim_duration (Some winch_profile)
                                    (Some current_profile))
      end
  end.

(** [summary[key]], [None] for a missing key. *)
Fixpoint summary_get (key : string) (d : list (string * R)) : option R :=
  match d with
  | [] => None
  | (k0, v0) :: r => if (k0 =? key)%string then Some v0 else summary_get key r
  end.

End Main.

(* ================================================================== *)
(** * Notions used to state properties *)
(* ================================================================== *)

(** [np.sum(a, axis=0)]: the sum of the rows. *)
Definition vsum (a : list Vec2) : Vec2 := fold_right vadd vzero a.

(** Every row moved by the same vector. *)
Definition translate (d : Vec2) (a : list Vec2) : list Vec2 :=
  map (fun p => p +v d) a.

(* ================================================================== *)
(** * Facts about the primitives *)
(* ================================================================== *)

Section Scalars.

Lemma py_max_Rmax (a b : R) : py_max a b = Rmax a b.
Proof.
  unfold py_max, Rmax.
  destruct (Rlt_dec a b), (Rle_dec a b); lra.
Qed.

Lemma py_min_Rmin (a b : R) : py_min a b = Rmin a b.
Proof.
  unfold py_min, Rmin.
  destruct (Rlt_dec b a), (Rle_dec a b); lra.
Qed.

Lemma np_clip_bounds (x lo hi : R) :
  lo <= hi -> lo <= np_clip x lo hi <= hi.
Proof.
  intros Hle. unfold np_clip, Rmin, Rmax.
  destruct (Rle_dec x lo); destruct (Rle_dec _ hi); lra.
Qed.

Lemma np_clip_inside (x lo hi : R) :
  lo <= x <= hi -> np_clip x lo hi = x.
Proof.
  intros Hx. unfold np_clip, Rmin, Rmax.
  destruct (Rle_dec x lo); destruct (Rle_dec _ hi); lra.
Qed.

Lemma np_clip_below (x lo hi : R) :
  lo <= hi -> x <= lo -> np_clip x lo hi = lo.
Proof.
  intros Hle Hx. unfold np_clip, Rmin, Rmax.
  destruct (Rle_dec x lo); destruct (Rle_dec _ hi); lra.
Qed.

Lemma np_clip_above (x lo hi : R) :
  lo <= hi -> hi <= x -> np_clip x lo hi = hi.
Proof.
  intros Hle Hx. unfold np_clip, Rmin, Rmax.
  destruct (Rle_dec x lo); destruct (Rle_dec _ hi); lra.
Qed.

Lemma np_clip_mono (x y lo hi : R) :
  x <= y -> np_clip x lo hi <= np_clip y lo hi.
Proof.
  intros Hxy. unfold np_clip.
  apply Rle_min_compat_r. apply Rle_max_compat_r. exact Hxy.
Qed.

Lemma py_int_IZR (z : Z) : py_int (IZR z) = z.
Proof.
  unfold py_int.
  destruct (Rle_dec 0 (IZR z)).
  - apply Zfloor_eq. lra.
  - apply Zceil_eq. lra.
Qed.

Lemma py_int_below_one (x : R) : x < 1 -> (py_int x <= 0)%Z.
Proof.
  intros Hx. unfold py_int.
  destruct (Rle_dec 0 x) as [H0 | H0].
  - assert (E : Zfloor x = 0%Z) by (apply Zfloor_eq; simpl; lra).
    rewrite E. lia.
  - apply le_IZR.
    pose proof (Zceil_bound x) as [Hlo _].
    assert (Hlt : IZR (Zceil x) < 1) by lra.
    apply lt_IZR in Hlt. apply IZR_le. lia.
Qed.

Lemma norm_nonneg (a : Vec2) : 0 <= norm a.
Proof. unfold norm. apply sqrt_pos. Qed.

Lemma norm_x_axis (x : R) : 0 <= x -> norm (x, 0) = x.
Proof.
  intros Hx. unfold norm; simpl.
  replace (x * x + 0 * 0) with (x * x) by ring. now apply sqrt_square.
Qed.

Lemma norm_y_axis (y : R) : 0 <= y -> norm (0, y) = y.
Proof.
  intros Hy. unfold norm; simpl.
  replace (0 * 0 + y * y) with (y * y) by ring. now apply sqrt_square.
Qed.

End Scalars.

Section Arrays.

Context {A : Type}.

Lemma upd_length (i : nat) (f : A -> A) (l : list A) :
  List.length (upd i f l) = List.length l.
Proof.
  revert i. induction l as [| x xs IH]; intros [| j]; simpl; auto.
Qed.

Lemma nth_upd_same (i : nat) (f : A -> A) (l : list A) (d : A) :
  (i < List.length l)%nat -> nth i (upd i f l) d = f (nth i l d).
Proof.
  revert i. induction l as [| x xs IH]; intros [| j] Hi; simpl in *;
    try lia; auto.
  apply IH. lia.
Qed.

Lemma nth_upd_other (i j : nat) (f : A -> A) (l : list A) (d : A) :
  i <> j -> nth j (upd i f l) d = nth j l d.
Proof.
  revert i j. induction l as [| x xs IH]; intros [| i] [| j] Hij; simpl;
    auto; try congruence.
Qed.

Lemma set_at_length (i : nat) (v : A) (l : list A) :
  List.length (set_at i v l) = List.length l.
Proof. apply upd_length. Qed.

Lemma nth_set_at_same (i : nat) (v : A) (l : list A) (d : A) :
  (i < List.length l)%nat -> nth i (set_at i v l) d = v.
Proof. intros Hi. unfold set_at. now rewrite nth_upd_same. Qed.

Lemma on_tail_length (g : list A -> list A) (l : list A) :
  (forall m, List.length (g m) = List.length m) ->
  List.length (on_tail g l) = List.length l.
Proof. intros Hg. destruct l; simpl; auto. Qed.

Lemma nth_on_tail_0 (g : list A -> list A) (l : list A) (d : A) :
  nth 0 (on_tail g l) d = nth 0 l d.
Proof. destruct l; reflexivity. Qed.

Lemma nth_on_tail_S (g : list A -> list A) (l : list A) (d : A) (i : nat) :
  l <> [] -> nth (S i) (on_tail g l) d = nth i (g (tl l)) d.
Proof. destruct l; simpl; congruence. Qed.

Lemma nth_tl (l : list A) (d : A) (i : nat) : nth i (tl l) d = nth (S i) l d.
Proof. destruct l; simpl; auto. destruct i; reflexivity. Qed.

Lemma tl_length (l : list A) : List.length (tl l) = (List.length l - 1)%nat.
Proof. destruct l; simpl; lia. Qed.

Lemma fold_left_invariant {B : Type} (P : A -> Prop) (f : A -> B -> A)
  (l : list B) (a : A) :
  (forall x b, P x -> P (f x b)) -> P a -> P (fold_left f l a).
Proof.
  intros Hf. revert a. induction l as [| b bs IH]; simpl; auto.
Qed.

Lemma iter_invariant (P : A -> Prop) (f : A -> A) (n : nat) (a : A) :
  (forall x, P x -> P (f x)) -> P a -> P (Nat.iter n f a).
Proof. intros Hf Ha. induction n; simpl; auto. Qed.

Lemma fold_left_const_iter {B : Type} (f : A -> A) (l : list B) (a : A) :
  fold_left (fun x _ => f x) l a = Nat.iter (List.length l) f a.
Proof.
  revert a. induction l as [| b bs IH]; intros a; simpl; auto.
  rewrite IH. clear IH. induction (List.length bs); simpl; congruence.
Qed.

End Arrays.

Lemma zip_with_length {A B C : Type} (f : A -> B -> C) (l : list A)
  (m : list B) :
  List.length (zip_with f l m) = Nat.min (List.length l) (List.length m).
Proof.
  revert m. induction l as [| x xs IH]; intros [| y ys]; simpl; auto.
Qed.

Lemma nth_zip_with {A B C : Type} (f : A -> B -> C) (l : list A)
  (m : list B) (i : nat) (da : A) (db : B) (dc : C) :
  (i < List.length l)%nat -> (i < List.length m)%nat ->
  nth i (zip_with f l m) dc = f (nth i l da) (nth i m db).
Proof.
  revert m i. induction l as [| x xs IH]; intros [| y ys] [| i] Hl Hm;
    simpl in *; try lia; auto.
  apply IH; lia.
Qed.

Lemma range_length (n : Z) : List.length (range n) = Z.to_nat n.
Proof. unfold range. apply length_seq. Qed.

Lemma nth_range (n : Z) (i : nat) :
  (i < Z.to_nat n)%nat -> nth i (range n) 0%nat = i.
Proof. intros Hi. unfold range. now rewrite seq_nth. Qed.

Lemma nth_map_range {A : Type} (f : nat -> A) (n : Z) (i : nat) (d : A) :
  (i < Z.to_nat n)%nat -> nth i (map f (range n)) d = f i.
Proof.
  intros Hi.
  rewrite (nth_indep _ d (f 0%nat)) by (now rewrite length_map, range_length).
  now rewrite map_nth, nth_range.
Qed.

(* ================================================================== *)
(** * DynamicTether: shape invariant, constraints, tension *)
(* ================================================================== *)

Section TetherFacts.

Import DynamicTether.

Lemma constrain_segment_length (seg : R) (pos : list Vec2) (i : nat) :
  List.length (constrain_segment seg pos i) = List.length pos.
Proof.
  unfold constrain_segment.
  destruct (Rlt_dec _ _); [reflexivity |].
  destruct i; now rewrite ?upd_length.
Qed.

Lemma constraint_pass_length (s : t) (pos : list Vec2) :
  List.length (constraint_pass s pos) = List.length pos.
Proof.
  unfold constraint_pass. rewrite set_at_length.
  apply (fold_left_invariant (fun p => List.length p = List.length pos)).
  - intros p i Hp. now rewrite constrain_segment_length.
  - reflexivity.
Qed.

(** Every constraint pass ends with the anchor at its stored position. *)
Lemma constraint_pass_anchor (s : t) (pos : list Vec2) :
  (0 < List.length pos)%nat ->
  row 0 (constraint_pass s pos) = row 0 (_pos_prev s).
Proof.
  intros Hlen. unfold constraint_pass, row.
  apply nth_set_at_same.
  rewrite (fold_left_invariant (fun p => List.length p = List.length pos));
    auto.
  intros p i Hp. now rewrite constrain_segment_length.
Qed.

Lemma constraint_iter_length (s : t) (n : nat) (pos : list Vec2) :
  List.length (Nat.iter n (constraint_pass s) pos) = List.length pos.
Proof.
  apply (iter_invariant (fun p => List.length p = List.length pos)); auto.
  intros p Hp. now rewrite constraint_pass_length.
Qed.

Lemma segment_force_length (s : t) (F : list Vec2) (i : nat) :
  List.length (segment_force s F i) = List.length F.
Proof.
  unfold segment_force.
  destruct (Rlt_dec _ _); [reflexivity |]. now rewrite !upd_length.
Qed.

Lemma zeros_like_length (a : list Vec2) :
  List.length (zeros_like a) = List.length a.
Proof. unfold zeros_like. apply length_map. Qed.

(** [__init__] establishes the shape invariant. *)
Lemma init_wf (N_ : Z) (L0_ E d rho dr decay : R) (s : t) :
  (1 <= N_)%Z ->
  init N_ L0_ E d rho dr decay = Ok s -> wf s /\ N s = N_.
Proof.
  intros HN. unfold init.
  destruct (Z.eqb_spec N_ 0); [discriminate |].
  destruct (Req_dec_T _ 0); [discriminate |].
  destruct (Z.ltb_spec (N_ + 1) 0); [discriminate |].
  intros [= <-]. unfold wf; simpl.
  rewrite !zeros_like_length, !length_map, range_length.
  replace (Z.to_nat (N_ + 1)) with (S (Z.to_nat N_)) by lia.
  repeat split; auto.
Qed.

(** A tether built from a non-negative modulus and a positive rest
    length has a non-negative stiffness. *)
Lemma init_stiffness_nonneg (N_ : Z) (L0_ E d rho dr decay : R) (s : t) :
  (1 <= N_)%Z -> 0 < L0_ -> 0 <= E ->
  init N_ L0_ E d rho dr decay = Ok s -> 0 <= k s.
Proof.
  intros HN HL HE. unfold init.
  destruct (Z.eqb_spec N_ 0); [discriminate |].
  destruct (Req_dec_T _ 0); [discriminate |].
  destruct (Z.ltb_spec (N_ + 1) 0); [discriminate |].
  intros [= <-]. simpl.
  assert (HNr : 0 < IZR N_) by (apply IZR_lt; lia).
  assert (Hseg : 0 < L0_ / IZR N_) by (apply Rdiv_lt_0_compat; lra).
  assert (HA : 0 <= PI * (d / 2) ^ 2).
  { apply Rmult_le_pos; [left; apply PI_RGT_0 | apply pow2_ge_0]. }
  apply Rmult_le_pos; [now apply Rmult_le_pos |].
  left. now apply Rinv_0_lt_compat.
Qed.

Lemma anchor_update_wf (s : t) (p v : Vec2) : wf s -> wf (anchor_write s p v).
Proof.
  unfold wf, anchor_write; simpl. rewrite !set_at_length. tauto.
Qed.

(** [anchor_update] returns on a well-shaped tether, raises IndexError on
    one without rows, and when it returns it has done the two writes. *)
Lemma anchor_update_ok (s : t) (p v : Vec2) :
  wf s -> anchor_update s p v = Ok (anchor_write s p v).
Proof.
  intros (_ & Hp & Hv & _). unfold anchor_update.
  destruct (positions s); [discriminate Hp |].
  destruct (velocities s); [discriminate Hv | reflexivity].
Qed.

Lemma anchor_update_empty (s : t) (p v : Vec2) :
  positions s = [] -> anchor_update s p v = Raise IndexError.
Proof. intros H. unfold anchor_update. now rewrite H. Qed.

Lemma anchor_update_inv (s s' : t) (p v : Vec2) :
  anchor_update s p v = Ok s' -> s' = anchor_write s p v.
Proof.
  unfold anchor_update.
  destruct (positions s); [discriminate |].
  destruct (velocities s); [discriminate |]. now intros [= <-].
Qed.

Lemma compute_internal_forces_wf (s : t) :
  wf s -> wf (fst (compute_internal_forces s)).
Proof.
  unfold wf, compute_internal_forces; simpl.
  intros (HN & Hp & Hv & Hf & Hq). repeat split; auto.
  rewrite (fold_left_invariant
             (fun F => List.length F = List.length (positions s))); auto.
  - intros F i HF. now rewrite segment_force_length.
  - apply zeros_like_length.
Qed.

Lemma add_external_forces_wf (s : t) (F_ext : list Vec2) :
  List.length F_ext = S (Z.to_nat (N s)) ->
  wf s -> wf (add_external_forces s F_ext).
Proof.
  unfold wf, add_external_forces; simpl.
  intros HF (HN & Hp & Hv & Hf & Hq). repeat split; auto.
  rewrite zip_with_length, Hf, HF. apply Nat.min_id.
Qed.

Lemma integrate_wf (s : t) (dt : R) : wf s -> wf (integrate s dt).
Proof.
  unfold integrate. destruct (Rle_dec dt 0); [auto |].
  unfold wf; simpl. intros (HN & Hp & Hv & Hf & Hq).
  set (a := map (fun f => f /v m_segment s) (_forces s)).
  assert (Hvel : List.length
                   (on_tail (fun v => zip_with (fun vi ai => vi +v ai *v dt)
                                               v (tl a))
                            (velocities s)) = S (Z.to_nat (N s))).
  { destruct (velocities s) as [| v0 vs]; simpl in *; [lia |].
    unfold a. rewrite zip_with_length, tl_length, length_map. lia. }
  repeat split; auto.
  - destruct (positions s) as [| p0 ps]; simpl in *; [lia |].
    rewrite zip_with_length, tl_length, Hvel. lia.
  - destruct (Rlt_dec 0 _); auto.
    rewrite on_tail_length; auto. intros m. apply length_map.
Qed.

Lemma enforce_constraints_wf (s : t) (dt : R) (it : Z) :
  wf s -> wf (enforce_constraints s dt it).
Proof.
  unfold enforce_constraints. destruct (Rle_dec dt 0); [auto |].
  destruct (Z.eqb_spec (Z.max 0 it) 0); [auto |].
  unfold wf; simpl. intros (HN & Hp & Hv & Hf & Hq).
  rewrite constraint_iter_length. repeat split; auto.
  destruct (velocities s) as [| v0 vs]; simpl in *; [lia |].
  rewrite zip_with_length, !tl_length, constraint_iter_length. lia.
Qed.

(** [integrate] with a positive step stores the anchor where it stands:
    row 0 of the positions and of the stored previous positions agree. *)
Lemma integrate_anchor_prev (s : t) (dt : R) :
  0 < dt ->
  row 0 (positions (integrate s dt)) = row 0 (_pos_prev (integrate s dt)).
Proof.
  intros Hdt. unfold integrate.
  destruct (Rle_dec dt 0); [lra |]. simpl.
  unfold row. now rewrite nth_on_tail_0.
Qed.

(** C1.  [enforce_constraints] with a positive step and at least one
    iteration, entered with the anchor at its stored previous position:
    the anchor's position is the same before and after the call, the
    stored previous positions are untouched, and every non-anchor node
    leaves with velocity (corrected position - previous position) / dt. *)
Theorem enforce_constraints_anchor_and_velocity
  (s : t) (dt : R) (iterations : Z) :
  wf s -> 0 < dt -> (1 <= iterations)%Z ->
  row 0 (positions s) = row 0 (_pos_prev s) ->
  let s' := enforce_constraints s dt iterations in
  row 0 (positions s') = row 0 (positions s) /\
  _pos_prev s' = _pos_prev s /\
  forall i, (1 <= i <= Z.to_nat (N s))%nat ->
    row i (velocities s') =
    (row i (positions s') -v row i (_pos_prev s)) /v dt.
Proof.
  intros (HN & Hp & Hv & Hf & Hq) Hdt Hit Hanchor. simpl.
  unfold enforce_constraints.
  destruct (Rle_dec dt 0); [lra |].
  destruct (Z.eqb_spec (Z.max 0 iterations) 0); [lia |]. simpl.
  replace (Z.max 0 iterations) with iterations by lia.
  destruct (Z.to_nat iterations) as [| m] eqn:En; [lia |].
  split; [| split; [reflexivity |]].
  - simpl. rewrite constraint_pass_anchor; [congruence |].
    rewrite constraint_iter_length. lia.
  - intros i [Hi1 Hi2].
    destruct i as [| j]; [lia |].
    set (pos := Nat.iter (S m) (constraint_pass s) (positions s)).
    assert (Hpos : List.length pos = S (Z.to_nat (N s))).
    { unfold pos. now rewrite constraint_iter_length. }
    unfold row at 1.
    rewrite nth_on_tail_S
      by (destruct (velocities s); simpl in *; [lia | congruence]).
    rewrite (nth_zip_with _ _ _ _ vzero vzero)
      by (rewrite tl_length; lia).
    unfold row. now rewrite !nth_tl.
Qed.

Lemma get_tension_profile_length (s : t) :
  List.length (get_tension_profile s) = Z.to_nat (N s).
Proof. unfold get_tension_profile. now rewrite length_map, range_length. Qed.

(** C7.  [get_tension_profile] of a well-shaped tether returns N values,
    one per segment; the value of segment i is
    k * max(0, current length - rest length); it is zero for a segment at
    or below its rest length, and never negative for a stiffness k >= 0. *)
Theorem tension_profile_per_segment (s : t) :
  wf s ->
  List.length (get_tension_profile s) = Z.to_nat (N s) /\
  forall i, (i < Z.to_nat (N s))%nat ->
    let len := norm (row (S i) (positions s) -v row i (positions s)) in
    let T := nth i (get_tension_profile s) 0 in
    T = k s * Rmax 0 (len - segment_length s) /\
    (len <= segment_length s -> T = 0) /\
    (0 <= k s -> 0 <= T).
Proof.
  intros _.
  split; [apply get_tension_profile_length |].
  intros i Hi len T.
  assert (HT : T = k s * Rmax 0 (len - segment_length s)).
  { unfold T, get_tension_profile.
    rewrite nth_map_range by exact Hi.
    now rewrite py_max_Rmax. }
  split; [exact HT |]. rewrite HT. split.
  - intros Hlen. rewrite Rmax_left by lra. ring.
  - intros Hk. apply Rmult_le_pos; [exact Hk | apply Rmax_l].
Qed.

End TetherFacts.

(* ================================================================== *)
(** * MotorSystem: the direction of the efficiency *)
(* ================================================================== *)

Section MotorFacts.

Import MotorSystem.

Lemma inv_efficiency_gt_1 (e : R) : 0 < e < 1 -> 1 < / e.
Proof.
  intros He. rewrite <- Rinv_1. apply Rinv_lt_contravar; lra.
Qed.

Lemma electrical_power_motoring (e P : R) :
  0 < e < 1 -> 0 < P -> P < electrical_power e P.
Proof.
  intros He HP. unfold electrical_power.
  destruct (Rge_dec P 0); [| lra].
  pose proof (inv_efficiency_gt_1 e He). unfold Rdiv. nra.
Qed.

Lemma electrical_power_braking (e P : R) :
  0 < e < 1 -> P < 0 -> Rabs (electrical_power e P) < Rabs P.
Proof.
  intros He HP. unfold electrical_power.
  destruct (Rge_dec P 0); [lra |].
  rewrite !Rabs_left by nra. nra.
Qed.

(** C4.  After [update] of a motor with efficiency 0 < eta < 1: the
    electrical power is the mechanical power divided by eta when that is
    >= 0 and multiplied by eta when it is negative; a positive mechanical
    power is strictly exceeded by the electrical draw, and a negative one
    is returned strictly smaller in magnitude. *)
Theorem motor_efficiency_asymmetry (s : t) (dt tension omega_cmd : R) :
  0 < eta s < 1 ->
  let s' := fst (update s dt tension omega_cmd) in
  eta s' = eta s /\
  P_mech s' = torque s' * omega s' /\
  (0 <= P_mech s' -> P_elec s' = P_mech s' / eta s) /\
  (P_mech s' < 0 -> P_elec s' = P_mech s' * eta s) /\
  (0 < P_mech s' -> P_mech s' < P_elec s') /\
  (P_mech s' < 0 -> Rabs (P_elec s') < Rabs (P_mech s')).
Proof.
  intros He. simpl.
  set (P := np_clip (2 * (omega_cmd - omega s)) (- tau_max s) (tau_max s) *
            np_clip (omega s +
                     np_clip ((np_clip (2 * (omega_cmd - omega s))
                                       (- tau_max s) (tau_max s) -
                               tension * R_spool s - b_m s * omega s) / J_m s)
                             (-100) 100 * dt) (-50) 50).
  repeat split.
  - intros HP. unfold electrical_power. destruct (Rge_dec P 0); lra.
  - intros HP. unfold electrical_power. destruct (Rge_dec P 0); lra.
  - intros HP. now apply electrical_power_motoring.
  - intros HP. now apply electrical_power_braking.
Qed.

End MotorFacts.

(* ================================================================== *)
(** * ElectrodynamicTether: power bookkeeping and modes *)
(* ================================================================== *)

Section EDTFacts.

Import ElectrodynamicTether.

Lemma dot_smul (x : R) (a b : Vec2) : dot (x *.v a) b = x * dot a b.
Proof. unfold dot, smul. simpl. ring. Qed.

Lemma dot_vzero_l (b : Vec2) : dot vzero b = 0.
Proof. unfold dot, vzero. simpl. ring. Qed.

Lemma net_power_boost (Pl Po : R) :
  net_power "boost" Pl Po = Pl + Rmax 0 Po.
Proof. unfold net_power. simpl. now rewrite py_max_Rmax. Qed.

Lemma net_power_not_boost (m : string) (Pl Po : R) :
  m <> "boost"%string -> net_power m Pl Po = Pl + Rmin 0 Po.
Proof.
  intros Hm. unfold net_power.
  apply String.eqb_neq in Hm. rewrite Hm. now rewrite py_min_Rmin.
Qed.

(** Outside boost mode the chosen sign never lets the force do positive
    work on a payload that moves. *)
Lemma force_sign_not_boost (m : string) (v : Vec2) (Pc : R) :
  m <> "boost"%string -> 1e-9 < norm v -> force_sign m v Pc * Pc <= 0.
Proof.
  intros Hm Hv. unfold force_sign.
  apply String.eqb_neq in Hm. rewrite Hm.
  destruct (Rgt_dec (norm v) 1e-9); [| lra].
  destruct (Rge_dec Pc 0); lra.
Qed.

Lemma force_sign_boost (v : Vec2) (Pc : R) :
  1e-9 < norm v -> 0 <= force_sign "boost" v Pc * Pc.
Proof.
  intros Hv. unfold force_sign. simpl.
  destruct (Rgt_dec (norm v) 1e-9); [| lra].
  destruct (Rge_dec Pc 0); lra.
Qed.

(** The bookkeeping of one [update] outside "off" mode. *)
Lemma update_bookkeeping (s : t) (node payload v : Vec2) (cmd : R) :
  mode s <> "off"%string ->
  let s' := fst (update s node payload v cmd) in
  snd (update s node payload v cmd) = F s' /\
  mode s' = mode s /\
  I s' = np_clip cmd (-1) 1 * I_max s /\
  P_loss s' = I s' ^ 2 * R_tether s /\
  P_orbit s' = dot (F s') v /\
  P_net s' = net_power (mode s) (P_loss s') (P_orbit s').
Proof.
  intros Hoff. apply String.eqb_neq in Hoff. simpl.
  unfold update. rewrite Hoff.
  destruct (Rlt_dec _ 1e-9); simpl.
  - repeat split; auto.
    + now rewrite dot_vzero_l.
    + unfold net_power, py_max, py_min.
      destruct (mode s =? "boost")%string; destruct (Rlt_dec 0 0); lra.
  - repeat split; auto.
Qed.

Lemma edt_update_wf (s : t) (node payload v : Vec2) (cmd : R) :
  wf s -> wf (fst (update s node payload v cmd)).
Proof.
  unfold wf, update.
  destruct (mode s =? "off")%string; [auto |].
  destruct (Rlt_dec _ 1e-9); auto.
Qed.

(** C3.  [update] in boost mode books net power = I^2 R + max(0, F.v),
    a loss plus a non-negative orbital part; in drag mode it books
    I^2 R + min(0, F.v), a loss plus a non-positive part, which is negative
    as soon as the harvested power -F.v exceeds the loss; and there is a
    drag-mode call whose net power is negative. *)
Theorem edt_power_sign_contract :
  (forall (s : t) (node payload v : Vec2) (cmd : R),
      wf s ->
      let s' := fst (update s node payload v cmd) in
      (mode s = "boost"%string ->
       P_loss s' = I s' ^ 2 * R_tether s /\
       P_net s' = P_loss s' + Rmax 0 (dot (F s') v) /\
       0 <= Rmax 0 (dot (F s') v) /\
       P_loss s' <= P_net s') /\
      (mode s = "drag"%string ->
       P_loss s' = I s' ^ 2 * R_tether s /\
       P_net s' = P_loss s' + Rmin 0 (dot (F s') v) /\
       Rmin 0 (dot (F s') v) <= 0 /\
       (P_loss s' < - dot (F s') v -> P_net s' < 0))) /\
  (exists (s : t) (node payload v : Vec2) (cmd : R),
      wf s /\ mode s = "drag"%string /\
      P_net (fst (update s node payload v cmd)) < 0).
Proof.
  split.
  - intros s node payload v cmd _ s'. split; intros Hm.
    + destruct (update_bookkeeping s node payload v cmd)
        as (_ & _ & _ & Hl & Ho & Hn); [rewrite Hm; discriminate |].
      fold s' in Hl, Ho, Hn.
      rewrite Hm, net_power_boost, Ho in Hn.
      pose proof (Rmax_l 0 (dot (F s') v)).
      repeat split; auto; lra.
    + destruct (update_bookkeeping s node payload v cmd)
        as (_ & _ & _ & Hl & Ho & Hn); [rewrite Hm; discriminate |].
      fold s' in Hl, Ho, Hn.
      rewrite Hm, net_power_not_boost, Ho in Hn by discriminate.
      pose proof (Rmin_l 0 (dot (F s') v)).
      repeat split; auto.
      intros Hh. rewrite Hn.
      pose proof (Rmin_r 0 (dot (F s') v)). lra.
  - exists (mk 100 [0; 0; 1] 1 1 "drag" 0 vzero 0 0 0),
           (0, 0), (0, 1), (10, 0), 1.
    split; [reflexivity |]. split; [reflexivity |].
    destruct (update_bookkeeping (mk 100 [0; 0; 1] 1 1 "drag" 0 vzero 0 0 0)
                (0, 0) (0, 1) (10, 0) 1)
      as (_ & _ & HI & Hl & Ho & Hn); [discriminate |].
    set (s' := fst (update _ _ _ _ _)) in *.
    rewrite net_power_not_boost in Hn by discriminate.
    simpl in HI, Hl.
    rewrite np_clip_inside in HI by lra.
    assert (HF : dot (F s') (10, 0) <= -10).
    { unfold s', update; simpl.
      replace ((0, 1) -v (0, 0)) with ((0, 1) : Vec2)
        by (unfold vsub; simpl; f_equal; ring).
      rewrite (norm_y_axis 1) by lra.
      destruct (Rlt_dec 1 1e-9); [lra |]. simpl.
      rewrite np_clip_inside by lra.
      unfold force_sign; simpl.
      rewrite (norm_x_axis 10) by lra.
      destruct (Rgt_dec 10 1e-9); [| lra].
      rewrite !Rabs_right by lra.
      unfold dot; simpl.
      destruct (Rge_dec _ 0); lra. }
    rewrite Hn, Ho, Hl, HI.
    pose proof (Rmin_r 0 (dot (F s') (10, 0))). lra.
Qed.

(** [update] reads the mode only through its comparisons with "off" and
    "boost": two actuators that differ in nothing but a mode outside those
    two compute the same thing. *)
Lemma update_mode_irrelevant (s : t) (m : string) (node payload v : Vec2)
  (cmd : R) :
  mode s <> "off"%string -> mode s <> "boost"%string ->
  m <> "off"%string -> m <> "boost"%string ->
  let r := update s node payload v cmd in
  let r' := update (mk (L s) (B_vec s) (R_tether s) (I_max s) m
                       (I s) (F s) (P_loss s) (P_orbit s) (P_net s))
                   node payload v cmd in
  snd r = snd r' /\
  I (fst r) = I (fst r') /\ F (fst r) = F (fst r') /\
  P_loss (fst r) = P_loss (fst r') /\ P_orbit (fst r) = P_orbit (fst r') /\
  P_net (fst r) = P_net (fst r').
Proof.
  intros H1 H2 H3 H4.
  apply String.eqb_neq in H1, H2, H3, H4.
  unfold update; simpl. rewrite H1, H3.
  destruct (Rlt_dec _ 1e-9); simpl; [repeat split |].
  unfold force_sign, net_power. rewrite H2, H4. repeat split.
Qed.

(** C9.  [update] is a total function: on an actuator as [__init__]
    builds it (three field components) it returns for every stored mode.
    For a stored mode other than "off" and "boost" it computes exactly what
    the same actuator set to "drag" computes (returned force, current,
    force, loss, orbital and net power), keeps the stored mode, books
    net power = loss + min(0, orbital power), and picks the sign that
    makes F.v non-positive whenever the speed exceeds 1e-9. *)
Theorem edt_unlisted_mode_acts_as_drag
  (s : t) (node payload v : Vec2) (cmd : R) :
  wf s -> mode s <> "off"%string -> mode s <> "boost"%string ->
  let r := update s node payload v cmd in
  let rd := update (set_mode s "drag") node payload v cmd in
  snd r = snd rd /\
  I (fst r) = I (fst rd) /\ F (fst r) = F (fst rd) /\
  P_loss (fst r) = P_loss (fst rd) /\ P_orbit (fst r) = P_orbit (fst rd) /\
  P_net (fst r) = P_net (fst rd) /\
  mode (fst r) = mode s /\
  P_net (fst r) = P_loss (fst r) + Rmin 0 (P_orbit (fst r)) /\
  P_orbit (fst r) = dot (F (fst r)) v /\
  (1e-9 < norm v -> dot (F (fst r)) v <= 0).
Proof.
  intros _ Hoff Hboost r rd.
  destruct (update_mode_irrelevant s "drag" node payload v cmd)
    as (E1 & E2 & E3 & E4 & E5 & E6); auto; try discriminate.
  destruct (update_bookkeeping s node payload v cmd)
    as (_ & Hm & _ & _ & Ho & Hn); auto.
  fold r in Hm, Ho, Hn.
  rewrite net_power_not_boost in Hn by auto.
  repeat split; auto.
  intros Hv. unfold r, update.
  apply String.eqb_neq in Hoff. rewrite Hoff.
  destruct (Rlt_dec _ 1e-9); simpl.
  - rewrite dot_vzero_l. lra.
  - rewrite dot_smul. now apply force_sign_not_boost.
Qed.

End EDTFacts.

(* ================================================================== *)
(** * EnergyTracker: the battery ledger *)
(* ================================================================== *)

Section EnergyFacts.

Import EnergyTracker.

Lemma battery_step_range (cap E P dt : R) :
  0 <= cap -> 0 <= battery_step cap E P dt <= cap.
Proof. intros Hc. unfold battery_step. now apply np_clip_bounds. Qed.

Lemma state_of_charge_range (cap E : R) :
  0 < cap -> 0 <= E <= cap -> 0 <= state_of_charge cap E <= 1.
Proof.
  intros Hc HE. unfold state_of_charge.
  destruct (Rgt_dec cap 0); [| lra].
  split.
  - apply Rmult_le_pos; [lra |]. left. now apply Rinv_0_lt_compat.
  - apply Rmult_le_reg_r with cap; [lra |].
    unfold Rdiv. rewrite Rmult_assoc, Rinv_l by lra. lra.
Qed.

Lemma apply_call_capacity (s : t) (c : call) :
  E_batt_capacity (apply_call s c) = E_batt_capacity s.
Proof. reflexivity. Qed.

Lemma apply_call_battery (s : t) (c : call) :
  E_batt_now (apply_call s c) =
  np_clip (E_batt_now s - call_power c * call_dt c) 0 (E_batt_capacity s).
Proof.
  unfold apply_call, update, battery_step, call_power; simpl.
  f_equal. ring.
Qed.

Lemma apply_call_samples (s : t) (c : call) :
  E_batt (apply_call s c) = E_batt s ++ [E_batt_now (apply_call s c)] /\
  SoC (apply_call s c) =
  SoC s ++ [state_of_charge (E_batt_capacity s) (E_batt_now (apply_call s c))].
Proof. split; reflexivity. Qed.

Lemma init_ledger_ok (cap li : R) : 0 < cap -> ledger_ok (init cap li).
Proof.
  intros Hc. unfold ledger_ok, init; simpl.
  repeat split; auto; lra.
Qed.

Lemma apply_call_ledger_ok (s : t) (c : call) :
  ledger_ok s -> ledger_ok (apply_call s c).
Proof.
  intros (Hc & HE & HB & HS).
  assert (Hr : 0 <= E_batt_now (apply_call s c) <= E_batt_capacity s).
  { rewrite apply_call_battery. apply np_clip_bounds. lra. }
  destruct (apply_call_samples s c) as [EB ES].
  unfold ledger_ok. rewrite EB, ES, apply_call_capacity.
  repeat split; try lra; try tauto.
  - apply Forall_app. split; [exact HB |]. now constructor.
  - apply Forall_app. split; [exact HS |].
    constructor; [| constructor]. now apply state_of_charge_range.
Qed.

Lemma apply_calls_ledger_ok (s : t) (calls : list call) :
  ledger_ok s -> ledger_ok (apply_calls s calls).
Proof.
  unfold apply_calls. apply fold_left_invariant.
  intros x c. apply apply_call_ledger_ok.
Qed.

Lemma apply_calls_capacity (s : t) (calls : list call) :
  E_batt_capacity (apply_calls s calls) = E_batt_capacity s.
Proof.
  unfold apply_calls.
  apply (fold_left_invariant
           (fun x => E_batt_capacity x = E_batt_capacity s)); auto.
Qed.

(** Under a constant draw P > 0 the battery after the calls is at most
    what is left of it after [length calls] unclamped steps, or zero. *)
Lemma constant_draw_bound (calls : list call) (s : t) (P dt : R) :
  ledger_ok s -> 0 < P -> 0 < dt ->
  Forall (fun c => call_power c = P /\ call_dt c = dt) calls ->
  E_batt_now (apply_calls s calls) <=
  Rmax 0 (E_batt_now s - INR (List.length calls) * (P * dt)).
Proof.
  intros Hok HP Hdt. revert s Hok.
  induction calls as [| c cs IH]; intros s Hok Hall.
  - simpl. rewrite Rmult_0_l, Rminus_0_r. apply Rmax_r.
  - apply Forall_cons_iff in Hall as [[HcP Hcdt] Hrest].
    change (apply_calls s (c :: cs)) with (apply_calls (apply_call s c) cs).
    eapply Rle_trans; [apply IH; auto using apply_call_ledger_ok |].
    rewrite apply_call_battery, HcP, Hcdt.
    destruct Hok as (Hc & HE & _).
    pose proof (pos_INR (List.length cs)) as Hn.
    change (List.length (c :: cs)) with (S (List.length cs)).
    rewrite S_INR.
    assert (Hstep : np_clip (E_batt_now s - P * dt) 0 (E_batt_capacity s)
                    <= Rmax 0 (E_batt_now s - P * dt)).
    { unfold np_clip. eapply Rle_trans; [apply Rmin_l |].
      rewrite Rmax_comm. apply Rle_refl. }
    assert (Hpd : 0 <= INR (List.length cs) * (P * dt))
      by (apply Rmult_le_pos; [exact Hn | nra]).
    apply Rmax_lub; [apply Rmax_l |].
    destruct (Rle_dec (E_batt_now s - P * dt) 0) as [Hneg | Hpos].
    + rewrite Rmax_left in Hstep by lra.
      eapply Rle_trans; [| apply Rmax_l]. lra.
    + rewrite Rmax_right in Hstep by lra.
      eapply Rle_trans; [| apply Rmax_r]. lra.
Qed.

(** Under a constant generation P < 0 the battery after the calls is at
    least what [length calls] unclamped steps add to it, or the capacity. *)
Lemma constant_generation_bound (calls : list call) (s : t) (P dt : R) :
  ledger_ok s -> P < 0 -> 0 < dt ->
  Forall (fun c => call_power c = P /\ call_dt c = dt) calls ->
  Rmin (E_batt_capacity s)
       (E_batt_now s + INR (List.length calls) * (- P * dt))
  <= E_batt_now (apply_calls s calls).
Proof.
  intros Hok HP Hdt. revert s Hok.
  induction calls as [| c cs IH]; intros s Hok Hall.
  - simpl. rewrite Rmult_0_l, Rplus_0_r. apply Rmin_r.
  - apply Forall_cons_iff in Hall as [[HcP Hcdt] Hrest].
    change (apply_calls s (c :: cs)) with (apply_calls (apply_call s c) cs).
    eapply Rle_trans; [| apply IH; auto using apply_call_ledger_ok].
    rewrite apply_call_capacity, apply_call_battery, HcP, Hcdt.
    destruct Hok as (Hc & HE & _).
    pose proof (pos_INR (List.length cs)) as Hn.
    change (List.length (c :: cs)) with (S (List.length cs)).
    rewrite S_INR.
    assert (Hpd : 0 <= INR (List.length cs) * (- P * dt))
      by (apply Rmult_le_pos; [exact Hn | nra]).
    assert (Hstep : Rmin (E_batt_capacity s) (E_batt_now s - P * dt)
                    <= np_clip (E_batt_now s - P * dt) 0 (E_batt_capacity s)).
    { unfold np_clip. rewrite Rmax_left by nra.
      rewrite Rmin_comm. apply Rle_refl. }
    apply Rmin_glb; [apply Rmin_l |].
    destruct (Rle_dec (E_batt_capacity s) (E_batt_now s - P * dt))
      as [Hfull | Hpart].
    + rewrite Rmin_left in Hstep by lra.
      eapply Rle_trans; [apply Rmin_l |]. lra.
    + rewrite Rmin_right in Hstep by lra.
      eapply Rle_trans; [apply Rmin_r |]. lra.
Qed.

Lemma state_of_charge_pos_capacity (cap E : R) :
  0 < cap -> state_of_charge cap E = E / cap.
Proof.
  intros Hc. unfold state_of_charge. destruct (Rgt_dec cap 0); [auto | lra].
Qed.

Lemma apply_calls_snoc (s : t) (cs : list call) (c : call) :
  apply_calls s (cs ++ [c]) = apply_call (apply_calls s cs) c.
Proof. unfold apply_calls. now rewrite fold_left_app. Qed.

(** After at least one call the last state-of-charge sample is the
    current battery energy over the capacity. *)
Lemma last_SoC_sample (s : t) (calls : list call) (d : R) :
  calls <> [] ->
  last (SoC (apply_calls s calls)) d =
  state_of_charge (E_batt_capacity s) (E_batt_now (apply_calls s calls)).
Proof.
  intros Hne.
  destruct (exists_last Hne) as (cs & c & ->).
  rewrite apply_calls_snoc.
  destruct (apply_call_samples (apply_calls s cs) c) as [_ ES].
  rewrite ES, last_last. now rewrite apply_calls_capacity.
Qed.

Lemma SoC_apply_calls (s : t) (calls : list call) :
  SoC (apply_calls s calls) = SoC s ++ soc_samples s calls.
Proof.
  revert s. induction calls as [| c cs IH]; intros s; simpl.
  - now rewrite app_nil_r.
  - change (apply_calls s (c :: cs)) with (apply_calls (apply_call s c) cs).
    rewrite IH. destruct (apply_call_samples s c) as [_ ES].
    rewrite ES, <- app_assoc. reflexivity.
Qed.

(** Calls that draw (total power > 0, dt >= 0) append state-of-charge
    samples that never rise, starting below the charge they found. *)
Lemma soc_samples_draw (calls : list call) (s : t) :
  ledger_ok s ->
  Forall (fun c => 0 <= call_dt c /\ 0 < call_power c) calls ->
  Sorted (fun a b => b <= a)
         (E_batt_now s / E_batt_capacity s :: soc_samples s calls).
Proof.
  revert s. induction calls as [| c cs IH]; intros s Hok Hall.
  - repeat constructor.
  - apply Forall_cons_iff in Hall as [[Hdt HP] Hrest].
    pose proof (apply_call_ledger_ok s c Hok) as Hok1.
    destruct Hok as (Hc & HE & _).
    change (soc_samples s (c :: cs))
      with (state_of_charge (E_batt_capacity s) (E_batt_now (apply_call s c))
            :: soc_samples (apply_call s c) cs).
    rewrite state_of_charge_pos_capacity by exact Hc.
    constructor; [exact (IH (apply_call s c) Hok1 Hrest) |].
    constructor. rewrite apply_call_battery.
    unfold Rdiv. apply Rmult_le_compat_r.
    + left. now apply Rinv_0_lt_compat.
    + rewrite <- (np_clip_inside (E_batt_now s) 0 (E_batt_capacity s)) at 2
        by exact HE.
      apply np_clip_mono. nra.
Qed.

(** Calls that generate (total power < 0, dt >= 0) append state-of-charge
    samples that never fall. *)
Lemma soc_samples_generate (calls : list call) (s : t) :
  ledger_ok s ->
  Forall (fun c => 0 <= call_dt c /\ call_power c < 0) calls ->
  Sorted (fun a b => a <= b)
         (E_batt_now s / E_batt_capacity s :: soc_samples s calls).
Proof.
  revert s. induction calls as [| c cs IH]; intros s Hok Hall.
  - repeat constructor.
  - apply Forall_cons_iff in Hall as [[Hdt HP] Hrest].
    pose proof (apply_call_ledger_ok s c Hok) as Hok1.
    destruct Hok as (Hc & HE & _).
    change (soc_samples s (c :: cs))
      with (state_of_charge (E_batt_capacity s) (E_batt_now (apply_call s c))
            :: soc_samples (apply_call s c) cs).
    rewrite state_of_charge_pos_capacity by exact Hc.
    constructor; [exact (IH (apply_call s c) Hok1 Hrest) |].
    constructor. rewrite apply_call_battery.
    unfold Rdiv. apply Rmult_le_compat_r.
    + left. now apply Rinv_0_lt_compat.
    + rewrite <- (np_clip_inside (E_batt_now s) 0 (E_batt_capacity s)) at 1
        by exact HE.
      apply np_clip_mono. nra.
Qed.

Lemma archimedean_calls (cap x : R) :
  0 < x -> exists n : nat, cap <= INR n * x.
Proof.
  intros Hx.
  destruct (Rle_dec cap 0) as [Hc | Hc].
  - exists 0%nat. simpl. lra.
  - pose proof (archimed (cap / x)) as [Hup _].
    assert (Hq : 0 < cap / x) by (apply Rdiv_lt_0_compat; lra).
    assert (Hz : (0 <= up (cap / x))%Z).
    { apply le_IZR. lra. }
    exists (Z.to_nat (up (cap / x))).
    rewrite INR_IZR_INZ, Z2Nat.id by exact Hz.
    apply Rmult_lt_compat_r with (r := x) in Hup; [| exact Hx].
    unfold Rdiv in Hup. rewrite Rmult_assoc, Rinv_l, Rmult_1_r in Hup by lra.
    lra.
Qed.

(** C5.  A tracker built with capacity > 0, after any sequence of
    [update] calls (each on a well-shaped tether): the battery energy and
    every battery sample lie in [0, capacity] and every state-of-charge
    sample in [0, 1].  One more call sets the battery to
    clip(battery - (motor power + EDT power) * dt, 0, capacity) and appends
    battery / capacity as state of charge; with dt >= 0 that sample is no
    larger than the state of charge before when the total power is
    positive, and no smaller when it is negative.  Under a constant total
    power P and step dt > 0 the state-of-charge samples the calls append
    are sorted, falling for P > 0 and rising for P < 0; once the calls have
    drawn the capacity (n * P * dt >= capacity) the battery and the state
    of charge are exactly 0, and once they have generated it (P < 0) they
    are exactly the capacity and 1; a number of calls that does so always
    exists. *)
Theorem battery_clamped_and_monotone (cap li : R) (before : list call) :
  0 < cap -> Forall call_ok before ->
  let s := apply_calls (init cap li) before in
  E_batt_capacity s = cap /\
  0 <= E_batt_now s <= cap /\
  Forall (fun e => 0 <= e <= cap) (E_batt s) /\
  Forall (fun x => 0 <= x <= 1) (SoC s) /\
  (before <> [] -> last (SoC s) 0 = E_batt_now s / cap) /\
  (forall c : call,
      call_ok c ->
      let s' := apply_call s c in
      E_batt_now s' =
      np_clip (E_batt_now s - call_power c * call_dt c) 0 cap /\
      E_batt s' = E_batt s ++ [E_batt_now s'] /\
      SoC s' = SoC s ++ [E_batt_now s' / cap] /\
      (0 <= call_dt c -> 0 < call_power c ->
       E_batt_now s' / cap <= E_batt_now s / cap) /\
      (0 <= call_dt c -> call_power c < 0 ->
       E_batt_now s / cap <= E_batt_now s' / cap)) /\
  (forall (calls : list call) (P dt : R),
      0 < dt ->
      Forall (fun c => call_ok c /\ call_power c = P /\ call_dt c = dt)
             calls ->
      let s' := apply_calls s calls in
      SoC s' = SoC s ++ soc_samples s calls /\
      (0 < P ->
       StronglySorted (fun a b => b <= a)
                      (E_batt_now s / cap :: soc_samples s calls) /\
       (cap <= INR (List.length calls) * (P * dt) ->
        E_batt_now s' = 0 /\ last (SoC s') 1 = 0)) /\
      (P < 0 ->
       StronglySorted (fun a b => a <= b)
                      (E_batt_now s / cap :: soc_samples s calls) /\
       (cap <= INR (List.length calls) * (- P * dt) ->
        E_batt_now s' = cap /\ last (SoC s') 0 = 1))) /\
  (forall P dt : R, 0 < dt -> P <> 0 ->
      exists n : nat, cap <= INR n * (Rabs P * dt)).
Proof.
  intros Hcap _ s.
  assert (Hok : ledger_ok s).
  { apply apply_calls_ledger_ok. now apply init_ledger_ok. }
  assert (Hc : E_batt_capacity s = cap).
  { unfold s. now rewrite apply_calls_capacity. }
  destruct Hok as (Hc0 & HE & HB & HS).
  assert (Hok : ledger_ok s) by (unfold ledger_ok; tauto).
  rewrite Hc in HE, HB.
  split; [exact Hc |]. split; [exact HE |]. split; [exact HB |].
  split; [exact HS |]. split; [| split; [| split]].
  - intros Hne. unfold s. rewrite last_SoC_sample by exact Hne.
    simpl. now apply state_of_charge_pos_capacity.
  - intros c _ s'.
    assert (Hnow : E_batt_now s' =
                   np_clip (E_batt_now s - call_power c * call_dt c) 0 cap).
    { unfold s'. now rewrite apply_call_battery, Hc. }
    destruct (apply_call_samples s c) as [EB ES]. fold s' in EB, ES.
    rewrite Hc, state_of_charge_pos_capacity in ES by exact Hcap.
    split; [exact Hnow |]. split; [exact EB |]. split; [exact ES |].
    assert (Hinv : 0 < / cap) by now apply Rinv_0_lt_compat.
    split; intros Hdt HP; unfold Rdiv;
      apply Rmult_le_compat_r; try lra; rewrite Hnow.
    + rewrite <- (np_clip_inside (E_batt_now s) 0 cap) at 2 by exact HE.
      apply np_clip_mono. nra.
    + rewrite <- (np_clip_inside (E_batt_now s) 0 cap) at 1 by exact HE.
      apply np_clip_mono. nra.
  - intros calls P dt Hdt Hall' s'.
    assert (Hall : Forall (fun c => call_power c = P /\ call_dt c = dt)
                          calls).
    { eapply Forall_impl; [| exact Hall']. simpl. tauto. }
    assert (Hok' : ledger_ok s') by now apply apply_calls_ledger_ok.
    destruct Hok' as (_ & HE' & _).
    unfold s' in HE'. rewrite apply_calls_capacity, Hc in HE'. fold s' in HE'.
    split; [apply SoC_apply_calls |].
    split; intros HP; (split; [| intros Hn]).
    + apply Sorted_StronglySorted; [intros x y z Hxy Hyz; lra |].
      rewrite <- Hc. apply soc_samples_draw; [exact Hok |].
      eapply Forall_impl; [| exact Hall]. simpl. intros c [-> ->]. lra.
    + assert (Hne : calls <> []).
      { intros ->. simpl in Hn. lra. }
      pose proof (constant_draw_bound calls s P dt Hok HP Hdt Hall) as Hb.
      fold s' in Hb. rewrite Rmax_left in Hb by lra.
      assert (E0 : E_batt_now s' = 0) by lra.
      split; [exact E0 |].
      unfold s'. rewrite last_SoC_sample by exact Hne.
      fold s'. rewrite Hc, state_of_charge_pos_capacity, E0 by exact Hcap.
      unfold Rdiv. ring.
    + apply Sorted_StronglySorted; [intros x y z Hxy Hyz; lra |].
      rewrite <- Hc. apply soc_samples_generate; [exact Hok |].
      eapply Forall_impl; [| exact Hall]. simpl. intros c [-> ->]. lra.
    + assert (Hne : calls <> []).
      { intros ->. simpl in Hn. lra. }
      pose proof (constant_generation_bound calls s P dt Hok HP Hdt Hall)
        as Hb.
      fold s' in Hb. rewrite Hc, Rmin_left in Hb by lra.
      assert (E1 : E_batt_now s' = cap) by lra.
      split; [exact E1 |].
      unfold s'. rewrite last_SoC_sample by exact Hne.
      fold s'. rewrite Hc, state_of_charge_pos_capacity, E1 by exact Hcap.
      unfold Rdiv. apply Rinv_r. lra.
  - intros P dt Hdt HP. apply archimedean_calls.
    apply Rmult_lt_0_compat; [now apply Rabs_pos_lt | exact Hdt].
Qed.

End EnergyFacts.

(* ================================================================== *)
(** * GLIDEIntegrator: sub-stepping and short runs *)
(* ================================================================== *)

Section IntegratorFacts.

Import GLIDEIntegrator.

Lemma step_control_frame (s : t) (omega_cmd : R) :
  dt (step_control_in_range s omega_cmd) = dt s /\
  max_substep_dt (step_control_in_range s omega_cmd) = max_substep_dt s /\
  energy (step_control_in_range s omega_cmd) = energy s.
Proof.
  unfold step_control_in_range, step_control_after.
  destruct (MotorSystem.update _ _ _ _). repeat split.
Qed.


Lemma build_external_forces_frame (s : t) (current_cmd : R) :
  tether (fst (_build_external_forces s current_cmd)) = tether s /\
  List.length (snd (_build_external_forces s current_cmd)) =
  List.length (DynamicTether.positions (tether s)) /\
  (ElectrodynamicTether.wf (edt s) ->
   ElectrodynamicTether.wf (edt (fst (_build_external_forces s current_cmd)))).
Proof.
  unfold _build_external_forces.
  destruct (DynamicTether.get_payload_state (tether s)) as [pp pv].
  pose proof (edt_update_wf (edt s) (anchor_pos s) pp pv current_cmd) as He.
  destruct (ElectrodynamicTether.update _ _ _ _ _) as [e F_edt]. simpl.
  split; [reflexivity |]. split; [| exact He].
  unfold upd_last. rewrite upd_length.
  apply (fold_left_invariant
           (fun F => List.length F =
                     List.length (DynamicTether.positions (tether s)))).
  - intros F i HF. now rewrite upd_length.
  - apply zeros_like_length.
Qed.

(** The sub-step body keeps the integrator's invariant. *)
Lemma substep_wf (dt_sub current_cmd : R) (s : t) :
  wf s -> wf (substep_in_range dt_sub current_cmd s).
Proof.
  intros [Hwf Hedt]. unfold substep_in_range, substep_after.
  set (s1 := with_tether _ _).
  assert (Hwf1 : DynamicTether.wf (tether s1)).
  { unfold s1; simpl.
    apply compute_internal_forces_wf, anchor_update_wf. exact Hwf. }
  destruct (build_external_forces_frame s1 current_cmd) as (Et & Elen & Ee).
  specialize (Ee Hedt).
  destruct (_build_external_forces s1 current_cmd) as [s2 F_ext].
  simpl in Et, Elen, Ee.
  split; [| exact Ee]. simpl.
  assert (Hwf3 : DynamicTether.wf
                   (DynamicTether.enforce_constraints
                      (DynamicTether.integrate
                         (DynamicTether.add_external_forces (tether s2) F_ext)
                         dt_sub)
                      dt_sub (constraint_iterations s2))).
  { apply enforce_constraints_wf, integrate_wf, add_external_forces_wf.
    - rewrite Et, Elen. apply Hwf1.
    - rewrite Et. exact Hwf1. }
  destruct (Rgt_dec (velocity_limit s2) 0); simpl; [| exact Hwf3].
  destruct Hwf3 as (HN & Hp & Hv & Hf & Hq).
  unfold DynamicTether.wf; simpl. repeat split; auto.
  unfold clamp_velocities.
  destruct (existsb _ _); [rewrite length_map |]; exact Hv.
Qed.

Lemma step_control_wf (s : t) (omega_cmd : R) :
  wf s -> wf (step_control_in_range s omega_cmd).
Proof.
  intros [Hwf Hedt]. unfold step_control_in_range, step_control_after.
  destruct (MotorSystem.update _ _ _ _). split; simpl; [| exact Hedt].
  apply compute_internal_forces_wf, anchor_update_wf. exact Hwf.
Qed.

(** The two places of a step that index row 0: on a well-shaped
    integrator they return, on a tether without rows they raise
    IndexError, and when they return they have done what they do in
    range. *)
Lemma step_control_ok (s : t) (omega_cmd : R) :
  wf s -> step_control s omega_cmd = Ok (step_control_in_range s omega_cmd).
Proof.
  intros [Hwf _]. unfold step_control, step_control_in_range.
  now rewrite (anchor_update_ok _ _ _ Hwf).
Qed.

Lemma step_control_empty (s : t) (omega_cmd : R) :
  DynamicTether.positions (tether s) = [] ->
  step_control s omega_cmd = Raise IndexError.
Proof.
  intros H. unfold step_control. now rewrite (anchor_update_empty _ _ _ H).
Qed.

Lemma step_control_inv (s s1 : t) (omega_cmd : R) :
  step_control s omega_cmd = Ok s1 -> s1 = step_control_in_range s omega_cmd.
Proof.
  unfold step_control, step_control_in_range.
  destruct (DynamicTether.anchor_update _ _ _) as [tth | e] eqn:E; simpl;
    [| discriminate].
  intros [= <-]. now rewrite (anchor_update_inv _ _ _ _ E).
Qed.

Lemma substep_ok (dt_sub current_cmd : R) (s : t) :
  wf s -> substep dt_sub current_cmd s = Ok (substep_in_range dt_sub current_cmd s).
Proof.
  intros [Hwf _]. unfold substep, substep_in_range. cbv zeta.
  rewrite anchor_update_ok; [reflexivity | exact Hwf].
Qed.

Lemma substep_inv (dt_sub current_cmd : R) (s s1 : t) :
  substep dt_sub current_cmd s = Ok s1 ->
  s1 = substep_in_range dt_sub current_cmd s.
Proof.
  unfold substep, substep_in_range. cbv zeta.
  destruct (DynamicTether.anchor_update _ _ _) as [tth | e] eqn:E; simpl;
    [| discriminate].
  intros [= <-]. now rewrite (anchor_update_inv _ _ _ _ E).
Qed.

Lemma substeps_raise (dt_sub current_cmd : R) (l : list nat) (e : exn) :
  fold_left (fun acc _ => st <- acc ;; substep dt_sub current_cmd st)
            l (Raise e) = Raise e.
Proof. induction l as [| b bs IH]; simpl; auto. Qed.

(** The sub-step loop on a well-shaped integrator runs the sub-step once
    per index; and whenever the loop returns, that is what it has done. *)
Lemma substeps_ok (dt_sub current_cmd : R) (l : list nat) (s : t) :
  wf s ->
  fold_left (fun acc _ => st <- acc ;; substep dt_sub current_cmd st)
            l (Ok s) =
  Ok (Nat.iter (List.length l) (substep_in_range dt_sub current_cmd) s).
Proof.
  revert s. induction l as [| b bs IH]; intros s Hwf; [reflexivity |].
  cbn [fold_left bind List.length]. rewrite (substep_ok _ _ _ Hwf).
  rewrite IH by now apply substep_wf.
  now rewrite Nat.iter_succ_r.
Qed.

Lemma substeps_inv (dt_sub current_cmd : R) (l : list nat) (s s' : t) :
  fold_left (fun acc _ => st <- acc ;; substep dt_sub current_cmd st)
            l (Ok s) = Ok s' ->
  s' = Nat.iter (List.length l) (substep_in_range dt_sub current_cmd) s.
Proof.
  revert s. induction l as [| b bs IH]; intros s; [now intros [= <-] |].
  cbn [fold_left bind List.length].
  destruct (substep dt_sub current_cmd s) as [s1 | e] eqn:E.
  - apply substep_inv in E. subst s1. intros H. apply IH in H.
    now rewrite Nat.iter_succ_r.
  - rewrite substeps_raise. discriminate.
Qed.

(** A step on a well-shaped integrator runs the planned number of
    sub-steps of the planned size between the control-rate part and the
    bookkeeping; and whenever a step returns, that is what it has done. *)
Lemma step_runs_plan (s : t) (omega_cmd current_cmd : R) (n : Z) (h : R) :
  wf s ->
  substep_plan (step_control_in_range s omega_cmd) = Ok (n, h) ->
  step s omega_cmd current_cmd =
  Ok (step_bookkeeping
        (Nat.iter (Z.to_nat n) (substep_in_range h current_cmd)
                  (step_control_in_range s omega_cmd))).
Proof.
  intros Hwf Hplan. unfold step.
  rewrite (step_control_ok _ _ Hwf). cbn [bind]. rewrite Hplan. cbn [bind].
  rewrite substeps_ok by now apply step_control_wf.
  cbn [bind]. now rewrite range_length.
Qed.

Lemma step_inv (s s' : t) (omega_cmd current_cmd : R) :
  step s omega_cmd current_cmd = Ok s' ->
  exists (n : Z) (h : R),
    substep_plan (step_control_in_range s omega_cmd) = Ok (n, h) /\
    s' = step_bookkeeping
           (Nat.iter (Z.to_nat n) (substep_in_range h current_cmd)
                     (step_control_in_range s omega_cmd)).
Proof.
  unfold step.
  destruct (step_control s omega_cmd) as [s1 | e] eqn:E1; cbn [bind];
    [| discriminate].
  apply step_control_inv in E1. subst s1.
  destruct (substep_plan _) as [[n h] | e] eqn:Ep; cbn [bind];
    [| discriminate].
  destruct (fold_left _ _ _) as [s2 | e] eqn:Ef; cbn [bind]; [| discriminate].
  intros [= <-]. apply substeps_inv in Ef.
  exists n, h. split; [reflexivity |]. now rewrite Ef, range_length.
Qed.

(** [step] keeps the integrator's invariant. *)
Lemma step_wf (s s' : t) (omega_cmd current_cmd : R) :
  wf s -> step s omega_cmd current_cmd = Ok s' -> wf s'.
Proof.
  intros Hwf Hstep.
  destruct (step_inv _ _ _ _ Hstep) as (n & h & _ & ->).
  assert (H : wf (Nat.iter (Z.to_nat n) (substep_in_range h current_cmd)
                           (step_control_in_range s omega_cmd))).
  { apply iter_invariant.
    - intros x. apply substep_wf.
    - now apply step_control_wf. }
  exact H.
Qed.

(** The sub-step plan: a division by zero exactly for dt = 0. *)
Lemma substep_plan_outcome (s : t) :
  (dt s = 0 -> substep_plan s = Raise ZeroDivisionError) /\
  (dt s <> 0 ->
   exists n : Z, (1 <= n)%Z /\ substep_plan s = Ok (n, dt s / IZR n)).
Proof.
  unfold substep_plan.
  set (dt_sub := if Rgt_dec (max_substep_dt s) 0
                 then py_min (dt s) (max_substep_dt s) else dt s).
  assert (H0 : dt_sub = 0 <-> dt s = 0).
  { unfold dt_sub, py_min.
    destruct (Rgt_dec (max_substep_dt s) 0); [| tauto].
    destruct (Rlt_dec (max_substep_dt s) (dt s)); split; lra. }
  split; intros Hdt; destruct (Req_dec_T dt_sub 0) as [E | E].
  - reflexivity.
  - tauto.
  - tauto.
  - eexists. split; [| reflexivity]. lia.
Qed.

Lemma substep_plan_inv (s : t) (n : Z) (h : R) :
  substep_plan s = Ok (n, h) ->
  dt s <> 0 /\ (1 <= n)%Z /\ h = dt s / IZR n.
Proof.
  intros E. destruct (substep_plan_outcome s) as [H0 H1].
  destruct (Req_dec_T (dt s) 0) as [Hz | Hdt].
  - rewrite (H0 Hz) in E. discriminate E.
  - destruct (H1 Hdt) as (m & Hm & Em). rewrite Em in E.
    injection E as <- <-. tauto.
Qed.

(** A step on a well-shaped integrator with dt <> 0: the plan it follows
    and the state it returns. *)
Lemma step_unfold (s : t) (omega_cmd current_cmd : R) :
  wf s -> dt s <> 0 ->
  exists n : Z,
    (1 <= n)%Z /\
    step s omega_cmd current_cmd =
    Ok (step_bookkeeping
          (Nat.iter (Z.to_nat n) (substep_in_range (dt s / IZR n) current_cmd)
                    (step_control_in_range s omega_cmd))).
Proof.
  intros Hwf Hdt.
  destruct (step_control_frame s omega_cmd) as (Edt & _).
  destruct (substep_plan_outcome (step_control_in_range s omega_cmd))
    as [_ Hplan].
  rewrite Edt in Hplan. destruct (Hplan Hdt) as (n & Hn & E).
  exists n. split; [exact Hn |].
  now apply step_runs_plan.
Qed.

(** Whenever a step returns, dt is not zero and the state is the one
    above, for a count of at least one sub-step. *)
Lemma step_unfold_inv (s s' : t) (omega_cmd current_cmd : R) :
  step s omega_cmd current_cmd = Ok s' ->
  dt s <> 0 /\
  exists n : Z,
    (1 <= n)%Z /\
    s' = step_bookkeeping
           (Nat.iter (Z.to_nat n)
                     (substep_in_range (dt s / IZR n) current_cmd)
                     (step_control_in_range s omega_cmd)).
Proof.
  intros Hstep.
  destruct (step_inv _ _ _ _ Hstep) as (n & h & Hplan & ->).
  destruct (step_control_frame s omega_cmd) as (Edt & _).
  apply substep_plan_inv in Hplan as (Hdt & Hn & ->).
  rewrite Edt in Hdt. split; [exact Hdt |].
  exists n. split; [exact Hn |]. now rewrite Edt.
Qed.

Lemma update_appends_sample (e : EnergyTracker.t) (c : EnergyTracker.call) :
  EnergyTracker.time (EnergyTracker.apply_call e c) <> [] /\
  EnergyTracker.summary (EnergyTracker.apply_call e c) <> [].
Proof.
  assert (H : EnergyTracker.time (EnergyTracker.apply_call e c) <> []).
  { simpl. destruct (EnergyTracker.time e); discriminate. }
  split; [exact H |].
  unfold EnergyTracker.summary.
  destruct (EnergyTracker.time (EnergyTracker.apply_call e c));
    [contradiction | discriminate].
Qed.

Lemma init_ledger_empty (p : params) (s : t) :
  init p = Ok s -> EnergyTracker.time (energy s) = [] /\ dt s = p_dt p.
Proof.
  unfold init.
  destruct (DynamicTether.init _ _ _ _ _ _ _); [| discriminate]. simpl.
  destruct (ElectrodynamicTether.init _ _ _ _ _); [| discriminate]. simpl.
  intros [= <-]. split; reflexivity.
Qed.

(** C10.  [summary] of a tracker whose [update] was never called (no
    sample in the ledger; a fresh tracker is one) is the empty dictionary,
    while after any [update] it is not; so [run] with control step dt > 0
    and a duration below dt does no step (the integrator is returned as it
    was) and returns the empty dictionary when the ledger is empty, as on a
    freshly constructed integrator. *)
Theorem run_shorter_than_one_step :
  (forall e : EnergyTracker.t,
      EnergyTracker.time e = [] -> EnergyTracker.summary e = []) /\
  (forall cap li : R, EnergyTracker.summary (EnergyTracker.init cap li) = []) /\
  (forall (e : EnergyTracker.t) (c : EnergyTracker.call),
      EnergyTracker.summary (EnergyTracker.apply_call e c) <> []) /\
  (forall (s : t) (duration : R) (op cp : option (R -> R)),
      0 < dt s -> duration < dt s ->
      run s duration op cp = Ok (s, EnergyTracker.summary (energy s)) /\
      (EnergyTracker.time (energy s) = [] ->
       run s duration op cp = Ok (s, []))) /\
  (forall (p : params) (s : t) (duration : R) (op cp : option (R -> R)),
      init p = Ok s -> 0 < p_dt p -> duration < p_dt p ->
      run s duration op cp = Ok (s, [])).
Proof.
  assert (Hempty : forall e : EnergyTracker.t,
             EnergyTracker.time e = [] -> EnergyTracker.summary e = []).
  { intros e He. unfold EnergyTracker.summary. now rewrite He. }
  assert (Hrun : forall (s : t) (duration : R) (op cp : option (R -> R)),
             0 < dt s -> duration < dt s ->
             run s duration op cp = Ok (s, EnergyTracker.summary (energy s))).
  { intros s duration op cp Hdt Hlt. unfold run.
    destruct (Req_dec_T (dt s) 0); [lra |].
    assert (Hq : duration / dt s < 1).
    { apply Rmult_lt_reg_r with (dt s); [exact Hdt |].
      unfold Rdiv. rewrite Rmult_assoc, Rinv_l by lra. lra. }
    pose proof (py_int_below_one _ Hq) as Hsteps.
    unfold range. replace (Z.to_nat _) with 0%nat by lia.
    reflexivity. }
  split; [exact Hempty |].
  split; [intros cap li; now apply Hempty |].
  split; [intros e c; apply update_appends_sample |].
  split.
  - intros s duration op cp Hdt Hlt.
    split; [now apply Hrun |].
    intros He. rewrite Hrun by assumption. now rewrite Hempty.
  - intros p s duration op cp Hinit Hdt Hlt.
    destruct (init_ledger_empty p s Hinit) as [He Ed].
    rewrite Hrun by (rewrite Ed; assumption). now rewrite Hempty.
Qed.

End IntegratorFacts.

(* ================================================================== *)
(** * Configuration errors *)
(* ================================================================== *)

Section ConfigFacts.

Import Config.

(** C8 as stated fails.  A preset name is matched after lower-casing and
    stripping: the name "ENGINEERING" is none of the three preset names,
    and [load_config] returns the engineering preset for it. *)
Lemma load_config_accepts_respelled_preset :
  "ENGINEERING"%string <> "local_demo"%string /\
  "ENGINEERING"%string <> "orbital_test"%string /\
  "ENGINEERING"%string <> "engineering"%string /\
  load_config "ENGINEERING" = Ok (dict_update base_cfg engineering_cfg) /\
  ~ raises (load_config "ENGINEERING").
Proof.
  assert (H : load_config "ENGINEERING" =
              Ok (dict_update base_cfg engineering_cfg)) by reflexivity.
  split; [discriminate |]. split; [discriminate |].
  split; [discriminate |]. split; [exact H |].
  intros [e He]. rewrite H in He. discriminate.
Qed.

Lemma load_config_known (name : string) :
  normalize name = "local_demo"%string \/
  normalize name = "orbital_test"%string \/
  normalize name = "engineering"%string ->
  exists cfg, load_config name = Ok cfg.
Proof.
  unfold load_config. intros [-> | [-> | ->]]; simpl; eauto.
Qed.

Lemma load_config_unknown (name : string) :
  normalize name <> "local_demo"%string ->
  normalize name <> "orbital_test"%string ->
  normalize name <> "engineering"%string ->
  load_config name =
  Raise (ValueError ("Unknown configuration mode: " ++ normalize name)).
Proof.
  intros H1 H2 H3. apply String.eqb_neq in H1, H2, H3.
  unfold load_config. now rewrite H1, H2, H3.
Qed.

Lemma edt_init_bad_length (L_ : R) (B : list R) (R_ I_ : R) (m : string) :
  List.length B <> 2%nat -> List.length B <> 3%nat ->
  ElectrodynamicTether.init L_ B R_ I_ m =
  Raise (ValueError "B_vec must be length 2 or 3").
Proof.
  intros H2 H3. apply Nat.eqb_neq in H2, H3.
  unfold ElectrodynamicTether.init. now rewrite H2, H3.
Qed.

Lemma edt_init_good_length (L_ : R) (B : list R) (R_ I_ : R) (m : string) :
  List.length B = 2%nat \/ List.length B = 3%nat ->
  exists e, ElectrodynamicTether.init L_ B R_ I_ m = Ok e /\
            List.length (ElectrodynamicTether.B_vec e) = 3%nat.
Proof.
  unfold ElectrodynamicTether.init. intros [H | H]; rewrite H; simpl.
  - eexists; split; reflexivity.
  - eexists; split; [reflexivity | exact H].
Qed.

(** C8, amended.  For preset names of characters with code points below
    256: [load_config] raises ValueError for every name whose lower-cased,
    stripped form (as [str.lower] and [str.strip] compute it, which also
    remove the next-line and no-break-space characters and lower the
    Latin-1 capitals) is none of local_demo, orbital_test and engineering,
    and returns a configuration for every other name; constructing an
    ElectrodynamicTether with a field vector whose length is neither 2 nor
    3 raises ValueError, and succeeds otherwise. *)
Theorem config_errors :
  (forall name : string,
      normalize name <> "local_demo"%string ->
      normalize name <> "orbital_test"%string ->
      normalize name <> "engineering"%string ->
      load_config name =
      Raise (ValueError ("Unknown configuration mode: " ++ normalize name)) /\
      raises (load_config name)) /\
  (forall name : string,
      normalize name = "local_demo"%string \/
      normalize name = "orbital_test"%string \/
      normalize name = "engineering"%string ->
      exists cfg, load_config name = Ok cfg) /\
  (forall (L_ : R) (B : list R) (R_ I_ : R) (m : string),
      List.length B <> 2%nat -> List.length B <> 3%nat ->
      ElectrodynamicTether.init L_ B R_ I_ m =
      Raise (ValueError "B_vec must be length 2 or 3") /\
      raises (ElectrodynamicTether.init L_ B R_ I_ m)) /\
  (forall (L_ : R) (B : list R) (R_ I_ : R) (m : string),
      List.length B = 2%nat \/ List.length B = 3%nat ->
      exists e, ElectrodynamicTether.init L_ B R_ I_ m = Ok e).
Proof.
  repeat split.
  - now apply load_config_unknown.
  - eexists. now apply load_config_unknown.
  - apply load_config_known.
  - now apply edt_init_bad_length.
  - eexists. now apply edt_init_bad_length.
  - intros L_ B R_ I_ m H.
    destruct (edt_init_good_length L_ B R_ I_ m H) as (e & He & _). eauto.
Qed.

Lemma tether_init_ok (N_ : Z) (L0_ E d rho dr decay : R) :
  (1 <= N_)%Z -> L0_ <> 0 ->
  exists s, DynamicTether.init N_ L0_ E d rho dr decay = Ok s.
Proof.
  intros HN HL. unfold DynamicTether.init.
  destruct (Z.eqb_spec N_ 0); [lia |].
  assert (HNr : 0 < IZR N_) by (apply IZR_lt; lia).
  destruct (Req_dec_T _ 0) as [E0 | _].
  - exfalso. apply HL.
    apply (Rmult_eq_compat_r (IZR N_)) in E0.
    unfold Rdiv in E0. rewrite Rmult_assoc, Rinv_l in E0 by lra. lra.
  - destruct (Z.ltb_spec (N_ + 1) 0); [lia |]. eauto.
Qed.

(** What [__init__] of the integrator builds from parameters with at
    least one segment, a non-zero rest length and a field vector of two or
    three components. *)
Lemma integrator_init_ok (p : GLIDEIntegrator.params) :
  (1 <= GLIDEIntegrator.p_N p)%Z ->
  GLIDEIntegrator.p_L0 p <> 0 ->
  List.length (GLIDEIntegrator.p_B_vec p) = 2%nat \/
  List.length (GLIDEIntegrator.p_B_vec p) = 3%nat ->
  exists s,
    GLIDEIntegrator.init p = Ok s /\
    GLIDEIntegrator.wf s /\
    GLIDEIntegrator.dt s = GLIDEIntegrator.p_dt p /\
    GLIDEIntegrator.max_substep_dt s =
    GLIDEIntegrator.p_tether_max_substep_dt p /\
    MotorSystem.eta (GLIDEIntegrator.motor s) = GLIDEIntegrator.p_eta p /\
    EnergyTracker.E_batt_capacity (GLIDEIntegrator.energy s) =
    GLIDEIntegrator.p_battery_capacity_J p /\
    EnergyTracker.time (GLIDEIntegrator.energy s) = [].
Proof.
  intros HN HL HB.
  destruct (tether_init_ok (GLIDEIntegrator.p_N p) (GLIDEIntegrator.p_L0 p)
              (GLIDEIntegrator.p_E p) (GLIDEIntegrator.p_d p)
              (GLIDEIntegrator.p_rho_l p)
              (GLIDEIntegrator.p_tether_damping_ratio p)
              (GLIDEIntegrator.p_numerical_vel_decay_per_s p) HN HL)
    as [tth Ht].
  destruct (edt_init_good_length (GLIDEIntegrator.p_EDT_L p)
              (GLIDEIntegrator.p_B_vec p) (GLIDEIntegrator.p_EDT_R p)
              (GLIDEIntegrator.p_EDT_Imax p) (GLIDEIntegrator.p_EDT_mode p) HB)
    as (e & He & Hlen).
  unfold GLIDEIntegrator.init. rewrite Ht. simpl. rewrite He. simpl.
  eexists. split; [reflexivity |]. simpl.
  destruct (init_wf _ _ _ _ _ _ _ _ HN Ht) as [Hwf _].
  split; [split; [exact Hwf | exact Hlen] |]. repeat split.
Qed.

(** Every preset that [load_config] returns builds an integrator, and
    that integrator meets what the theorems on [step], [run], the motor and
    the battery ask for: the integrator's invariant, a positive control step and
    sub-step ceiling, an efficiency strictly between 0 and 1, a positive
    battery capacity, an empty ledger. *)
Lemma preset_integrator (name : string) (cfg : dict) :
  load_config name = Ok cfg ->
  exists p s,
    GLIDEIntegrator.read_params cfg = Some p /\
    GLIDEIntegrator.init p = Ok s /\
    GLIDEIntegrator.wf s /\
    0 < GLIDEIntegrator.dt s /\
    0 < GLIDEIntegrator.max_substep_dt s /\
    0 < MotorSystem.eta (GLIDEIntegrator.motor s) < 1 /\
    0 < EnergyTracker.E_batt_capacity (GLIDEIntegrator.energy s) /\
    EnergyTracker.time (GLIDEIntegrator.energy s) = [].
Proof.
  unfold load_config.
  destruct (normalize name =? "orbital_test")%string;
    [| destruct (normalize name =? "engineering")%string;
       [| destruct (normalize name =? "local_demo")%string;
          [| discriminate]]];
    intros [= <-];
    (eexists; cbn [GLIDEIntegrator.read_params]; cbn;
     match goal with
     | |- exists s, Some ?p = Some _ /\ _ =>
         destruct (integrator_init_ok p)
           as (s & Hs & Hwf & Hdt & Hmax & Heta & Hcap & Htime);
         [cbn; lia | cbn; lra | right; reflexivity |];
         exists s; cbn in Hdt, Hmax, Heta, Hcap;
         rewrite Hdt, Hmax, Heta, Hcap;
         split; [reflexivity |]; split; [exact Hs |];
         split; [exact Hwf |]; repeat split; auto; lra
     end).
Qed.

End ConfigFacts.

(* ================================================================== *)
(** * The NaN guard on binary64 arrays *)
(* ================================================================== *)

Section Float64Facts.

Import Float64.

Lemma nan_to_num1_not_nan (x : PrimFloat.float) :
  isnan (nan_to_num1 x) = false.
Proof.
  unfold nan_to_num1.
  destruct (isnan x) eqn:Hn; [reflexivity |].
  destruct (isposinf x); [reflexivity |].
  destruct (isneginf x); [reflexivity | exact Hn].
Qed.

Lemma nan_to_num1_of_nan (x : PrimFloat.float) :
  isnan x = true -> nan_to_num1 x = PrimFloat.zero.
Proof. intros Hn. unfold nan_to_num1. now rewrite Hn. Qed.

Lemma nan_to_num1_of_finite (x : PrimFloat.float) :
  isfinite x = true -> nan_to_num1 x = x.
Proof.
  unfold isfinite, isinf, nan_to_num1. intros H.
  apply andb_true_iff in H as [Hn Hi].
  apply negb_true_iff in Hn, Hi.
  apply orb_false_iff in Hi as [Hp Hm].
  now rewrite Hn, Hp, Hm.
Qed.

Lemma entries_nan_to_num (a : array2) :
  entries (nan_to_num a) = map nan_to_num1 (entries a).
Proof.
  unfold entries, nan_to_num.
  induction a as [| r rs IH]; simpl; [reflexivity | now rewrite IH].
Qed.

Lemma isnan_any_false (a : array2) :
  isnan_any a = false -> Forall (fun x => isnan x = false) (entries a).
Proof.
  unfold isnan_any, entries.
  induction a as [| r rs IH]; simpl; intros H; [constructor |].
  apply orb_false_iff in H as [Hr Hrs].
  apply orb_false_iff in Hr as [H1 H2].
  constructor; [exact H1 |]. constructor; [exact H2 |]. now apply IH.
Qed.

(** C2 as stated fails.  An infinite velocity in arrays that hold no NaN
    goes through the guard untouched: it is not finite and it is not reset
    to zero.  Next to a NaN, an infinite entry becomes the largest finite
    value of its sign, not zero. *)
Lemma infinite_entry_survives_sanitize :
  let positions := [(PrimFloat.zero, PrimFloat.zero);
                    (PrimFloat.zero, PrimFloat.one)] in
  let velocities := [(PrimFloat.zero, PrimFloat.zero);
                     (PrimFloat.zero, PrimFloat.infinity)] in
  let broken := [(PrimFloat.zero, PrimFloat.infinity);
                 (PrimFloat.nan, PrimFloat.nan)] in
  isfinite PrimFloat.infinity = false /\
  PrimFloat.infinity <> PrimFloat.zero /\
  max_float <> PrimFloat.zero /\
  sanitize positions velocities = (positions, velocities) /\
  entries (snd (sanitize positions velocities)) =
  [PrimFloat.zero; PrimFloat.zero; PrimFloat.zero; PrimFloat.infinity] /\
  entries (fst (sanitize broken velocities)) =
  [PrimFloat.zero; max_float; PrimFloat.zero; PrimFloat.zero] /\
  entries (snd (sanitize broken velocities)) =
  [PrimFloat.zero; PrimFloat.zero; PrimFloat.zero; max_float].
Proof.
  split; [reflexivity |]. split; [| split; [| repeat split]].
  - intros H.
    assert (E : isposinf PrimFloat.infinity = isposinf PrimFloat.zero)
      by now rewrite H.
    vm_compute in E. discriminate.
  - intros H.
    assert (E : PrimFloat.eqb max_float max_float =
                PrimFloat.eqb max_float PrimFloat.zero)
      by now rewrite H at 2.
    vm_compute in E. discriminate.
Qed.

(** C2, amended.  After the guard that ends every sub-step no entry of
    the positions and velocities is NaN: every entry that was NaN is zero
    and every finite entry is unchanged.  When either array held a NaN,
    each entry went through [nan_to_num] (an infinity became the largest
    finite value of its sign); when none did, both arrays are unchanged, an
    infinite entry included. *)
Theorem sanitize_clears_nan (positions velocities : array2) :
  let before := entries positions ++ entries velocities in
  let after := entries (fst (sanitize positions velocities)) ++
               entries (snd (sanitize positions velocities)) in
  Forall (fun y => isnan y = false) after /\
  Forall2 (fun x y => (isnan x = true -> y = PrimFloat.zero) /\
                      (isfinite x = true -> y = x))
          before after /\
  (isnan_any positions || isnan_any velocities = true ->
   after = map nan_to_num1 before) /\
  (isnan_any positions || isnan_any velocities = false ->
   sanitize positions velocities = (positions, velocities)).
Proof.
  intros before after. unfold after, sanitize.
  destruct (isnan_any positions || isnan_any velocities) eqn:Hany; simpl.
  - rewrite !entries_nan_to_num, <- map_app. fold before.
    repeat split; try discriminate.
    + apply Forall_map, Forall_forall. intros x _.
      apply nan_to_num1_not_nan.
    + induction before as [| x xs IH]; simpl; constructor; auto.
      split; [apply nan_to_num1_of_nan | apply nan_to_num1_of_finite].
  - apply orb_false_iff in Hany as [Hp Hv].
    repeat split; try discriminate.
    + apply Forall_app. split; now apply isnan_any_false.
    + fold before.
      assert (Hb : Forall (fun x => isnan x = false) before).
      { apply Forall_app. split; now apply isnan_any_false. }
      induction Hb as [| x xs Hx _ IH]; constructor; auto.
      split; [congruence | reflexivity].
Qed.

(** ** The sub-step count on binary64 floats *)

#[local] Set Warnings "-inexact-float".
Import PrimFloat.

Lemma floor_div_bounds (a D : Z) :
  (0 < D)%Z -> IZR (a / D) <= IZR a / IZR D < IZR (a / D) + 1.
Proof.
  intros HD.
  pose proof (Z.mul_div_le a D HD) as H1.
  pose proof (Z.mul_succ_div_gt a D HD) as H2.
  assert (HDR : 0 < IZR D) by (apply IZR_lt; lia).
  apply IZR_le in H1. apply IZR_lt in H2.
  rewrite mult_IZR in H1, H2. rewrite succ_IZR in H2.
  split.
  - apply Rmult_le_reg_r with (IZR D); [lra |].
    unfold Rdiv. rewrite Rmult_assoc, Rinv_l by lra. lra.
  - apply Rmult_lt_reg_r with (IZR D); [lra |].
    unfold Rdiv. rewrite Rmult_assoc, Rinv_l by lra. lra.
Qed.


(** [int(x)] is the exact value of [x] truncated toward zero. *)
Lemma to_int_value (x : PrimFloat.float) (n : Z) :
  to_int x = Ok n -> n = py_int (to_R x).
Proof.
  unfold to_int, to_R, py_int.
  destruct (FloatOps.Prim2SF x) as [s | s | | s m e]; try discriminate.
  - intros [= <-]. destruct (Rle_dec 0 0); [| lra].
    symmetry. apply Zfloor_eq. lra.
  - intros [= <-].
    assert (Hm : 0 < IZR (Z.pos m)) by (apply IZR_lt; lia).
    destruct (0 <=? e)%Z eqn:He.
    + apply Z.leb_le in He. rewrite !Z.shiftl_mul_pow2 by exact He.
      assert (Hp : 0 < IZR (Z.pos m * 2 ^ e)).
      { apply IZR_lt. apply Z.mul_pos_pos; [lia |].
        apply Z.pow_pos_nonneg; lia. }
      destruct s.
      * destruct (Rle_dec 0 _); [lra |].
        symmetry. apply Zceil_eq. rewrite opp_IZR. lra.
      * destruct (Rle_dec 0 _); [| lra].
        symmetry. apply Zfloor_eq. lra.
    + apply Z.leb_gt in He. rewrite !Z.shiftl_div_pow2 by lia.
      assert (HD : (0 < 2 ^ (- e))%Z) by (apply Z.pow_pos_nonneg; lia).
      assert (HDR : 0 < IZR (2 ^ (- e))) by (apply IZR_lt; exact HD).
      pose proof (floor_div_bounds (Z.pos m) _ HD) as H.
      assert (Hq : 0 < IZR (Z.pos m) / IZR (2 ^ (- e)))
        by (apply Rdiv_lt_0_compat; lra).
      destruct s.
      * destruct (Rle_dec 0 _); [lra |].
        symmetry. apply Zceil_eq. rewrite opp_IZR. lra.
      * destruct (Rle_dec 0 _); [| lra].
        symmetry. apply Zfloor_eq. lra.
Qed.






(** ** The step count of [run] on binary64 floats *)

(** Whenever [int(duration / self.dt)] is taken, it is the binary64
    quotient, at its exact value, truncated toward zero. *)
Lemma run_steps_value (duration dt : PrimFloat.float) (n : Z) :
  run_steps duration dt = Ok n ->
  n = py_int (to_R (PrimFloat.div duration dt)).
Proof.
  unfold run_steps. destruct (PrimFloat.eqb dt PrimFloat.zero);
    [discriminate |]. apply to_int_value.
Qed.

(** [main] runs 60 s: 1200 steps at the dt of orbital_test, 12000 at the
    dt of the other presets, as with the exact quotient.  A run of 0.15 s
    at dt = 0.05 takes 2 steps, the binary64 quotient being
    2.9999999999999996, where int(0.15 / 0.05) is 3 for the exact one. *)
Lemma run_steps_examples :
  run_steps main_duration dt_orbital_test = Ok 1200%Z /\
  run_steps main_duration dt_engineering = Ok 12000%Z /\
  dt_orbital_test = 0.05%float /\ dt_engineering = 0.005%float /\
  run_steps 0.15 0.05 = Ok 2%Z /\
  py_int (0.15 / 0.05) = 3%Z /\
  run_steps 1 0 = Raise ZeroDivisionError.
Proof.
  repeat (split; [vm_compute; reflexivity |]).
  split; [| vm_compute; reflexivity].
  unfold py_int. destruct (Rle_dec 0 (0.15 / 0.05)) as [_ | H]; [| lra].
  apply Zfloor_eq. lra.
Qed.

End Float64Facts.

(* ================================================================== *)
(** * The theorems at concrete inputs *)
(* ================================================================== *)

Section Instances.

Import Examples.

Lemma norm_eq (a : Vec2) (r : R) :
  0 <= r -> fst a * fst a + snd a * snd a = r * r -> norm a = r.
Proof.
  intros Hr E. unfold norm. rewrite E. now apply sqrt_square.
Qed.

Lemma tether1_wf : DynamicTether.wf tether1.
Proof. unfold DynamicTether.wf; simpl. repeat split; lia. Qed.

Lemma tether_slack_wf : DynamicTether.wf tether_slack.
Proof. unfold DynamicTether.wf; simpl. repeat split; lia. Qed.

(** The stretched one-segment tether, integrated over dt = 0.01 and then
    constrained with two iterations: [integrate] leaves the anchor at its
    stored previous position, so the anchor is where it was before the
    constraint call and the payload's velocity is its displacement since
    [integrate] over dt. *)
Lemma enforce_constraints_anchor_and_velocity_witness :
  let s := DynamicTether.integrate tether1 0.01 in
  let s' := DynamicTether.enforce_constraints s 0.01 2 in
  row 0 (DynamicTether.positions s') = row 0 (DynamicTether.positions s) /\
  row 1 (DynamicTether.velocities s') =
  (row 1 (DynamicTether.positions s') -v row 1 (DynamicTether._pos_prev s))
  /v 0.01.
Proof.
  intros s s'.
  destruct (enforce_constraints_anchor_and_velocity s 0.01 2)
    as (Ha & _ & Hv).
  - apply integrate_wf. exact tether1_wf.
  - lra.
  - lia.
  - apply integrate_anchor_prev. lra.
  - split; [exact Ha |]. apply (Hv 1%nat).
    assert (HN : DynamicTether.N s = 1%Z).
    { unfold s, DynamicTether.integrate.
      destruct (Rle_dec 0.01 0); reflexivity. }
    rewrite HN. simpl. lia.
Defined.

(** The stretched segment carries k * (12 - 10) = 200; the compressed one
    carries zero. *)
Lemma tension_profile_per_segment_witness :
  List.length (DynamicTether.get_tension_profile tether1) = 1%nat /\
  nth 0 (DynamicTether.get_tension_profile tether1) 0 = 200 /\
  0 <= nth 0 (DynamicTether.get_tension_profile tether1) 0 /\
  nth 0 (DynamicTether.get_tension_profile tether_slack) 0 = 0.
Proof.
  destruct (tension_profile_per_segment tether1 tether1_wf) as [Hlen H1].
  destruct (tension_profile_per_segment tether_slack tether_slack_wf)
    as [_ H2].
  destruct (H1 0%nat) as (HT & _ & Hpos); [simpl; lia |].
  destruct (H2 0%nat) as (_ & Hzero & _); [simpl; lia |].
  assert (L1 : norm (row 1 (DynamicTether.positions tether1) -v
                     row 0 (DynamicTether.positions tether1)) = 12).
  { apply norm_eq; simpl; lra. }
  assert (L2 : norm (row 1 (DynamicTether.positions tether_slack) -v
                     row 0 (DynamicTether.positions tether_slack)) = 8).
  { apply norm_eq; simpl; lra. }
  split; [exact Hlen |]. split; [| split].
  - rewrite HT, L1. simpl. rewrite Rmax_right by lra. lra.
  - apply Hpos. simpl. lra.
  - apply Hzero. rewrite L2. simpl. lra.
Defined.

(** The motor at rest commanded to 1 rad/s for 0.01 s motors at 0.5 W and
    draws more; the motor spinning at 1 rad/s commanded to -1 rad/s brakes
    and returns less than the mechanical power it takes. *)
Lemma motor_efficiency_asymmetry_witness :
  let m := fst (MotorSystem.update motor_rest 0.01 0 1) in
  let b := fst (MotorSystem.update motor_spinning 0.01 0 (-1)) in
  (MotorSystem.P_mech m = 0.5 /\
   MotorSystem.P_elec m = 0.5 / 0.87 /\
   MotorSystem.P_mech m < MotorSystem.P_elec m) /\
  (MotorSystem.P_mech b < 0 /\
   MotorSystem.P_elec b = MotorSystem.P_mech b * 0.87 /\
   Rabs (MotorSystem.P_elec b) < Rabs (MotorSystem.P_mech b)).
Proof.
  intros m b.
  destruct (motor_efficiency_asymmetry motor_rest 0.01 0 1)
    as (_ & _ & Hm1 & _ & Hm2 & _); [simpl; lra |].
  destruct (motor_efficiency_asymmetry motor_spinning 0.01 0 (-1))
    as (_ & _ & _ & Hb1 & _ & Hb2); [simpl; lra |].
  fold m in Hm1, Hm2. fold b in Hb1, Hb2.
  assert (Pm : MotorSystem.P_mech m = 0.5).
  { unfold m; simpl.
    rewrite (np_clip_inside (2 * (1 - 0))) by lra.
    rewrite (np_clip_inside ((2 * (1 - 0) - 0 * 0.25 - 0.02 * 0) / 0.08))
      by lra.
    rewrite np_clip_inside by lra. lra. }
  assert (Pb : MotorSystem.P_mech b < 0).
  { unfold b; simpl.
    rewrite (np_clip_inside (2 * (-1 - 1))) by lra.
    rewrite (np_clip_inside ((2 * (-1 - 1) - 0 * 0.25 - 0.02 * 1) / 0.08))
      by lra.
    rewrite np_clip_inside by lra. lra. }
  split; [split; [| split] | split; [| split]].
  - exact Pm.
  - rewrite Hm1 by lra. now rewrite Pm.
  - apply Hm2. lra.
  - exact Pb.
  - now apply Hb1.
  - now apply Hb2.
Defined.

(** A payload one unit above the anchor, moving at 10 along x, full
    current: the boost actuator books 1 + 10 and the drag actuator 1 - 10. *)
Lemma edt_power_sign_contract_witness :
  let b := fst (ElectrodynamicTether.update (edt_in_mode "boost")
                  (0, 0) (0, 1) (10, 0) 1) in
  let d := fst (ElectrodynamicTether.update (edt_in_mode "drag")
                  (0, 0) (0, 1) (10, 0) 1) in
  (ElectrodynamicTether.P_loss b = 1 /\
   ElectrodynamicTether.P_loss b <= ElectrodynamicTether.P_net b) /\
  (ElectrodynamicTether.P_loss d = 1 /\
   ElectrodynamicTether.P_net d =
   1 + Rmin 0 (dot (ElectrodynamicTether.F d) (10, 0))).
Proof.
  intros b d.
  destruct edt_power_sign_contract as [H _].
  destruct (H (edt_in_mode "boost") (0, 0) (0, 1) (10, 0) 1 eq_refl)
    as [Hb _].
  destruct (H (edt_in_mode "drag") (0, 0) (0, 1) (10, 0) 1 eq_refl)
    as [_ Hd].
  destruct (Hb eq_refl) as (Hbl & _ & _ & Hbn).
  destruct (Hd eq_refl) as (Hdl & Hdn & _ & _).
  fold b in Hbl, Hbn. fold d in Hdl, Hdn.
  assert (Ib : ElectrodynamicTether.I b = 1).
  { unfold b, ElectrodynamicTether.update; simpl.
    destruct (Rlt_dec _ 1e-9); simpl; rewrite np_clip_inside; lra. }
  assert (Id : ElectrodynamicTether.I d = 1).
  { unfold d, ElectrodynamicTether.update; simpl.
    destruct (Rlt_dec _ 1e-9); simpl; rewrite np_clip_inside; lra. }
  rewrite Ib in Hbl. rewrite Id in Hdl. simpl in Hbl, Hdl.
  assert (Lb : ElectrodynamicTether.P_loss b = 1) by lra.
  assert (Ld : ElectrodynamicTether.P_loss d = 1) by lra.
  split; split; auto. now rewrite Hdn, Ld.
Defined.

(** An actuator whose stored mode is "reverse" (not a listed mode) acts
    on a moving payload as the drag actuator does, and brakes it. *)
Lemma edt_unlisted_mode_acts_as_drag_witness :
  let r := ElectrodynamicTether.update (edt_in_mode "reverse")
             (0, 0) (0, 1) (10, 0) 1 in
  let rd := ElectrodynamicTether.update
              (ElectrodynamicTether.set_mode (edt_in_mode "reverse") "drag")
              (0, 0) (0, 1) (10, 0) 1 in
  snd r = snd rd /\
  ElectrodynamicTether.P_net (fst r) = ElectrodynamicTether.P_net (fst rd) /\
  dot (ElectrodynamicTether.F (fst r)) (10, 0) <= 0.
Proof.
  intros r rd.
  destruct (edt_unlisted_mode_acts_as_drag (edt_in_mode "reverse")
              (0, 0) (0, 1) (10, 0) 1)
    as (HF & _ & _ & _ & _ & HP & _ & _ & _ & Hsign);
    [reflexivity | discriminate | discriminate |].
  split; [exact HF |]. split; [exact HP |].
  apply Hsign. rewrite (norm_x_axis 10) by lra. lra.
Defined.

(** A 10 J battery: two calls that each draw 5 W for 1 s empty it
    exactly, and from the full battery two calls that each return 5 W leave
    it full; a first draw does not raise the state of charge. *)
Lemma battery_clamped_and_monotone_witness :
  EnergyTracker.E_batt_now
    (EnergyTracker.apply_calls (EnergyTracker.init 10 0)
                               [draw_call; draw_call]) = 0 /\
  last (EnergyTracker.SoC
          (EnergyTracker.apply_calls (EnergyTracker.init 10 0)
                                     [draw_call; draw_call])) 1 = 0 /\
  EnergyTracker.E_batt_now
    (EnergyTracker.apply_calls (EnergyTracker.init 10 0)
                               [charge_call; charge_call]) = 10 /\
  EnergyTracker.E_batt_now
    (EnergyTracker.apply_call (EnergyTracker.init 10 0) draw_call) / 10 <=
  EnergyTracker.E_batt_now (EnergyTracker.init 10 0) / 10.
Proof.
  assert (Hd : EnergyTracker.call_ok draw_call) by exact tether1_wf.
  assert (Hc : EnergyTracker.call_ok charge_call) by exact tether1_wf.
  destruct (battery_clamped_and_monotone 10 0 [])
    as (_ & _ & _ & _ & _ & Hcall & Hconst & _); [lra | constructor |].
  simpl in Hcall, Hconst.
  assert (Hd5 : EnergyTracker.call_ok draw_call /\
                EnergyTracker.call_power draw_call = 5 /\
                EnergyTracker.call_dt draw_call = 1).
  { split; [exact Hd |]. unfold EnergyTracker.call_power; simpl.
    split; lra. }
  assert (Hc5 : EnergyTracker.call_ok charge_call /\
                EnergyTracker.call_power charge_call = -5 /\
                EnergyTracker.call_dt charge_call = 1).
  { split; [exact Hc |]. unfold EnergyTracker.call_power; simpl.
    split; lra. }
  destruct (Hconst [draw_call; draw_call] 5 1) as (_ & Hdraw & _); [lra | |].
  { repeat (apply Forall_cons; [exact Hd5 |]). apply Forall_nil. }
  destruct (Hconst [charge_call; charge_call] (-5) 1) as (_ & _ & Hcharge);
    [lra | |].
  { repeat (apply Forall_cons; [exact Hc5 |]). apply Forall_nil. }
  destruct Hdraw as [_ Hdraw]; [lra |].
  destruct Hcharge as [_ Hcharge]; [lra |].
  destruct Hdraw as [E0 S0]; [simpl; lra |].
  destruct Hcharge as [E1 _]; [simpl; lra |].
  destruct (Hcall draw_call Hd) as (_ & _ & _ & Hmono & _).
  repeat split; auto.
  apply Hmono; unfold EnergyTracker.call_power; simpl; lra.
Defined.

(** The integrator before its first step, run for 0.01 s at a control
    step of 0.05 s: no step, and the empty dictionary. *)
Lemma run_shorter_than_one_step_witness :
  GLIDEIntegrator.run sim1 0.01 None None = Ok (sim1, []).
Proof.
  destruct run_shorter_than_one_step as (_ & _ & _ & Hrun & _).
  destruct (Hrun sim1 0.01 None None) as [_ Hempty];
    [simpl; lra | simpl; lra |].
  apply Hempty. reflexivity.
Defined.

(** The name "mars" is refused; the name " Local_Demo " is accepted, and
    so is "engineering" behind a no-break space (code point 160); a field
    vector of one component is refused, one of two is accepted. *)
Lemma config_errors_witness :
  raises (Config.load_config "mars") /\
  (exists cfg, Config.load_config " Local_Demo " = Ok cfg) /\
  (exists cfg,
      Config.load_config (String (ascii_of_nat 160) "engineering") = Ok cfg) /\
  raises (ElectrodynamicTether.init 100 [3.1e-5] 50 2.5 "off") /\
  (exists e, ElectrodynamicTether.init 100 [0; 3.1e-5] 50 2.5 "off" = Ok e).
Proof.
  destruct config_errors as (Hbad & Hgood & Hvec & Hok).
  split; [| split; [| split; [| split]]].
  - apply (Hbad "mars"%string);
      intros H; vm_compute in H; discriminate.
  - apply (Hgood " Local_Demo "%string). left. reflexivity.
  - apply (Hgood (String (ascii_of_nat 160) "engineering")).
    right. right. reflexivity.
  - apply (Hvec 100 [3.1e-5] 50 2.5 "off"%string); simpl; lia.
  - apply (Hok 100 [0; 3.1e-5] 50 2.5 "off"%string). left. reflexivity.
Defined.

(** A NaN position next to a finite one, an infinite velocity next to a
    zero: the NaN is reset to zero, the finite entries are kept, the
    infinity becomes the largest finite value. *)
Lemma sanitize_clears_nan_witness :
  let positions := [(PrimFloat.nan, PrimFloat.one)] in
  let velocities := [(PrimFloat.infinity, PrimFloat.zero)] in
  Float64.entries (fst (Float64.sanitize positions velocities)) ++
  Float64.entries (snd (Float64.sanitize positions velocities)) =
  [PrimFloat.zero; PrimFloat.one; Float64.max_float; PrimFloat.zero] /\
  Forall (fun y => Float64.isnan y = false)
         (Float64.entries (fst (Float64.sanitize positions velocities)) ++
          Float64.entries (snd (Float64.sanitize positions velocities))).
Proof.
  intros positions velocities.
  destruct (sanitize_clears_nan positions velocities)
    as (Hclean & _ & Hmap & _).
  split; [| exact Hclean].
  rewrite Hmap by reflexivity. reflexivity.
Defined.

End Instances.

(* ================================================================== *)
(** * Further facts: vectors and arrays *)
(* ================================================================== *)

Section MoreArrays.

Lemma vec_eq (a b : Vec2) : fst a = fst b -> snd a = snd b -> a = b.
Proof. destruct a, b; simpl; intros -> ->; reflexivity. Qed.

Lemma vadd_zero_r (a : Vec2) : a +v vzero = a.
Proof. apply vec_eq; simpl; ring. Qed.

Lemma vsub_zero_r (a : Vec2) : a -v vzero = a.
Proof. apply vec_eq; simpl; ring. Qed.

Lemma upd_fix {A : Type} (i : nat) (f : A -> A) (l : list A) :
  (forall x, f x = x) -> upd i f l = l.
Proof.
  intros Hf. revert i. induction l as [| x xs IH]; intros [| j]; simpl;
    rewrite ?Hf, ?IH; reflexivity.
Qed.

Lemma fold_left_invariant_in {A B : Type} (P : A -> Prop) (f : A -> B -> A)
  (l : list B) (a : A) :
  (forall x b, In b l -> P x -> P (f x b)) -> P a -> P (fold_left f l a).
Proof.
  revert a. induction l as [| b bs IH]; intros a Hf Ha; simpl; auto.
  apply IH.
  - intros x b' Hin. apply Hf. now right.
  - apply Hf; [now left | exact Ha].
Qed.

Lemma in_range (n : Z) (i : nat) : In i (range n) <-> (i < Z.to_nat n)%nat.
Proof. unfold range. rewrite in_seq. lia. Qed.

Lemma vsum_upd (i : nat) (f : Vec2 -> Vec2) (l : list Vec2) :
  (i < List.length l)%nat ->
  vsum (upd i f l) = vsum l +v (f (row i l) -v row i l).
Proof.
  unfold row. revert i. induction l as [| x xs IH]; intros [| j] Hi;
    simpl in *; try lia.
  - apply vec_eq; simpl; ring.
  - rewrite IH by lia. apply vec_eq; simpl; ring.
Qed.

Lemma vsum_zeros (a : list Vec2) : vsum (zeros_like a) = vzero.
Proof.
  induction a as [| x xs IH]; [reflexivity |].
  change (vsum (zeros_like (x :: xs))) with (vzero +v vsum (zeros_like xs)).
  rewrite IH. apply vec_eq; simpl; ring.
Qed.

Lemma row_zeros_like (a : list Vec2) (i : nat) : row i (zeros_like a) = vzero.
Proof.
  unfold row, zeros_like. revert i.
  induction a as [| x xs IH]; intros [| j]; simpl; auto.
Qed.

Lemma norm_vzero : norm vzero = 0.
Proof.
  unfold norm; simpl. replace (0 * 0 + 0 * 0) with 0 by ring. apply sqrt_0.
Qed.

Lemma norm_sq (a : Vec2) : norm a ^ 2 = fst a ^ 2 + snd a ^ 2.
Proof.
  unfold norm. rewrite pow2_sqrt; [ring |]. nra.
Qed.

Lemma norm_vscale (a : Vec2) (x : R) : norm (a *v x) = norm a * Rabs x.
Proof.
  unfold norm; simpl.
  replace (fst a * x * (fst a * x) + snd a * x * (snd a * x))
    with ((fst a * fst a + snd a * snd a) * x²) by (unfold Rsqr; ring).
  rewrite sqrt_mult by (try apply Rle_0_sqr; nra).
  now rewrite sqrt_Rsqr_abs.
Qed.

Lemma norm_smul (x : R) (a : Vec2) : norm (x *.v a) = Rabs x * norm a.
Proof.
  replace (x *.v a) with (a *v x) by (apply vec_eq; simpl; ring).
  rewrite norm_vscale. ring.
Qed.

Lemma norm_vdiv (a : Vec2) (x : R) : norm (a /v x) = norm a * Rabs (/ x).
Proof.
  replace (a /v x) with (a *v / x) by (apply vec_eq; reflexivity).
  apply norm_vscale.
Qed.

End MoreArrays.

(* ================================================================== *)
(** * Further facts: DynamicTether *)
(* ================================================================== *)

Section MoreTetherFacts.

Import DynamicTether.

Lemma init_rows (N_ : Z) (L0_ E d rho dr decay : R) (s : t) :
  init N_ L0_ E d rho dr decay = Ok s ->
  N s = N_ /\ segment_length s = L0_ / IZR N_ /\
  positions s = map (fun i => (0, - INR i * (L0_ / IZR N_))) (range (N_ + 1)) /\
  velocities s = zeros_like (positions s) /\
  _forces s = zeros_like (positions s) /\
  _pos_prev s = positions s.
Proof.
  unfold init.
  destruct (N_ =? 0)%Z; [discriminate |].
  destruct (Req_dec_T _ 0); [discriminate |].
  destruct (N_ + 1 <? 0)%Z; [discriminate |].
  intros [= <-]. simpl. repeat split.
Qed.

(** The segments of a tether as [__init__] lays it out all have the rest
    length. *)
Lemma init_segment_length (N_ : Z) (L0_ E d rho dr decay : R) (s : t)
  (i : nat) :
  (1 <= N_)%Z -> 0 < L0_ ->
  init N_ L0_ E d rho dr decay = Ok s ->
  (i < Z.to_nat N_)%nat ->
  norm (row (S i) (positions s) -v row i (positions s)) = segment_length s.
Proof.
  intros HN HL Hinit Hi.
  destruct (init_rows _ _ _ _ _ _ _ _ Hinit) as (_ & Hseg & Hpos & _).
  assert (HNr : 0 < IZR N_) by (apply IZR_lt; lia).
  assert (Hs : 0 < L0_ / IZR N_) by (apply Rdiv_lt_0_compat; lra).
  rewrite Hpos, Hseg. unfold row.
  rewrite !nth_map_range by lia.
  apply norm_eq; [lra |]. unfold vsub. cbn [fst snd]. rewrite S_INR. ring.
Qed.

Lemma Rsum_map_zero {A : Type} (f : A -> R) (l : list A) :
  (forall x, In x l -> f x = 0) -> Rsum (map f l) = 0.
Proof.
  induction l as [| x xs IH]; intros H; simpl; [reflexivity |].
  rewrite H by now left. rewrite IH; [ring |].
  intros y Hy. apply H. now right.
Qed.

Lemma in_zeros_like (a : list Vec2) (x : Vec2) :
  In x (zeros_like a) -> x = vzero.
Proof.
  unfold zeros_like. rewrite in_map_iff. now intros (y & <- & _).
Qed.

Lemma in_tl {A : Type} (l : list A) (x : A) : In x (tl l) -> In x l.
Proof. destruct l; simpl; auto. Qed.

(** A segment at its rest length between two nodes that move alike adds
    nothing to the force buffer. *)
Lemma segment_force_relaxed (s : t) (F : list Vec2) (i : nat) :
  norm (row (S i) (positions s) -v row i (positions s)) = segment_length s ->
  row (S i) (velocities s) = row i (velocities s) ->
  segment_force s F i = F.
Proof.
  intros HL Hv. unfold segment_force. rewrite HL, Hv.
  destruct (Rlt_dec _ 1e-12); [reflexivity |].
  set (u := _ /v segment_length s).
  assert (E : ((- k s * (segment_length s - segment_length s)) *.v u) -v
              ((c s * dot (row i (velocities s) -v row i (velocities s)) u)
               *.v u) = vzero).
  { apply vec_eq; unfold dot; simpl; ring. }
  rewrite E.
  rewrite (upd_fix i) by apply vadd_zero_r.
  apply upd_fix, vsub_zero_r.
Qed.

(** X1.  A tether as [__init__] builds it for N >= 1 and L0 > 0 hangs
    straight down, node i at (0, -i * L0 / N), at rest and relaxed: it
    satisfies the shape invariant, every segment has the rest length,
    every tension is zero, the internal forces vanish and the mechanical
    energy is zero. *)
Theorem tether_init_at_rest (N_ : Z) (L0_ E d rho dr decay : R) (s : t) :
  (1 <= N_)%Z -> 0 < L0_ ->
  init N_ L0_ E d rho dr decay = Ok s ->
  wf s /\ N s = N_ /\ segment_length s = L0_ / IZR N_ /\
  (forall i, (i <= Z.to_nat N_)%nat ->
     row i (positions s) = (0, - INR i * (L0_ / IZR N_)) /\
     row i (velocities s) = vzero) /\
  (forall i, (i < Z.to_nat N_)%nat ->
     norm (row (S i) (positions s) -v row i (positions s)) =
     segment_length s) /\
  get_tension_profile s = map (fun _ => 0) (range N_) /\
  snd (compute_internal_forces s) = zeros_like (positions s) /\
  total_energy_mech s = 0.
Proof.
  intros HN HL Hinit.
  destruct (init_wf _ _ _ _ _ _ _ _ HN Hinit) as [Hwf HNs].
  destruct (init_rows _ _ _ _ _ _ _ _ Hinit)
    as (_ & Hseg & Hpos & Hvel & _ & _).
  assert (Hlen : forall i, (i < Z.to_nat N_)%nat ->
             norm (row (S i) (positions s) -v row i (positions s)) =
             segment_length s).
  { intros i Hi. eapply init_segment_length; eauto. }
  assert (Hv0 : forall i, row i (velocities s) = vzero).
  { intros i. rewrite Hvel. apply row_zeros_like. }
  split; [exact Hwf |]. split; [exact HNs |]. split; [exact Hseg |].
  split; [| split; [exact Hlen |]].
  { intros i Hi. split; [| apply Hv0].
    rewrite Hpos. unfold row. now rewrite nth_map_range by lia. }
  split; [| split].
  - unfold get_tension_profile. rewrite HNs.
    apply map_ext_in. intros i Hi. apply in_range in Hi.
    rewrite Hlen by exact Hi.
    unfold py_max. destruct (Rlt_dec _ _); [lra | ring].
  - unfold compute_internal_forces; simpl.
    apply (fold_left_invariant_in (fun F => F = zeros_like (positions s)));
      [| reflexivity].
    intros F i Hi ->. rewrite HNs in Hi. apply in_range in Hi.
    apply segment_force_relaxed; [now apply Hlen |].
    now rewrite !Hv0.
  - unfold total_energy_mech.
    rewrite Rsum_map_zero.
    + rewrite (fold_left_invariant_in (fun e => e = 0)); [ring | | reflexivity].
      intros e i Hi ->. rewrite HNs in Hi. apply in_range in Hi.
      rewrite Hlen by exact Hi. ring.
    + intros v Hv. apply in_tl in Hv. rewrite Hvel in Hv.
      apply in_zeros_like in Hv. subst v. rewrite norm_vzero. ring.
Qed.

(** X2.  What [__init__] of a tether does with its segment count and rest
    length: N = 0 raises ZeroDivisionError, and so does L0 = 0; N < -1
    raises ValueError (a negative array dimension); N = -1 builds a tether
    with no node at all; N >= 1 builds a tether that satisfies the shape
    invariant. *)
Theorem tether_init_outcome (N_ : Z) (L0_ E d rho dr decay : R) :
  (N_ = 0%Z -> init N_ L0_ E d rho dr decay = Raise ZeroDivisionError) /\
  (L0_ = 0 -> init N_ L0_ E d rho dr decay = Raise ZeroDivisionError) /\
  ((N_ < -1)%Z -> L0_ <> 0 ->
   init N_ L0_ E d rho dr decay =
   Raise (ValueError "negative dimensions are not allowed")) /\
  (N_ = (-1)%Z -> L0_ <> 0 ->
   exists s, init N_ L0_ E d rho dr decay = Ok s /\
             positions s = [] /\ velocities s = [] /\ ~ wf s) /\
  ((1 <= N_)%Z -> L0_ <> 0 ->
   exists s, init N_ L0_ E d rho dr decay = Ok s /\ wf s /\
             List.length (positions s) = Z.to_nat (N_ + 1)).
Proof.
  assert (Hseg : N_ <> 0%Z -> L0_ <> 0 -> L0_ / IZR N_ <> 0).
  { intros HN HL E0.
    assert (HNr : IZR N_ <> 0) by (apply not_0_IZR; exact HN).
    apply HL. apply (Rmult_eq_compat_r (IZR N_)) in E0.
    unfold Rdiv in E0. rewrite Rmult_assoc, Rinv_l in E0 by exact HNr. lra. }
  unfold init. repeat split.
  - intros ->. reflexivity.
  - intros ->. destruct (N_ =? 0)%Z; [reflexivity |].
    destruct (Req_dec_T _ 0) as [_ | H]; [reflexivity |].
    exfalso. apply H. unfold Rdiv. ring.
  - intros HN HL. destruct (Z.eqb_spec N_ 0); [lia |].
    destruct (Req_dec_T _ 0) as [H | _]; [now apply Hseg in H |].
    destruct (Z.ltb_spec (N_ + 1) 0); [reflexivity | lia].
  - intros -> HL. simpl.
    destruct (Req_dec_T _ 0) as [H | _]; [apply Hseg in H; [tauto | lia | auto] |].
    eexists. split; [reflexivity |]. simpl. repeat split.
    intros (H1 & _). simpl in H1. lia.
  - intros HN HL.
    destruct (tether_init_ok N_ L0_ E d rho dr decay HN HL) as [s Hs].
    exists s. unfold init in Hs. split; [exact Hs |].
    destruct (init_wf _ _ _ _ _ _ _ _ HN Hs) as [Hwf HNs].
    split; [exact Hwf |].
    destruct Hwf as (_ & Hp & _). rewrite Hp, HNs. lia.
Qed.

(** X3.  The internal forces obey Newton's third law: over a well-shaped
    tether they sum to the zero vector, whatever the stretch and the
    velocities (every segment pushes its two nodes with opposite forces);
    the buffer has N + 1 rows and is what the tether stores. *)
Theorem internal_forces_sum_to_zero (s : t) :
  wf s ->
  vsum (snd (compute_internal_forces s)) = vzero /\
  List.length (snd (compute_internal_forces s)) = S (Z.to_nat (N s)) /\
  _forces (fst (compute_internal_forces s)) = snd (compute_internal_forces s).
Proof.
  intros (HN & Hp & _).
  assert (H : vsum (snd (compute_internal_forces s)) = vzero /\
              List.length (snd (compute_internal_forces s)) =
              S (Z.to_nat (N s))).
  { unfold compute_internal_forces; simpl.
    apply (fold_left_invariant_in
             (fun F => vsum F = vzero /\
                       List.length F = S (Z.to_nat (N s)))).
    - intros F i Hi [Hsum Hlen]. apply in_range in Hi.
      unfold segment_force. destruct (Rlt_dec _ 1e-12); [now split |].
      split; [| now rewrite !upd_length].
      rewrite vsum_upd by (rewrite upd_length; lia).
      rewrite vsum_upd by lia. rewrite Hsum.
      unfold row. rewrite nth_upd_other by lia.
      apply vec_eq; simpl; ring.
    - split; [apply vsum_zeros |]. now rewrite zeros_like_length. }
  destruct H as [H1 H2]. repeat split; assumption.
Qed.

Lemma row_map (f : Vec2 -> Vec2) (l : list Vec2) (i : nat) :
  (i < List.length l)%nat -> row i (map f l) = f (row i l).
Proof.
  intros Hi. unfold row.
  rewrite (nth_indep _ vzero (f vzero)) by now rewrite length_map.
  apply map_nth.
Qed.

(** X4.  [integrate] is a semi-implicit Euler step that never advances
    the anchor.  With dt <= 0 it changes nothing.  With dt > 0, over a
    well-shaped tether, it stores the positions it found as previous
    positions, leaves the force buffer and node 0 as they are, gives every
    other node the velocity v + (F / m) dt, moves it by that new velocity
    times dt, and only then applies the optional decay factor
    exp(-decay * dt) to the velocity; the shape invariant is kept. *)
Theorem integrate_semi_implicit_euler (s : t) (dt : R) :
  wf s ->
  (dt <= 0 -> integrate s dt = s) /\
  (0 < dt ->
   let s' := integrate s dt in
   wf s' /\
   _pos_prev s' = positions s /\
   _forces s' = _forces s /\
   row 0 (positions s') = row 0 (positions s) /\
   row 0 (velocities s') = row 0 (velocities s) /\
   forall i, (1 <= i <= Z.to_nat (N s))%nat ->
     let v_new := row i (velocities s) +v
                  (row i (_forces s) /v m_segment s) *v dt in
     row i (positions s') = row i (positions s) +v v_new *v dt /\
     row i (velocities s') =
     (if Rlt_dec 0 (_vel_decay_per_s s)
      then v_new *v exp (- _vel_decay_per_s s * dt)
      else v_new)).
Proof.
  intros Hwf. split.
  - intros Hdt. unfold integrate. destruct (Rle_dec dt 0); [reflexivity | lra].
  - intros Hdt s'.
    split; [apply integrate_wf; exact Hwf |].
    destruct Hwf as (HN & Hp & Hv & Hf & Hq).
    unfold s', integrate. destruct (Rle_dec dt 0); [lra |]. simpl.
    set (a := map (fun f => f /v m_segment s) (_forces s)).
    set (vel := on_tail (fun v => zip_with (fun vi ai => vi +v ai *v dt)
                                           v (tl a)) (velocities s)).
    assert (Hvel : forall i, (1 <= i <= Z.to_nat (N s))%nat ->
               row i vel = row i (velocities s) +v
                           (row i (_forces s) /v m_segment s) *v dt).
    { intros [| j] Hi; [lia |]. unfold vel, row.
      rewrite nth_on_tail_S
        by (destruct (velocities s); simpl in *; [lia | congruence]).
      rewrite (nth_zip_with _ _ _ _ vzero vzero)
        by (unfold a; rewrite tl_length, ?length_map; lia).
      rewrite !nth_tl. unfold a.
      fold (row (S j) (map (fun f => f /v m_segment s) (_forces s))).
      rewrite row_map by lia. reflexivity. }
    assert (Hvlen : List.length vel = S (Z.to_nat (N s))).
    { unfold vel. destruct (velocities s) as [| v0 vs]; simpl in *; [lia |].
      unfold a. rewrite zip_with_length, tl_length, length_map. lia. }
    split; [reflexivity |]. split; [reflexivity |].
    split; [unfold row; apply nth_on_tail_0 |].
    split.
    { destruct (Rlt_dec 0 _); unfold row, vel; now rewrite !nth_on_tail_0. }
    intros i Hi. cbv zeta. split.
    + destruct i as [| j]; [lia |]. unfold row.
      rewrite nth_on_tail_S
        by (destruct (positions s); simpl in *; [lia | congruence]).
      rewrite (nth_zip_with _ _ _ _ vzero vzero)
        by (rewrite tl_length; lia).
      rewrite !nth_tl. fold (row (S j) vel). now rewrite Hvel.
    + destruct (Rlt_dec 0 _).
      * destruct i as [| j]; [lia |]. unfold row.
        rewrite nth_on_tail_S
          by (destruct vel; simpl in *; [lia | congruence]).
        fold (row j (map (fun v => v *v exp (- _vel_decay_per_s s * dt))
                         (tl vel))).
        rewrite row_map by (rewrite tl_length; lia).
        unfold row. rewrite nth_tl. fold (row (S j) vel).
        now rewrite Hvel.
      * now apply Hvel.
Qed.

(** The constraint pass of a one-segment tether, on the far node. *)
Lemma single_segment_pass (s : t) (p0 q : Vec2) :
  N s = 1%Z -> row 0 (_pos_prev s) = p0 ->
  constraint_pass s [p0; q] =
  [p0; if Rlt_dec (norm (q -v p0)) 1e-12 then q
       else q -v (q -v p0) *v
                 ((norm (q -v p0) - segment_length s) / norm (q -v p0))].
Proof.
  intros HN Hprev. unfold constraint_pass. rewrite HN, Hprev.
  change (range 1) with [0%nat]. simpl. unfold constrain_segment, row. simpl.
  destruct (Rlt_dec _ 1e-12); reflexivity.
Qed.

(** X5.  For a tether of one segment, one call of [enforce_constraints]
    (dt > 0, at least one iteration, rest length >= 0, anchor at its stored
    previous position, the two nodes at least 1e-12 apart) puts the far
    node back at exactly the rest length from the anchor, on the ray it was
    on: its offset from the anchor is the old offset scaled by
    rest length / old length. *)
Theorem single_segment_constraint_exact (s : t) (dt : R) (iterations : Z) :
  wf s -> N s = 1%Z -> 0 < dt -> (1 <= iterations)%Z ->
  0 <= segment_length s ->
  row 0 (positions s) = row 0 (_pos_prev s) ->
  1e-12 <= norm (row 1 (positions s) -v row 0 (positions s)) ->
  let s' := enforce_constraints s dt iterations in
  let offset := row 1 (positions s) -v row 0 (positions s) in
  row 0 (positions s') = row 0 (positions s) /\
  row 1 (positions s') -v row 0 (positions s') =
  offset *v (segment_length s / norm offset) /\
  norm (row 1 (positions s') -v row 0 (positions s')) = segment_length s.
Proof.
  intros (_ & Hp & _) HN Hdt Hit Hseg Hanchor Hfar s' offset.
  rewrite HN in Hp. change (Z.to_nat 1) with 1%nat in Hp.
  destruct (positions s) as [| p0 [| p1 [| ? ?]]] eqn:Epos;
    simpl in Hp; try lia.
  unfold row in Hanchor, Hfar, offset |- *. simpl in Hanchor, Hfar, offset.
  fold offset in Hfar.
  set (seg := segment_length s) in *.
  remember (norm offset) as n0 eqn:En0.
  assert (Hd : 0 < n0) by lra.
  set (q := p1 -v offset *v ((n0 - seg) / n0)).
  assert (Hq : q -v p0 = offset *v (seg / n0)).
  { unfold q, offset. apply vec_eq; simpl; field; lra. }
  assert (Hn : norm (q -v p0) = seg).
  { rewrite Hq, norm_vscale, <- En0, Rabs_right.
    - field. lra.
    - apply Rle_ge. apply Rmult_le_pos; [lra |].
      left. now apply Rinv_0_lt_compat. }
  assert (Hfirst : constraint_pass s [p0; p1] = [p0; q]).
  { rewrite (single_segment_pass s p0 p1 HN) by (symmetry; exact Hanchor).
    fold offset. rewrite <- En0.
    destruct (Rlt_dec _ 1e-12); [lra | reflexivity]. }
  assert (Hnext : constraint_pass s [p0; q] = [p0; q]).
  { rewrite (single_segment_pass s p0 q HN) by (symmetry; exact Hanchor).
    fold seg. rewrite Hn. destruct (Rlt_dec _ 1e-12); [reflexivity |].
    assert (E : q -v (q -v p0) *v ((seg - seg) / seg) = q).
    { apply vec_eq; unfold vsub, vscale, Rdiv; cbn [fst snd]; ring. }
    now rewrite E. }
  assert (Hiter : forall m, Nat.iter (S m) (constraint_pass s) [p0; p1] =
                            [p0; q]).
  { induction m as [| m IH]; [exact Hfirst |].
    change (Nat.iter (S (S m)) (constraint_pass s) [p0; p1])
      with (constraint_pass s (Nat.iter (S m) (constraint_pass s) [p0; p1])).
    now rewrite IH. }
  assert (Epos' : positions s' = [p0; q]).
  { unfold s', enforce_constraints.
    destruct (Rle_dec dt 0); [lra |].
    destruct (Z.eqb_spec (Z.max 0 iterations) 0); [lia |]. simpl.
    replace (Z.max 0 iterations) with iterations by lia.
    destruct (Z.to_nat iterations) as [| m] eqn:Em; [lia |].
    rewrite Epos. apply Hiter. }
  rewrite Epos'. simpl. repeat split; assumption.
Qed.

(** X7.  The two energy read-outs agree: [total_energy_mech] of the
    tether is the kinetic plus the elastic bucket the [EnergyTracker]
    computes from the same tether, and for a segment mass and a stiffness
    that are not negative none of the three is negative. *)
Theorem mechanical_energy_agrees (s : t) :
  total_energy_mech s =
  EnergyTracker.kinetic_energy s + EnergyTracker.elastic_energy s /\
  (0 <= m_segment s -> 0 <= k s ->
   0 <= EnergyTracker.kinetic_energy s /\
   0 <= EnergyTracker.elastic_energy s /\
   0 <= total_energy_mech s).
Proof.
  assert (E : total_energy_mech s =
              EnergyTracker.kinetic_energy s + EnergyTracker.elastic_energy s).
  { unfold total_energy_mech, EnergyTracker.kinetic_energy,
      EnergyTracker.elastic_energy.
    f_equal. f_equal. f_equal.
    apply map_ext. intros v. apply norm_sq. }
  split; [exact E |]. intros Hm Hk.
  assert (Hkin : 0 <= EnergyTracker.kinetic_energy s).
  { unfold EnergyTracker.kinetic_energy.
    apply Rmult_le_pos; [lra |].
    induction (tl (velocities s)) as [| v vs IH]; simpl; [lra |].
    apply Rplus_le_le_0_compat; [| exact IH].
    pose proof (pow2_ge_0 (fst v)). pose proof (pow2_ge_0 (snd v)). lra. }
  assert (Hel : 0 <= EnergyTracker.elastic_energy s).
  { unfold EnergyTracker.elastic_energy.
    apply (fold_left_invariant (fun e => 0 <= e)); [| lra].
    intros e i He.
    set (st := _ - segment_length s).
    pose proof (Rle_0_sqr st) as Hs. unfold Rsqr in Hs.
    assert (0 <= 0.5 * k s * (st * st)) by (apply Rmult_le_pos; lra).
    lra. }
  repeat split; try assumption. lra.
Qed.

Lemma nth_upd (i j : nat) (f : Vec2 -> Vec2) (l : list Vec2) :
  (j < List.length l)%nat ->
  row j (upd i f l) = if (i =? j)%nat then f (row j l) else row j l.
Proof.
  intros Hj. unfold row. destruct (Nat.eqb_spec i j) as [-> | Hne].
  - now apply nth_upd_same.
  - now apply nth_upd_other.
Qed.

(** X8.  [apply_force_to_payload] is [add_external_forces] with a force
    field that is zero on every node but the last: on a well-shaped tether
    the two leave the same tether. *)
Theorem payload_force_as_field (s : t) (F_ext : Vec2) :
  wf s ->
  apply_force_to_payload s F_ext =
  add_external_forces
    s (upd_last (fun _ => F_ext) (zeros_like (positions s))).
Proof.
  intros (HN & Hp & Hv & Hf & Hq).
  unfold apply_force_to_payload, add_external_forces. f_equal.
  unfold upd_last. rewrite zeros_like_length, Hp, Hf.
  apply (nth_ext _ _ vzero vzero).
  - rewrite upd_length, zip_with_length, upd_length, zeros_like_length. lia.
  - intros j Hj. rewrite upd_length in Hj.
    fold (row j (upd (S (Z.to_nat (N s)) - 1) (fun f => f +v F_ext)
                     (_forces s))).
    rewrite nth_upd by exact Hj.
    rewrite (nth_zip_with _ _ _ _ vzero vzero)
      by (rewrite ?upd_length, ?zeros_like_length; lia).
    fold (row j (_forces s)).
    fold (row j (upd (S (Z.to_nat (N s)) - 1) (fun _ => F_ext)
                     (zeros_like (positions s)))).
    rewrite nth_upd by (rewrite zeros_like_length; lia).
    rewrite row_zeros_like.
    destruct (_ =? j)%nat; [reflexivity | now rewrite vadd_zero_r].
Qed.

End MoreTetherFacts.

(* ================================================================== *)
(** * Further facts: MotorSystem *)
(* ================================================================== *)

Section MoreMotorFacts.

Import MotorSystem.

(** Clipping to a range never takes a value further from a point of the
    range. *)
Lemma np_clip_contracts (x y lo hi : R) :
  lo <= y <= hi -> Rabs (np_clip x lo hi - y) <= Rabs (x - y).
Proof.
  intros Hy. unfold np_clip, Rmin, Rmax.
  destruct (Rle_dec x lo); destruct (Rle_dec _ hi);
    unfold Rabs; repeat destruct (Rcase_abs _); lra.
Qed.

Lemma np_clip_abs (x b : R) : 0 <= b -> Rabs (np_clip x (- b) b) <= b.
Proof.
  intros Hb. destruct (np_clip_bounds x (- b) b) as [H1 H2]; [lra |].
  unfold Rabs. destruct (Rcase_abs _); lra.
Qed.

(** X9.  The safety bounds of [update]: whatever the state and the
    inputs, the new angular velocity lies in [-50, 50] and the returned
    anchor velocity is that angular velocity times the spool radius; the
    pay-out length and the energy used advance by velocity * dt and
    electrical power * dt.  For tau_max >= 0 the torque lies in
    [-tau_max, tau_max] and the mechanical power within 50 * tau_max.  For
    dt >= 0, from an angular velocity in [-50, 50], the angular velocity
    changes by at most 100 * dt. *)
Theorem motor_update_bounds (s : t) (dt tension omega_cmd : R) :
  let s' := fst (update s dt tension omega_cmd) in
  let v := snd (update s dt tension omega_cmd) in
  -50 <= omega s' <= 50 /\
  v = omega s' * R_spool s /\
  anchor_length s' = anchor_length s + v * dt /\
  energy_used s' = energy_used s + P_elec s' * dt /\
  (0 <= tau_max s ->
   - tau_max s <= torque s' <= tau_max s /\
   Rabs (P_mech s') <= 50 * tau_max s) /\
  (0 <= dt -> -50 <= omega s <= 50 ->
   Rabs (omega s' - omega s) <= 100 * dt).
Proof.
  simpl.
  set (tau := np_clip (2 * (omega_cmd - omega s)) (- tau_max s) (tau_max s)).
  set (a := np_clip ((tau - tension * R_spool s - b_m s * omega s) / J_m s)
                    (-100) 100).
  set (w := np_clip (omega s + a * dt) (-50) 50).
  assert (Hw : -50 <= w <= 50) by (apply np_clip_bounds; lra).
  assert (Ha : -100 <= a <= 100) by (apply np_clip_bounds; lra).
  split; [exact Hw |]. split; [reflexivity |].
  split; [reflexivity |]. split; [reflexivity |]. split.
  - intros Ht.
    assert (Htau : - tau_max s <= tau <= tau_max s)
      by (apply np_clip_bounds; lra).
    split; [exact Htau |].
    rewrite Rabs_mult.
    assert (H1 : Rabs tau <= tau_max s)
      by (unfold Rabs; destruct (Rcase_abs _); lra).
    assert (H2 : Rabs w <= 50) by (unfold Rabs; destruct (Rcase_abs _); lra).
    pose proof (Rabs_pos tau). pose proof (Rabs_pos w). nra.
  - intros Hdt Hom.
    eapply Rle_trans; [apply np_clip_contracts; exact Hom |].
    replace (omega s + a * dt - omega s) with (a * dt) by ring.
    rewrite Rabs_mult, (Rabs_right dt) by lra.
    assert (H1 : Rabs a <= 100) by (unfold Rabs; destruct (Rcase_abs _); lra).
    pose proof (Rabs_pos a). nra.
Qed.

(** X10.  An idle motor stays idle: at rest (omega = 0), with no tip
    tension and a zero command, [update] leaves the angular velocity, the
    torque, both powers and the returned anchor velocity at zero and adds
    nothing to the pay-out length or the energy used (tau_max >= 0, and
    the divisors J_m and eta not zero). *)
Theorem motor_idle_stays_idle (s : t) (dt : R) :
  omega s = 0 -> 0 <= tau_max s -> J_m s <> 0 -> eta s <> 0 ->
  let s' := fst (update s dt 0 0) in
  snd (update s dt 0 0) = 0 /\
  omega s' = 0 /\ torque s' = 0 /\ P_mech s' = 0 /\ P_elec s' = 0 /\
  anchor_length s' = anchor_length s /\ energy_used s' = energy_used s.
Proof.
  intros Hom Ht _ _. simpl. rewrite Hom.
  replace (2 * (0 - 0)) with 0 by ring.
  rewrite (np_clip_inside 0 (- tau_max s)) by lra.
  replace ((0 - 0 * R_spool s - b_m s * 0) / J_m s) with 0
    by (unfold Rdiv; ring).
  rewrite (np_clip_inside 0 (-100)) by lra.
  replace (0 + 0 * dt) with 0 by ring.
  rewrite (np_clip_inside 0 (-50)) by lra.
  unfold electrical_power.
  replace (0 * 0) with 0 by ring.
  destruct (Rge_dec 0 0); [| lra].
  unfold Rdiv. repeat split; ring.
Qed.

End MoreMotorFacts.

(* ================================================================== *)
(** * Further facts: ElectrodynamicTether *)
(* ================================================================== *)

Section MoreEDTFacts.

Import ElectrodynamicTether.

Lemma force_sign_unit (m : string) (v : Vec2) (Pc : R) :
  Rabs (force_sign m v Pc) = 1.
Proof.
  unfold force_sign.
  destruct (Rgt_dec _ _); destruct (m =? "boost")%string;
    try destruct (Rge_dec _ _);
    unfold Rabs; destruct (Rcase_abs _); lra.
Qed.

Lemma force_sign_opposite (v : Vec2) (Pc : R) :
  force_sign "boost" v Pc = - force_sign "drag" v Pc.
Proof.
  unfold force_sign. simpl.
  destruct (Rgt_dec _ _); try destruct (Rge_dec _ _); ring.
Qed.

Lemma unit_vector_norm (a : Vec2) : 0 < norm a -> norm (a /v norm a) = 1.
Proof.
  intros Ha. rewrite norm_vdiv, Rabs_right.
  - field. lra.
  - left. now apply Rinv_0_lt_compat.
Qed.

(** X11.  The geometry of the force [update] books, on an actuator with
    three field components: in every mode the force is perpendicular to
    the tether vector payload - node, and the current is at most |I_max| in
    magnitude; the resistive loss is not negative for a resistance >= 0.
    Outside "off" mode, with the two ends at least 1e-9 apart, the force
    has magnitude |I| * length * |Bz|; with the ends closer than that it is
    zero. *)
Theorem edt_force_geometry (s : t) (node payload v : Vec2) (cmd : R) :
  wf s ->
  let s' := fst (update s node payload v cmd) in
  let tether_vec := payload -v node in
  dot (F s') tether_vec = 0 /\
  Rabs (I s') <= Rabs (I_max s) /\
  (0 <= R_tether s -> 0 <= P_loss s') /\
  (mode s <> "off"%string -> 1e-9 <= norm tether_vec ->
   norm (F s') = Rabs (I s') * norm tether_vec * Rabs (nth 2 (B_vec s) 0)) /\
  (norm tether_vec < 1e-9 -> F s' = vzero).
Proof.
  intros _ s' tether_vec.
  assert (Hclip : Rabs (np_clip cmd (-1) 1 * I_max s) <= Rabs (I_max s)).
  { rewrite Rabs_mult.
    assert (Hc : Rabs (np_clip cmd (-1) 1) <= 1).
    { destruct (np_clip_bounds cmd (-1) 1) as [H1 H2]; [lra |].
      unfold Rabs. destruct (Rcase_abs _); lra. }
    pose proof (Rabs_pos (I_max s)). nra. }
  assert (Hloss : forall x, 0 <= R_tether s -> 0 <= x ^ 2 * R_tether s).
  { intros x HR. apply Rmult_le_pos; [apply pow2_ge_0 | exact HR]. }
  unfold s', update.
  destruct (mode s =? "off")%string eqn:Hoff.
  - simpl. rewrite dot_vzero_l, Rabs_R0.
    repeat split; try lra; try apply Rabs_pos.
    intros Hm. apply String.eqb_eq in Hoff. contradiction.
  - fold tether_vec. destruct (Rlt_dec (norm tether_vec) 1e-9);
      cbn [fst F I P_loss].
    + rewrite dot_vzero_l.
      split; [reflexivity |]. split; [exact Hclip |].
      split; [apply Hloss |]. split; [intros _ Hge; lra | reflexivity].
    + assert (Hn : 0 < norm tether_vec) by lra.
      split; [| split; [exact Hclip |
                split; [apply Hloss | split; [| intros Hlt; lra]]]].
      * unfold dot, smul; simpl. field. lra.
      * intros _ _.
        rewrite norm_smul, force_sign_unit, norm_smul.
        set (Lh := tether_vec /v norm tether_vec).
        assert (Hperp : norm (- snd Lh, fst Lh) = norm Lh).
        { unfold norm; simpl. f_equal. ring. }
        rewrite Hperp. unfold Lh. rewrite unit_vector_norm by exact Hn.
        rewrite Rabs_right; [ring |].
        apply Rle_ge. repeat apply Rmult_le_pos; try apply Rabs_pos. lra.
Qed.

(** X12.  Boost and drag are mirror images: for the same actuator and
    the same inputs the two modes use the same current, book the same
    loss, push with opposite forces and book opposite orbital powers, so
    their net powers add up to twice the loss. *)
Theorem edt_boost_and_drag_are_opposite
  (s : t) (node payload v : Vec2) (cmd : R) :
  wf s ->
  let b := fst (update (set_mode s "boost") node payload v cmd) in
  let d := fst (update (set_mode s "drag") node payload v cmd) in
  I b = I d /\ P_loss b = P_loss d /\
  F b +v F d = vzero /\
  P_orbit b = - P_orbit d /\
  P_net b + P_net d = 2 * P_loss b.
Proof.
  intros _ b d. unfold b, d, update, set_mode.
  change (normalize "boost") with "boost"%string.
  change (normalize "drag") with "drag"%string. simpl.
  destruct (Rlt_dec _ 1e-9); simpl.
  - repeat split; try ring. apply vec_eq; simpl; ring.
  - set (Fc := _ *.v (_, _)).
    rewrite !dot_smul, force_sign_opposite.
    set (sg := force_sign "drag" v (dot Fc v)).
    repeat split; try ring.
    + apply vec_eq; simpl; ring.
    + unfold net_power; simpl. unfold py_max, py_min.
      destruct (Rlt_dec 0 _); destruct (Rlt_dec _ 0); lra.
Qed.

End MoreEDTFacts.

(* ================================================================== *)
(** * Further facts: GravityField *)
(* ================================================================== *)

Section MoreGravityFacts.

Import GravityField.

Lemma fold_left_ext {A B : Type} (f g : A -> B -> A) (l : list B) (a : A) :
  (forall x b, f x b = g x b) -> fold_left f l a = fold_left g l a.
Proof.
  intros H. revert a. induction l as [| b bs IH]; intros a; simpl;
    [reflexivity |]. now rewrite H, IH.
Qed.

(** X14.  In "local" mode the field is uniform: the acceleration is
    (0, -g0) at every point, [acceleration_difference] is zero between any
    two points, and the potential differs by g0 times the height
    difference.  So the shortcut the [EnergyTracker] takes in local mode
    equals the potential-difference sum its other branch computes. *)
Theorem gravity_local_is_uniform (g : t) :
  mode g = "local"%string ->
  (forall p : Vec2, get_acceleration g p = (0, - g0 g)) /\
  (forall p1 p2 : Vec2, acceleration_difference g p1 p2 = vzero) /\
  (forall p1 p2 : Vec2,
      get_potential g p2 - get_potential g p1 = g0 g * (snd p2 - snd p1)) /\
  (forall tether : DynamicTether.t,
      EnergyTracker.gravitational_energy tether (Some g) =
      fold_left
        (fun grav i =>
           grav + DynamicTether.m_segment tether *
                  (get_potential g (row i (DynamicTether.positions tether)) -
                   get_potential g (row 0 (DynamicTether.positions tether))))
        (seq 1 (Z.to_nat (DynamicTether.N tether))) 0).
Proof.
  intros Hm.
  assert (Hacc : forall p, get_acceleration g p = (0, - g0 g)).
  { intros p. unfold get_acceleration. now rewrite Hm. }
  assert (Hpot : forall p, get_potential g p = g0 g * snd p).
  { intros p. unfold get_potential. now rewrite Hm. }
  split; [exact Hacc |]. split; [| split].
  - intros p1 p2. unfold acceleration_difference. rewrite !Hacc.
    apply vec_eq; simpl; ring.
  - intros p1 p2. rewrite !Hpot. ring.
  - intros tether. unfold EnergyTracker.gravitational_energy. rewrite Hm.
    simpl. apply fold_left_ext. intros grav i. rewrite !Hpot. ring.
Qed.

(** X15.  In any mode other than "local" the field is the two-body
    field about the origin: at squared distance >= 1 the acceleration is
    -mu / r^3 times the position, of magnitude mu / r^2 for mu >= 0, and
    the potential is -mu / r; closer than that both are zero (the guard
    against the singularity). *)
Theorem gravity_orbital_inverse_square (g : t) (p : Vec2) :
  mode g <> "local"%string ->
  (dot p p < 1 -> get_acceleration g p = vzero /\ get_potential g p = 0) /\
  (1 <= dot p p ->
   get_acceleration g p = (- mu g / norm p ^ 3) *.v p /\
   get_potential g p = - mu g / norm p /\
   (0 <= mu g -> norm (get_acceleration g p) = mu g / norm p ^ 2)).
Proof.
  intros Hm. apply String.eqb_neq in Hm.
  unfold get_acceleration, get_potential. rewrite Hm.
  change (sqrt (dot p p)) with (norm p).
  split; intros Hr; destruct (Rlt_dec (dot p p) 1); try lra.
  - split; reflexivity.
  - assert (Hn : 1 <= norm p).
    { unfold norm. fold (dot p p). rewrite <- sqrt_1.
      apply sqrt_le_1_alt. exact Hr. }
    assert (E : ((- mu g) *.v p) /v norm p ^ 3 = (- mu g / norm p ^ 3) *.v p).
    { apply vec_eq; simpl; field; lra. }
    split; [exact E |]. split; [reflexivity |].
    intros Hmu. rewrite E, norm_smul.
    assert (H3 : 0 < norm p ^ 3) by (apply pow_lt; lra).
    rewrite Rabs_left1.
    + field. lra.
    + apply Rmult_le_reg_r with (norm p ^ 3); [exact H3 |].
      unfold Rdiv. rewrite Rmult_assoc, Rinv_l by lra. lra.
Qed.

End MoreGravityFacts.

(* ================================================================== *)
(** * Further facts: mode and preset names *)
(* ================================================================== *)

Section MoreStrings.

Lemma lower_char_idem (c : ascii) : lower_char (lower_char c) = lower_char c.
Proof.
  destruct c as [[] [] [] [] [] [] [] []]; reflexivity.
Qed.

Lemma is_space_lower (c : ascii) : is_space (lower_char c) = is_space c.
Proof.
  destruct c as [[] [] [] [] [] [] [] []]; reflexivity.
Qed.

Lemma lower_idem (s : string) : lower (lower s) = lower s.
Proof.
  induction s as [| c r IH]; simpl; [reflexivity |].
  now rewrite lower_char_idem, IH.
Qed.

Lemma lower_lstrip (s : string) : lower (lstrip s) = lstrip (lower s).
Proof.
  induction s as [| c r IH]; [reflexivity |].
  cbn [lstrip lower]. rewrite is_space_lower.
  destruct (is_space c); [exact IH | reflexivity].
Qed.

Lemma lower_rstrip (s : string) : lower (rstrip s) = rstrip (lower s).
Proof.
  induction s as [| c r IH]; [reflexivity |].
  cbn [rstrip lower]. rewrite <- IH, is_space_lower.
  destruct (rstrip r) as [| a b]; cbn [lower].
  - destruct (is_space c); reflexivity.
  - reflexivity.
Qed.

Lemma lower_strip (s : string) : lower (strip s) = strip (lower s).
Proof. unfold strip. now rewrite lower_rstrip, lower_lstrip. Qed.

Lemma lstrip_head (s : string) :
  lstrip s = EmptyString \/
  exists c r, lstrip s = String c r /\ is_space c = false.
Proof.
  induction s as [| c r IH]; [now left |].
  cbn [lstrip]. destruct (is_space c) eqn:Hc; [exact IH |].
  right. now exists c, r.
Qed.

Lemma rstrip_head (c : ascii) (r : string) :
  is_space c = false -> exists r', rstrip (String c r) = String c r'.
Proof.
  intros Hc. cbn [rstrip]. destruct (rstrip r) as [| a b].
  - rewrite Hc. now exists EmptyString.
  - now exists (String a b).
Qed.

Lemma rstrip_idem (s : string) : rstrip (rstrip s) = rstrip s.
Proof.
  induction s as [| c r IH]; [reflexivity |].
  cbn [rstrip]. destruct (rstrip r) as [| a b] eqn:Hr.
  - destruct (is_space c) eqn:Hc; [reflexivity |].
    cbn [rstrip]. now rewrite Hc.
  - change (rstrip (String c (String a b)))
      with (match rstrip (String a b) with
            | EmptyString =>
                if is_space c then EmptyString else String c EmptyString
            | r' => String c r'
            end).
    now rewrite IH.
Qed.

Lemma strip_idem (s : string) : strip (strip s) = strip s.
Proof.
  unfold strip.
  assert (H : lstrip (rstrip (lstrip s)) = rstrip (lstrip s)).
  { destruct (lstrip_head s) as [E | (c & r & E & Hc)]; rewrite E.
    - reflexivity.
    - destruct (rstrip_head c r Hc) as [r' E']. rewrite E'.
      cbn [lstrip]. now rewrite Hc. }
  now rewrite H, rstrip_idem.
Qed.

Lemma normalize_idem (s : string) : normalize (normalize s) = normalize s.
Proof.
  unfold normalize. now rewrite lower_strip, lower_idem, strip_idem.
Qed.

(** X13.  Preset and mode names are read up to letter case and
    surrounding white space, and reading a name twice changes nothing:
    [load_config], the gravity field, the actuator's constructor and its
    [set_mode] give the same result for a name and for its normal form
    (lower case, stripped), and setting an actuator's mode to the mode it
    already stores leaves it as it is. *)
Theorem mode_names_normalised (m : string) :
  normalize (normalize m) = normalize m /\
  Config.load_config (normalize m) = Config.load_config m /\
  (forall mu_ g0_ R_earth_ : R,
      GravityField.init mu_ g0_ R_earth_ (normalize m) =
      GravityField.init mu_ g0_ R_earth_ m) /\
  (forall (L_ : R) (B_vec_ : list R) (R_tether_ I_max_ : R),
      ElectrodynamicTether.init L_ B_vec_ R_tether_ I_max_ (normalize m) =
      ElectrodynamicTether.init L_ B_vec_ R_tether_ I_max_ m) /\
  (forall e : ElectrodynamicTether.t,
      ElectrodynamicTether.set_mode e (normalize m) =
      ElectrodynamicTether.set_mode e m /\
      ElectrodynamicTether.set_mode
        (ElectrodynamicTether.set_mode e m)
        (ElectrodynamicTether.mode (ElectrodynamicTether.set_mode e m)) =
      ElectrodynamicTether.set_mode e m).
Proof.
  pose proof (normalize_idem m) as Hn.
  split; [exact Hn |]. split; [| split; [| split]].
  - unfold Config.load_config. now rewrite Hn.
  - intros. unfold GravityField.init. now rewrite Hn.
  - intros. unfold ElectrodynamicTether.init. now rewrite Hn.
  - intros e. unfold ElectrodynamicTether.set_mode. simpl.
    now rewrite Hn.
Qed.

End MoreStrings.

(* ================================================================== *)
(** * Further facts: EnergyTracker *)
(* ================================================================== *)

Section MoreEnergyFacts.

Import EnergyTracker.

Lemma last_nth {A : Type} (l : list A) (d : A) :
  last l d = nth (List.length l - 1) l d.
Proof.
  induction l as [| a r IH]; [reflexivity |].
  destruct r as [| b r']; [reflexivity |].
  change (last (a :: b :: r') d) with (last (b :: r') d).
  rewrite IH.
  replace (List.length (a :: b :: r') - 1)%nat
    with (S (List.length (b :: r') - 1)) by (simpl; lia).
  reflexivity.
Qed.

Lemma nth_snoc_last {A : Type} (l : list A) (x d : A) (n : nat) :
  List.length l = n -> nth n (l ++ [x]) d = x.
Proof. intros <-. apply nth_middle. Qed.

Lemma nth_snoc_before {A : Type} (l : list A) (x d : A) (i : nat) :
  (i < List.length l)%nat -> nth i (l ++ [x]) d = nth i l d.
Proof. intros H. now apply app_nth1. Qed.

Lemma snoc_length {A : Type} (l : list A) (x : A) (n : nat) :
  List.length l = n -> List.length (l ++ [x]) = S n.
Proof. intros <-. rewrite length_app. simpl. lia. Qed.

(** The ledger after any number of calls on a fresh tracker: seven
    columns of one length, the capacity as given, and every row's total
    the sum of its four parts. *)
Lemma ledger_invariant (cap li : R) (calls : list call) :
  let s := apply_calls (init cap li) calls in
  let n := List.length calls in
  (List.length (time s) = n /\ List.length (E_kin s) = n /\
   List.length (E_elastic s) = n /\ List.length (E_grav s) = n /\
   List.length (E_batt s) = n /\ List.length (E_total s) = n /\
   List.length (SoC s) = n) /\
  E_batt_capacity s = cap /\
  (forall i, (i < n)%nat ->
     nth i (E_total s) 0 =
     nth i (E_kin s) 0 + nth i (E_elastic s) 0 + nth i (E_grav s) 0 +
     nth i (E_batt s) 0) /\
  (forall i, (i < n)%nat ->
     nth i (SoC s) 0 = state_of_charge cap (nth i (E_batt s) 0)).
Proof.
  induction calls as [| c cs IH] using rev_ind.
  - simpl. repeat split; intros; lia.
  - cbv zeta in IH. cbv zeta. rewrite apply_calls_snoc.
    set (s0 := apply_calls (init cap li) cs) in *.
    destruct IH as ((L1 & L2 & L3 & L4 & L5 & L6 & L7) & Hcap & Htot & Hsoc).
    rewrite length_app. cbn [List.length]. rewrite Nat.add_1_r.
    unfold apply_call, update. cbn [time E_kin E_elastic E_grav E_batt
                                      E_total SoC E_batt_capacity].
    split.
    { repeat split; now apply snoc_length. }
    split; [exact Hcap |]. split.
    + intros i Hi. destruct (Nat.eq_dec i (List.length cs)) as [-> | Hne].
      * now rewrite !nth_snoc_last by assumption.
      * rewrite !nth_snoc_before by lia. apply Htot. lia.
    + intros i Hi. destruct (Nat.eq_dec i (List.length cs)) as [-> | Hne].
      * rewrite !nth_snoc_last by assumption. now rewrite Hcap.
      * rewrite !nth_snoc_before by lia. apply Hsoc. lia.
Qed.

Lemma summary_nonempty (e : t) :
  time e <> [] ->
  summary e =
  [("E_kin"%string, last (E_kin e) 0);
   ("E_elastic"%string, last (E_elastic e) 0);
   ("E_grav"%string, last (E_grav e) 0);
   ("E_batt"%string, last (E_batt e) 0);
   ("E_total"%string, last (E_total e) 0);
   ("SoC"%string, last (SoC e) 0)].
Proof.
  intros H. unfold summary. destruct (time e); [congruence | reflexivity].
Qed.

(** X16.  The ledger is a table: after any number of [update] calls on
    a fresh tracker its seven columns have one row per call, every row's
    total is the sum of its kinetic, elastic, gravitational and battery
    entries, and its state of charge is the battery entry over the
    capacity.  [export_csv] writes one seven-column row per call under a
    seven-name header, and after at least one call [summary] is the last
    exported row without its time stamp, under the header's names. *)
Theorem ledger_is_a_table (cap li : R) (calls : list call) :
  let s := apply_calls (init cap li) calls in
  let n := List.length calls in
  (List.length (time s) = n /\ List.length (E_kin s) = n /\
   List.length (E_elastic s) = n /\ List.length (E_grav s) = n /\
   List.length (E_batt s) = n /\ List.length (E_total s) = n /\
   List.length (SoC s) = n) /\
  (forall i, (i < n)%nat ->
     nth i (E_total s) 0 =
     nth i (E_kin s) 0 + nth i (E_elastic s) 0 + nth i (E_grav s) 0 +
     nth i (E_batt s) 0) /\
  (0 < cap -> forall i, (i < n)%nat ->
     nth i (SoC s) 0 = nth i (E_batt s) 0 / cap) /\
  List.length (snd (export_csv s)) = n /\
  Forall (fun r => List.length r = List.length (fst (export_csv s)))
         (snd (export_csv s)) /\
  (calls <> [] ->
   map fst (summary s) = tl (fst (export_csv s)) /\
   map snd (summary s) = tl (last (snd (export_csv s)) [])).
Proof.
  intros s n.
  destruct (ledger_invariant cap li calls) as (HL & Hcap & Htot & Hsoc).
  fold s in HL, Hcap, Htot, Hsoc. fold n in HL, Htot, Hsoc.
  split; [exact HL |]. split; [exact Htot |]. split; [| split; [| split]].
  - intros Hc i Hi. rewrite (Hsoc i Hi). unfold state_of_charge.
    destruct (Rgt_dec cap 0); [reflexivity | lra].
  - unfold export_csv. cbn [snd]. rewrite length_map, length_seq. apply HL.
  - unfold export_csv. cbn [fst snd]. apply Forall_forall.
    intros r Hr. apply in_map_iff in Hr as (i & <- & _). reflexivity.
  - intros Hne. destruct (exists_last Hne) as (cs & c & E).
    unfold s. rewrite E, apply_calls_snoc.
    destruct (ledger_invariant cap li cs)
      as ((L1 & L2 & L3 & L4 & L5 & L6 & L7) & _).
    cbv zeta in L1, L2, L3, L4, L5, L6, L7.
    set (s0 := apply_calls (init cap li) cs) in *.
    rewrite summary_nonempty
      by (unfold apply_call, update; cbn [time]; now destruct (time s0)).
    unfold export_csv, apply_call, update.
    cbn [time E_kin E_elastic E_grav E_batt E_total SoC fst snd map].
    rewrite !last_last.
    rewrite (snoc_length _ _ _ L1), seq_S, map_app.
    cbn [map]. rewrite last_last.
    cbn [Nat.add map tl fst snd].
    rewrite (nth_snoc_last _ _ _ _ L2), (nth_snoc_last _ _ _ _ L3),
      (nth_snoc_last _ _ _ _ L4), (nth_snoc_last _ _ _ _ L5),
      (nth_snoc_last _ _ _ _ L6), (nth_snoc_last _ _ _ _ L7).
    split; reflexivity.
Qed.

(** Calls that all pass the same dt stamp row i with i * dt. *)
Lemma ledger_time_rows (cap li dt : R) (calls : list call) :
  Forall (fun c => call_dt c = dt) calls ->
  forall i, (i < List.length calls)%nat ->
            nth i (time (apply_calls (init cap li) calls)) 0 = INR i * dt.
Proof.
  assert (Hlen : forall cs, List.length (time (apply_calls (init cap li) cs))
                            = List.length cs).
  { intros cs. apply (ledger_invariant cap li cs). }
  intros Hall.
  induction calls as [| c cs IH] using rev_ind; [simpl; intros; lia |].
  apply Forall_app in Hall as [Hcs Hc].
  apply Forall_cons_iff in Hc as [Hc _].
  specialize (IH Hcs). intros i Hi.
  rewrite length_app in Hi. cbn [List.length] in Hi.
  rewrite apply_calls_snoc. unfold apply_call, update. cbn [time].
  pose proof (Hlen cs) as L.
  set (s0 := apply_calls (init cap li) cs) in *.
  destruct (Nat.eq_dec i (List.length cs)) as [-> | Hne].
  - rewrite (nth_snoc_last _ _ _ _ L).
    destruct (Nat.eq_dec (List.length cs) 0) as [E0 | E0].
    + rewrite E0 in *. destruct (time s0); [simpl; ring | discriminate L].
    + replace (match time s0 with
               | [] => 0
               | _ :: _ => last (time s0) 0 + call_dt c
               end) with (last (time s0) 0 + call_dt c)
        by (destruct (time s0); [simpl in L; lia | reflexivity]).
      rewrite last_nth, L, IH, Hc by lia.
      replace (INR (List.length cs))
        with (INR (S (List.length cs - 1))) by (f_equal; lia).
      rewrite S_INR. ring.
  - rewrite nth_snoc_before by lia. apply IH. lia.
Qed.

(** X17.  The ledger's clock: the first row is stamped 0 whatever the
    first call's dt, and when every call passes the same dt, row i is
    stamped i * dt; so after n calls the last stamp is (n - 1) * dt. *)
Theorem ledger_time_stamps (cap li : R) (calls : list call) :
  let s := apply_calls (init cap li) calls in
  (calls <> [] -> nth 0 (time s) 0 = 0) /\
  (forall dt : R,
      Forall (fun c => call_dt c = dt) calls ->
      (forall i, (i < List.length calls)%nat -> nth i (time s) 0 = INR i * dt) /\
      (calls <> [] ->
       last (time s) 0 = INR (List.length calls - 1) * dt)).
Proof.
  intros s.
  assert (Hlen : forall cs, List.length (time (apply_calls (init cap li) cs))
                            = List.length cs).
  { intros cs. apply (ledger_invariant cap li cs). }
  assert (Hfirst : calls <> [] -> nth 0 (time s) 0 = 0).
  { unfold s. induction calls as [| c cs IH] using rev_ind;
      [congruence |]. intros _.
    rewrite apply_calls_snoc. unfold apply_call, update. cbn [time].
    destruct cs as [| c0 cs'] using rev_ind.
    - reflexivity.
    - clear IHcs'. rewrite nth_snoc_before.
      + apply IH. now destruct cs'.
      + rewrite Hlen, length_app. simpl. lia. }
  split; [exact Hfirst |].
  intros dt Hall.
  pose proof (ledger_time_rows cap li dt calls Hall) as Hrows.
  fold s in Hrows.
  split; [exact Hrows |].
  intros Hne. rewrite last_nth. unfold s at 1. rewrite Hlen.
  apply Hrows. destruct calls; [congruence | simpl; lia].
Qed.

(** The printing state after any number of calls on a fresh tracker. *)
Lemma log_invariant (cap li : R) (calls : list call) :
  let s := apply_calls (init cap li) calls in
  let printed := map log_t (stdout s) in
  log_interval_s s = py_max 0 li /\
  (List.length printed <= List.length calls)%nat /\
  ((printed = [] /\ _t_last_print s = -1e9) \/
   (printed <> [] /\ last printed 0 = _t_last_print s)) /\
  (forall i, (S i < List.length printed)%nat ->
     py_max 0 li <= nth (S i) printed 0 - nth i printed 0) /\
  (calls <> [] -> 0 < li <= 1e9 -> nth 0 printed 1 = 0).
Proof.
  induction calls as [| c cs IH] using rev_ind.
  - simpl. split; [reflexivity |]. split; [lia |].
    split; [left; split; reflexivity |].
    split; [intros i Hi; lia | congruence].
  - cbv zeta in IH. cbv zeta. rewrite apply_calls_snoc.
    destruct (ledger_invariant cap li cs) as ((L1 & _) & _).
    cbv zeta in L1.
    set (s0 := apply_calls (init cap li) cs) in *.
    destruct IH as (Hint & Hlen & Hlast & Hgap & Hhead).
    rewrite length_app. cbn [List.length].
    unfold apply_call, update.
    cbn [log_interval_s stdout _t_last_print].
    set (t_next := match time s0 with [] => 0 | _ => last (time s0) 0 + _ end).
    destruct (Rgt_dec (log_interval_s s0) 0) as [Hpos | Hnpos].
    2:{ split; [exact Hint |]. split; [lia |]. split; [exact Hlast |].
        split; [exact Hgap |]. intros _ Hli.
        rewrite Hint in Hnpos. unfold py_max in Hnpos.
        destruct (Rlt_dec 0 li); lra. }
    destruct (Rge_dec (t_next - _t_last_print s0) (log_interval_s s0))
      as [Hge | Hlt].
    2:{ split; [exact Hint |]. split; [lia |]. split; [exact Hlast |].
        split; [exact Hgap |]. intros _ Hli.
        destruct cs as [| c0 cs'] using rev_ind.
        - exfalso. apply Hlt. unfold t_next, s0. simpl.
          unfold py_max. destruct (Rlt_dec 0 li); lra.
        - apply Hhead; [now destruct cs' | exact Hli]. }
    rewrite map_app, length_app. cbn [map List.length log_t].
    split; [exact Hint |]. split; [lia |]. split; [| split].
    + right. split; [now destruct (map log_t (stdout s0)) |].
      apply last_last.
    + intros i Hi.
      destruct (Nat.eq_dec (S i) (List.length (map log_t (stdout s0))))
        as [E | Hne].
      * rewrite E, nth_middle.
        rewrite nth_snoc_before by lia.
        destruct Hlast as [[Hnil _] | [_ Hl]].
        { rewrite Hnil in E. simpl in E. lia. }
        { rewrite last_nth in Hl. rewrite <- E in Hl.
          replace (S i - 1)%nat with i in Hl by lia.
          rewrite Hl, <- Hint. lra. }
      * rewrite !nth_snoc_before by lia. apply Hgap. lia.
    + intros _ Hli.
      destruct cs as [| c0 cs'] using rev_ind.
      * reflexivity.
      * rewrite app_nth1.
        { apply Hhead; [now destruct cs' | exact Hli]. }
        { assert (H0 : nth 0 (map log_t (stdout s0)) 1 = 0)
            by (apply Hhead; [now destruct cs' | exact Hli]).
          destruct (map log_t (stdout s0)); simpl in *; [lra | lia]. }
Qed.

(** X18.  What the tracker prints: with a log interval <= 0 it never
    prints; otherwise it prints at most one line per call, two successive
    lines are stamped at least the interval apart, and (for an interval
    up to 1e9) the first call always prints, at time 0. *)
Theorem log_lines_are_spaced (cap li : R) (calls : list call) :
  let s := apply_calls (init cap li) calls in
  let printed := map log_t (stdout s) in
  (li <= 0 -> stdout s = []) /\
  (List.length (stdout s) <= List.length calls)%nat /\
  (forall i, (S i < List.length printed)%nat ->
     li <= nth (S i) printed 0 - nth i printed 0) /\
  (calls <> [] -> 0 < li <= 1e9 ->
   stdout s <> [] /\ nth 0 printed 0 = 0).
Proof.
  intros s printed.
  destruct (log_invariant cap li calls) as (Hint & Hlen & Hlast & Hgap & Hhead).
  fold s in Hint, Hlen, Hlast, Hgap, Hhead.
  fold printed in Hlen, Hlast, Hgap, Hhead.
  assert (Hli : li <= py_max 0 li)
    by (unfold py_max; destruct (Rlt_dec 0 li); lra).
  split; [| split; [| split]].
  - intros Hle.
    assert (H : log_interval_s s <= 0 /\ stdout s = []); [| apply H].
    unfold s, apply_calls.
    apply (fold_left_invariant
             (fun e => log_interval_s e <= 0 /\ stdout e = [])).
    + intros e c [H1 H2]. unfold apply_call, update.
      cbn [log_interval_s stdout].
      destruct (Rgt_dec (log_interval_s e) 0); [lra | now split].
    + simpl. split; [| reflexivity].
      unfold py_max. destruct (Rlt_dec 0 li); lra.
  - unfold printed in Hlen. now rewrite length_map in Hlen.
  - intros i Hi. eapply Rle_trans; [exact Hli | now apply Hgap].
  - intros Hne Hrange. specialize (Hhead Hne Hrange).
    assert (Hp : printed <> []).
    { intros E. rewrite E in Hhead. simpl in Hhead. lra. }
    split.
    + intros E. apply Hp. unfold printed. now rewrite E.
    + destruct printed; [congruence | exact Hhead].
Qed.

End MoreEnergyFacts.

(* ================================================================== *)
(** * Further facts: GLIDEIntegrator *)
(* ================================================================== *)

Section MoreIntegratorFacts.

Import GLIDEIntegrator.

(** What a sub-step leaves alone, and how it moves the anchor. *)
Lemma substep_frame (dt_sub current_cmd : R) (s : t) :
  let s' := substep_in_range dt_sub current_cmd s in
  config s' = config s /\ dt s' = dt s /\
  anchor_vel s' = anchor_vel s /\
  anchor_pos s' = anchor_pos s +v anchor_vel s *v dt_sub /\
  motor s' = motor s /\ energy s' = energy s /\ gravity s' = gravity s /\
  max_substep_dt s' = max_substep_dt s /\
  constraint_iterations s' = constraint_iterations s /\
  velocity_limit s' = velocity_limit s /\
  step_count s' = step_count s.
Proof.
  unfold substep_in_range, substep_after, _build_external_forces. cbv zeta.
  destruct (DynamicTether.get_payload_state _) as [pp pv].
  destruct (ElectrodynamicTether.update _ _ _ _ _) as [e F].
  simpl. repeat split.
Qed.

(** What the control-rate part of a step leaves alone, and how the motor
    sets the anchor velocity. *)
Lemma step_control_more (s : t) (omega_cmd : R) :
  let s1 := step_control_in_range s omega_cmd in
  let v := MotorSystem.omega (motor s1) * MotorSystem.R_spool (motor s1) in
  config s1 = config s /\ anchor_pos s1 = anchor_pos s /\
  anchor_vel s1 = (0, v) /\
  MotorSystem.anchor_length (motor s1) =
  MotorSystem.anchor_length (motor s) + v * dt s /\
  gravity s1 = gravity s /\
  constraint_iterations s1 = constraint_iterations s /\
  velocity_limit s1 = velocity_limit s /\
  step_count s1 = step_count s.
Proof.
  unfold step_control_in_range, step_control_after, MotorSystem.update.
  simpl. repeat split.
Qed.

Lemma anchor_after_substeps (dt_sub current_cmd : R) (n : nat) (s : t) :
  let s' := Nat.iter n (substep_in_range dt_sub current_cmd) s in
  anchor_vel s' = anchor_vel s /\
  anchor_pos s' = anchor_pos s +v anchor_vel s *v (INR n * dt_sub).
Proof.
  induction n as [| m IH].
  - simpl. split; [reflexivity |]. apply vec_eq; simpl; ring.
  - cbv zeta in IH. cbv zeta. destruct IH as [Hv Hp].
    change (Nat.iter (S m) (substep_in_range dt_sub current_cmd) s)
      with (substep_in_range dt_sub current_cmd
                    (Nat.iter m (substep_in_range dt_sub current_cmd) s)).
    destruct (substep_frame dt_sub current_cmd
                (Nat.iter m (substep_in_range dt_sub current_cmd) s))
      as (_ & _ & Hv' & Hp' & _).
    cbv zeta in Hv', Hp'. rewrite Hv', Hp', Hv, Hp. split; [reflexivity |].
    rewrite S_INR. apply vec_eq; simpl; ring.
Qed.

Lemma integrate_row0 (s : DynamicTether.t) (h : R) :
  row 0 (DynamicTether.positions (DynamicTether.integrate s h)) =
  row 0 (DynamicTether.positions s).
Proof.
  unfold DynamicTether.integrate.
  destruct (Rle_dec h 0); [reflexivity |]. simpl.
  unfold row. now rewrite nth_on_tail_0.
Qed.

Lemma enforce_constraints_row0 (s : DynamicTether.t) (h : R) (it : Z) :
  DynamicTether.wf s ->
  (0 < h -> row 0 (DynamicTether.positions s) =
            row 0 (DynamicTether._pos_prev s)) ->
  row 0 (DynamicTether.positions (DynamicTether.enforce_constraints s h it)) =
  row 0 (DynamicTether.positions s).
Proof.
  intros (HN & Hp & _) Hprev. unfold DynamicTether.enforce_constraints.
  destruct (Rle_dec h 0); [reflexivity |].
  destruct (Z.max 0 it =? 0)%Z eqn:Eit; [reflexivity |].
  apply Z.eqb_neq in Eit. simpl.
  destruct (Z.to_nat (Z.max 0 it)) as [| m] eqn:Em; [lia |].
  change (Nat.iter (S m) (DynamicTether.constraint_pass s)
                   (DynamicTether.positions s))
    with (DynamicTether.constraint_pass s
            (Nat.iter m (DynamicTether.constraint_pass s)
                      (DynamicTether.positions s))).
  rewrite constraint_pass_anchor.
  - symmetry. apply Hprev. lra.
  - rewrite constraint_iter_length, Hp. lia.
Qed.

(** After a sub-step the tether's first node sits on the anchor. *)
Lemma substep_anchor_node (dt_sub current_cmd : R) (s : t) :
  wf s ->
  row 0 (DynamicTether.positions (tether (substep_in_range dt_sub current_cmd s))) =
  anchor_pos (substep_in_range dt_sub current_cmd s).
Proof.
  intros [Hwf Hedt].
  destruct (substep_frame dt_sub current_cmd s) as (_ & _ & _ & Hpos & _).
  cbv zeta in Hpos. rewrite Hpos. clear Hpos.
  unfold substep_in_range, substep_after.
  set (a := anchor_pos s +v anchor_vel s *v dt_sub).
  set (s1 := with_tether _ _).
  assert (Hwf1 : DynamicTether.wf (tether s1)).
  { unfold s1; simpl.
    apply compute_internal_forces_wf, anchor_update_wf. exact Hwf. }
  assert (Hrow1 : row 0 (DynamicTether.positions (tether s1)) = a).
  { unfold s1; simpl. unfold row. apply nth_set_at_same.
    destruct Hwf as (_ & Hp & _). rewrite Hp. lia. }
  destruct (build_external_forces_frame s1 current_cmd) as (Et & Elen & _).
  destruct (_build_external_forces s1 current_cmd) as [s2 F_ext].
  simpl in Et, Elen.
  set (t3 := DynamicTether.add_external_forces (tether s2) F_ext).
  assert (Hwf3 : DynamicTether.wf t3).
  { unfold t3. apply add_external_forces_wf.
    - rewrite Et, Elen. apply Hwf1.
    - rewrite Et. exact Hwf1. }
  assert (Hrow3 : row 0 (DynamicTether.positions t3) = a).
  { unfold t3. simpl. rewrite Et. exact Hrow1. }
  assert (Hrow : row 0 (DynamicTether.positions
                          (DynamicTether.enforce_constraints
                             (DynamicTether.integrate t3 dt_sub) dt_sub
                             (constraint_iterations s2))) = a).
  { rewrite enforce_constraints_row0.
    - now rewrite integrate_row0.
    - now apply integrate_wf.
    - intros Hh. now apply integrate_anchor_prev. }
  simpl. destruct (Rgt_dec (velocity_limit s2) 0); simpl; exact Hrow.
Qed.

(** A step on an integrator whose tether has no row stops at the first
    [anchor_update]. *)
Lemma step_empty (s : t) (omega_cmd current_cmd : R) :
  DynamicTether.positions (tether s) = [] ->
  step s omega_cmd current_cmd = Raise IndexError.
Proof.
  intros H. unfold step. now rewrite (step_control_empty _ _ H).
Qed.

Lemma iter_substep_frame (dt_sub current_cmd : R) (n : nat) (s : t) :
  let s' := Nat.iter n (substep_in_range dt_sub current_cmd) s in
  config s' = config s /\ dt s' = dt s /\ motor s' = motor s /\
  energy s' = energy s /\ gravity s' = gravity s /\
  max_substep_dt s' = max_substep_dt s /\
  constraint_iterations s' = constraint_iterations s /\
  velocity_limit s' = velocity_limit s /\
  step_count s' = step_count s /\
  (wf s -> wf s').
Proof.
  induction n as [| m IH]; [simpl; tauto |].
  cbv zeta in IH. cbv zeta.
  change (Nat.iter (S m) (substep_in_range dt_sub current_cmd) s)
    with (substep_in_range dt_sub current_cmd
                  (Nat.iter m (substep_in_range dt_sub current_cmd) s)).
  destruct (substep_frame dt_sub current_cmd
              (Nat.iter m (substep_in_range dt_sub current_cmd) s))
    as (F1 & F2 & _ & _ & F3 & F4 & F5 & F6 & F7 & F8 & F9).
  cbv zeta in F1, F2, F3, F4, F5, F6, F7, F8, F9.
  destruct IH as (I1 & I2 & I3 & I4 & I5 & I6 & I7 & I8 & I9 & Iwf).
  rewrite F1, F2, F3, F4, F5, F6, F7, F8, F9.
  repeat (split; [assumption |]).
  intros Hwf. apply substep_wf, Iwf, Hwf.
Qed.

(** An integrator built with N = -1 has a tether without rows. *)
Lemma init_no_rows (p : params) (s : t) :
  p_N p = (-1)%Z -> init p = Ok s ->
  DynamicTether.positions (tether s) = [].
Proof.
  intros HN. unfold init, DynamicTether.init. rewrite HN.
  change (-1 =? 0)%Z with false. change (-1 + 1 <? 0)%Z with false.
  change (range (-1 + 1)) with (@nil nat). cbv zeta iota.
  destruct (Req_dec_T _ 0); cbn [bind]; [discriminate |].
  destruct (ElectrodynamicTether.init _ _ _ _ _); cbn [bind];
    [| discriminate].
  intros H. injection H as <-. reflexivity.
Qed.

(** X20.  What a step returns.  On an integrator whose tether has no
    row, as the one built with N = -1 is, it raises the IndexError of the
    first [anchor_update].  On a well-shaped integrator it raises a
    ZeroDivisionError exactly when dt is zero, and otherwise returns a
    state with the step counter one higher, exactly one more row in the
    energy ledger, the same dt and configuration, and the shape invariant
    kept. *)
Theorem step_outcome (s : t) (omega_cmd current_cmd : R) :
  (DynamicTether.positions (tether s) = [] ->
   step s omega_cmd current_cmd = Raise IndexError) /\
  (forall p : params,
      p_N p = (-1)%Z -> init p = Ok s ->
      step s omega_cmd current_cmd = Raise IndexError) /\
  (wf s -> dt s = 0 ->
   step s omega_cmd current_cmd = Raise ZeroDivisionError) /\
  (wf s -> dt s <> 0 ->
   exists s' : t,
     step s omega_cmd current_cmd = Ok s' /\
     step_count s' = (step_count s + 1)%Z /\
     List.length (EnergyTracker.time (energy s')) =
     S (List.length (EnergyTracker.time (energy s))) /\
     dt s' = dt s /\ config s' = config s /\
     wf s').
Proof.
  destruct (step_control_frame s omega_cmd) as (Edt & _ & Een).
  destruct (step_control_more s omega_cmd) as (Ecfg & _ & _ & _ & _ & _ & _ & Esc).
  cbv zeta in Ecfg, Esc.
  split; [apply step_empty |].
  split; [intros p HN Hs; apply step_empty; now apply (init_no_rows p) |].
  split; intros Hwf Hdt.
  - destruct (substep_plan_outcome (step_control_in_range s omega_cmd))
      as [Hplan _].
    unfold step. rewrite (step_control_ok _ _ Hwf). cbn [bind].
    rewrite Hplan by congruence. reflexivity.
  - destruct (step_unfold s omega_cmd current_cmd Hwf Hdt) as (n & Hn & E).
    eexists. split; [exact E |].
    destruct (iter_substep_frame (dt s / IZR n) current_cmd (Z.to_nat n)
                (step_control_in_range s omega_cmd))
      as (I1 & I2 & I3 & I4 & I5 & I6 & I7 & I8 & I9 & Iwf).
    cbv zeta in I1, I2, I3, I4, I5, I6, I7, I8, I9, Iwf.
    unfold step_bookkeeping.
    cbn [step_count energy dt config].
    rewrite I9, Esc, I2, Edt, I1, Ecfg, I4, Een.
    split; [reflexivity |]. split.
    { unfold EnergyTracker.update. cbn [EnergyTracker.time].
      rewrite length_app. simpl. lia. }
    split; [reflexivity |]. split; [reflexivity |].
    apply step_control_wf with (omega_cmd := omega_cmd) in Hwf.
    apply Iwf in Hwf. exact Hwf.
Qed.

(** X21.  How a step moves the anchor: the anchor velocity becomes
    (0, v) with v the motor's new angular velocity times the spool radius,
    the anchor moves by v * dt along y whatever the number of sub-steps,
    which is the amount the motor adds to its pay-out length, and the
    tether's first node ends on the anchor. *)
Theorem step_anchor_kinematics (s s' : t) (omega_cmd current_cmd : R) :
  wf s -> step s omega_cmd current_cmd = Ok s' ->
  let v := MotorSystem.omega (motor s') * MotorSystem.R_spool (motor s') in
  anchor_vel s' = (0, v) /\
  anchor_pos s' = anchor_pos s +v (0, v * dt s) /\
  MotorSystem.anchor_length (motor s') =
  MotorSystem.anchor_length (motor s) + v * dt s /\
  row 0 (DynamicTether.positions (tether s')) = anchor_pos s'.
Proof.
  intros Hwf Hstep.
  destruct (step_unfold_inv _ _ _ _ Hstep) as (Hdt & n & Hn & ->).
  set (s1 := step_control_in_range s omega_cmd).
  set (h := dt s / IZR n).
  destruct (step_control_more s omega_cmd)
    as (_ & Hp1 & Hv1 & Hlen1 & _).
  cbv zeta in Hp1, Hv1, Hlen1. fold s1 in Hp1, Hv1, Hlen1.
  destruct (anchor_after_substeps h current_cmd (Z.to_nat n) s1) as [Hv Hp].
  cbv zeta in Hv, Hp.
  destruct (iter_substep_frame h current_cmd (Z.to_nat n) s1)
    as (_ & _ & Hm & _).
  cbv zeta in Hm.
  unfold step_bookkeeping. cbn [anchor_vel anchor_pos motor tether].
  rewrite Hm, Hv, Hp, Hv1, Hp1.
  assert (Hnh : INR (Z.to_nat n) * h = dt s).
  { rewrite INR_IZR_INZ, Z2Nat.id by lia. unfold h. field.
    apply not_0_IZR. lia. }
  split; [reflexivity |]. split; [| split; [exact Hlen1 |]].
  - rewrite Hnh. apply vec_eq; simpl; ring.
  - destruct (Z.to_nat n) as [| m] eqn:Em; [lia |].
    change (Nat.iter (S m) (substep_in_range h current_cmd) s1)
      with (substep_in_range h current_cmd (Nat.iter m (substep_in_range h current_cmd) s1)).
    rewrite substep_anchor_node.
    + destruct (substep_frame h current_cmd
                  (Nat.iter m (substep_in_range h current_cmd) s1))
        as (_ & _ & _ & Hq & _).
      cbv zeta in Hq. rewrite Hq.
      destruct (anchor_after_substeps h current_cmd m s1) as [Hv' Hp'].
      cbv zeta in Hv', Hp'. rewrite Hv', Hp', Hv1, Hp1, S_INR.
      apply vec_eq; unfold vadd, vscale; cbn [fst snd]; ring.
    + apply iter_substep_frame. now apply step_control_wf.
Qed.

(** The state a step returns is the one before it after one call of the
    energy tracker, with the integrator's dt, whatever the number and the
    size of the sub-steps. *)
Lemma step_result_call (s : t) (omega_cmd current_cmd h : R) (n : nat) :
  let s' := step_bookkeeping
              (Nat.iter n (substep_in_range h current_cmd)
                        (step_control_in_range s omega_cmd)) in
  exists c : EnergyTracker.call,
    energy s' = EnergyTracker.apply_call (energy s) c /\
    EnergyTracker.call_dt c = dt s /\
    step_count s' = (step_count s + 1)%Z /\
    dt s' = dt s /\ config s' = config s /\
    (wf s -> wf s' /\ EnergyTracker.call_ok c).
Proof.
  destruct (step_control_frame s omega_cmd) as (Edt & _ & Een).
  destruct (step_control_more s omega_cmd)
    as (Ecfg & _ & _ & _ & _ & _ & _ & Esc).
  cbv zeta in Ecfg, Esc.
  destruct (iter_substep_frame h current_cmd n
              (step_control_in_range s omega_cmd))
    as (I1 & I2 & I3 & I4 & I5 & I6 & I7 & I8 & I9 & Iwf).
  cbv zeta in I1, I2, I3, I4, I5, I6, I7, I8, I9, Iwf. cbv zeta.
  set (sN := Nat.iter _ _ _) in *.
  exists (EnergyTracker.mk_call (dt sN) (tether sN) (motor sN) (edt sN)
                                (Some (gravity sN))).
  unfold step_bookkeeping, EnergyTracker.apply_call.
  cbn [energy step_count dt config EnergyTracker.call_dt
       EnergyTracker.call_tether EnergyTracker.call_motor
       EnergyTracker.call_edt EnergyTracker.call_gravity].
  rewrite I4, Een, I2, Edt, I9, Esc, I1, Ecfg.
  repeat (split; [reflexivity |]).
  intros Hwf. apply step_control_wf with (omega_cmd := omega_cmd) in Hwf.
  apply Iwf in Hwf. split.
  - destruct Hwf as [H1 H2]. split; assumption.
  - unfold EnergyTracker.call_ok. simpl. apply Hwf.
Qed.

(** A step of a well-shaped integrator with dt <> 0 returns, and is one
    call of the energy tracker. *)
Lemma step_call (s : t) (omega_cmd current_cmd : R) :
  wf s -> dt s <> 0 ->
  exists (s' : t) (c : EnergyTracker.call),
    step s omega_cmd current_cmd = Ok s' /\
    energy s' = EnergyTracker.apply_call (energy s) c /\
    EnergyTracker.call_dt c = dt s /\
    step_count s' = (step_count s + 1)%Z /\
    dt s' = dt s /\ config s' = config s /\
    wf s' /\ EnergyTracker.call_ok c.
Proof.
  intros Hwf Hdt.
  destruct (step_unfold s omega_cmd current_cmd Hwf Hdt) as (n & Hn & E).
  destruct (step_result_call s omega_cmd current_cmd (dt s / IZR n)
              (Z.to_nat n)) as (c & H1 & H2 & H3 & H4 & H5 & H6).
  eexists. exists c. split; [exact E |].
  repeat (split; [assumption |]). now apply H6.
Qed.

(** Whenever a step returns, it was one call of the energy tracker. *)
Lemma step_call_inv (s s' : t) (omega_cmd current_cmd : R) :
  step s omega_cmd current_cmd = Ok s' ->
  exists c : EnergyTracker.call,
    energy s' = EnergyTracker.apply_call (energy s) c /\
    EnergyTracker.call_dt c = dt s /\
    step_count s' = (step_count s + 1)%Z /\
    dt s' = dt s /\ config s' = config s /\
    (wf s -> wf s' /\ EnergyTracker.call_ok c).
Proof.
  intros Hstep.
  destruct (step_unfold_inv _ _ _ _ Hstep) as (_ & n & _ & ->).
  apply step_result_call.
Qed.

(** Whenever the loop of [run] returns, it has made one tracker call per
    step index. *)
Lemma run_loop_inv (op cp : option (R -> R)) (steps : list nat) :
  forall s s' : t,
    run_loop s op cp steps = Ok s' ->
    exists calls : list EnergyTracker.call,
      energy s' = EnergyTracker.apply_calls (energy s) calls /\
      List.length calls = List.length steps /\
      Forall (fun c => EnergyTracker.call_dt c = dt s) calls /\
      step_count s' = (step_count s + Z.of_nat (List.length steps))%Z /\
      dt s' = dt s /\ config s' = config s /\
      (wf s -> wf s' /\ Forall EnergyTracker.call_ok calls).
Proof.
  induction steps as [| i rest IH]; intros s s' Hrun.
  - simpl in Hrun. injection Hrun as <-. exists []. simpl.
    split; [reflexivity |]. split; [reflexivity |].
    split; [constructor |]. split; [lia |].
    split; [reflexivity |]. split; [reflexivity |].
    intros W. split; [exact W | constructor].
  - cbn [run_loop] in Hrun.
    destruct (step s _ _) as [s1 | e] eqn:E; cbn [bind] in Hrun;
      [| discriminate Hrun].
    destruct (step_call_inv _ _ _ _ E)
      as (c & Een & Ec & Esc & Edt & Ecfg & Hwf1).
    destruct (IH s1 s' Hrun)
      as (calls & Een' & Elen & Hall & Esc' & Edt' & Ecfg' & Hwf').
    exists (c :: calls).
    split.
    { rewrite Een', Een. reflexivity. }
    split; [simpl; lia |]. split.
    { constructor; [exact Ec |]. now rewrite <- Edt. }
    split; [cbn [List.length]; lia |].
    split; [congruence |]. split; [congruence |].
    intros Hwf. destruct (Hwf1 Hwf) as [W1 C1].
    destruct (Hwf' W1) as [W' C']. split; [exact W' |].
    constructor; assumption.
Qed.

(** The loop of [run] on a well-shaped integrator with dt <> 0
    finishes. *)
Lemma run_loop_returns (op cp : option (R -> R)) (steps : list nat) :
  forall s : t,
    wf s -> dt s <> 0 -> exists s' : t, run_loop s op cp steps = Ok s'.
Proof.
  induction steps as [| i rest IH]; intros s Hwf Hdt.
  - exists s. reflexivity.
  - cbn [run_loop].
    destruct (step_call s
                (match op with Some f => f (INR i * dt s) | None => 0 end)
                (match cp with Some f => f (INR i * dt s) | None => 0 end)
                Hwf Hdt)
      as (s1 & c & E & _ & _ & _ & Edt & _ & Hwf1 & _).
    rewrite E. cbn [bind]. apply IH; [exact Hwf1 | congruence].
Qed.

(** Both together: the loop finishes, with one tracker call per step
    index. *)
Lemma run_loop_calls (op cp : option (R -> R)) (steps : list nat) (s : t) :
  wf s -> dt s <> 0 ->
  exists (s' : t) (calls : list EnergyTracker.call),
    run_loop s op cp steps = Ok s' /\
    energy s' = EnergyTracker.apply_calls (energy s) calls /\
    List.length calls = List.length steps /\
    Forall (fun c => EnergyTracker.call_dt c = dt s) calls /\
    step_count s' = (step_count s + Z.of_nat (List.length steps))%Z /\
    dt s' = dt s /\ config s' = config s /\
    wf s' /\ Forall EnergyTracker.call_ok calls.
Proof.
  intros Hwf Hdt.
  destruct (run_loop_returns op cp steps s Hwf Hdt) as [s' E].
  destruct (run_loop_inv op cp steps s s' E)
    as (calls & H1 & H2 & H3 & H4 & H5 & H6 & H7).
  exists s', calls. split; [exact E |].
  repeat (split; [assumption |]). now apply H7.
Qed.

Lemma apply_calls_time_length (e : EnergyTracker.t)
  (calls : list EnergyTracker.call) :
  List.length (EnergyTracker.time (EnergyTracker.apply_calls e calls)) =
  (List.length (EnergyTracker.time e) + List.length calls)%nat.
Proof.
  induction calls as [| c cs IH] using rev_ind; [simpl; lia |].
  rewrite apply_calls_snoc. unfold EnergyTracker.apply_call.
  unfold EnergyTracker.update at 1. cbn [EnergyTracker.time].
  rewrite !length_app, IH. simpl. lia.
Qed.

Lemma init_fresh (p : params) (s : t) :
  init p = Ok s ->
  energy s = EnergyTracker.init (p_battery_capacity_J p) (p_log_interval p) /\
  dt s = p_dt p /\ step_count s = 0%Z /\ config s = p /\
  anchor_pos s = (0, 0) /\ anchor_vel s = vzero /\
  motor s = MotorSystem.init (p_R_spool p) (p_J_m p) (p_tau_max p)
                             (p_b_m p) (p_eta p) /\
  gravity s = GravityField.init (p_mu p) (p_local_g p) (p_R_earth p)
                                (p_gravity_mode p).
Proof.
  unfold init.
  destruct (DynamicTether.init _ _ _ _ _ _ _) as [tth | e]; simpl;
    [| discriminate].
  destruct (ElectrodynamicTether.init _ _ _ _ _) as [ed | e]; simpl;
    [| discriminate].
  intros H. injection H as <-. simpl.
  repeat (split; [reflexivity |]).
  unfold GravityField.init. now rewrite normalize_idem.
Qed.

(** The loop of [run] over [range steps], for any number of steps, on a
    well-shaped integrator with dt <> 0: it finishes, and the step counter
    and the ledger have grown by the number of steps taken (none for a
    negative count). *)
Lemma run_loop_range (s : t) (steps : Z) (op cp : option (R -> R)) :
  wf s -> dt s <> 0 ->
  exists s' : t,
    run_loop s op cp (range steps) = Ok s' /\
    step_count s' = (step_count s + Z.max 0 steps)%Z /\
    List.length (EnergyTracker.time (energy s')) =
    (List.length (EnergyTracker.time (energy s)) + Z.to_nat steps)%nat /\
    dt s' = dt s /\ wf s' /\
    ((1 <= steps)%Z ->
     map fst (EnergyTracker.summary (energy s')) =
     ["E_kin"; "E_elastic"; "E_grav"; "E_batt"; "E_total"; "SoC"]%string).
Proof.
  intros Hwf Hdt.
  destruct (run_loop_calls op cp (range steps) s Hwf Hdt)
    as (s' & calls & E & Een & Elen & _ & Esc & Edt & _ & Hwf' & _).
  rewrite range_length in Elen, Esc.
  exists s'. split; [exact E |]. split; [rewrite Esc; lia |]. split.
  { rewrite Een, apply_calls_time_length. lia. }
  split; [exact Edt |]. split; [exact Hwf' |].
  intros H1. rewrite summary_nonempty; [reflexivity |].
  intros Et. apply (f_equal (@List.length R)) in Et.
  rewrite Een, apply_calls_time_length in Et. simpl in Et. lia.
Qed.

(** [run] is its loop over [range steps] for the count it took from the
    quotient, followed by the tracker's summary. *)
Lemma run_is_loop (s s' : t) (duration : R) (op cp : option (R -> R))
  (summ : list (string * R)) :
  run s duration op cp = Ok (s', summ) ->
  dt s <> 0 /\
  run_loop s op cp (range (py_int (duration / dt s))) = Ok s' /\
  summ = EnergyTracker.summary (energy s').
Proof.
  unfold run. destruct (Req_dec_T (dt s) 0) as [E0 | Hdt]; [discriminate |].
  cbv zeta. destruct (run_loop _ _ _ _) as [s1 | e]; cbn [bind];
    [| discriminate].
  intros H. injection H as <- <-. tauto.
Qed.

(** [run] on a well-shaped integrator with dt <> 0 finishes after the
    steps of its count. *)
Lemma run_finishes (s : t) (duration : R) (op cp : option (R -> R)) :
  wf s -> dt s <> 0 ->
  let n := Z.max 0 (py_int (duration / dt s)) in
  exists s' : t,
    run s duration op cp = Ok (s', EnergyTracker.summary (energy s')) /\
    step_count s' = (step_count s + n)%Z /\
    List.length (EnergyTracker.time (energy s')) =
    (List.length (EnergyTracker.time (energy s)) + Z.to_nat n)%nat /\
    dt s' = dt s /\ wf s' /\
    ((1 <= n)%Z ->
     map fst (EnergyTracker.summary (energy s')) =
     ["E_kin"; "E_elastic"; "E_grav"; "E_batt"; "E_total"; "SoC"]%string).
Proof.
  intros Hwf Hdt. unfold run.
  destruct (Req_dec_T (dt s) 0) as [E0 | _]; [contradiction |].
  cbv zeta.
  destruct (run_loop_range s (py_int (duration / dt s)) op cp Hwf Hdt)
    as (s' & E & Esc & Elen & Edt & Hwf' & Hkeys).
  exists s'. rewrite E. cbn [bind].
  split; [reflexivity |]. split; [exact Esc |].
  split; [rewrite Elen; lia |]. split; [exact Edt |].
  split; [exact Hwf' |]. intros H1. apply Hkeys. lia.
Qed.

(** X22.  What [run] returns.  With dt = 0 it raises the
    ZeroDivisionError of its quotient.  On a well-shaped integrator with
    dt <> 0 it finishes: for the number n >= 0 of steps it took, the step
    counter and the ledger have grown by n, dt and the shape invariant are
    kept, and the result is the tracker's summary of the final state, with
    its six entries as soon as one step was taken.  The loop under it does
    so for every count: over range(steps) it takes max(0, steps) steps.
    The count the code passes to it is the binary64 quotient
    duration / dt truncated toward zero. *)
Theorem run_outcome (s : t) (op cp : option (R -> R)) :
  (forall duration : R,
      dt s = 0 -> run s duration op cp = Raise ZeroDivisionError) /\
  (forall duration : R,
      wf s -> dt s <> 0 ->
      exists (s' : t) (n : Z),
        (0 <= n)%Z /\
        run s duration op cp = Ok (s', EnergyTracker.summary (energy s')) /\
        step_count s' = (step_count s + n)%Z /\
        List.length (EnergyTracker.time (energy s')) =
        (List.length (EnergyTracker.time (energy s)) + Z.to_nat n)%nat /\
        dt s' = dt s /\ wf s' /\
        ((1 <= n)%Z ->
         map fst (EnergyTracker.summary (energy s')) =
         ["E_kin"; "E_elastic"; "E_grav"; "E_batt"; "E_total"; "SoC"]%string)) /\
  (forall steps : Z,
      wf s -> dt s <> 0 ->
      exists s' : t,
        run_loop s op cp (range steps) = Ok s' /\
        step_count s' = (step_count s + Z.max 0 steps)%Z /\
        List.length (EnergyTracker.time (energy s')) =
        (List.length (EnergyTracker.time (energy s)) + Z.to_nat steps)%nat /\
        dt s' = dt s /\ wf s' /\
        ((1 <= steps)%Z ->
         map fst (EnergyTracker.summary (energy s')) =
         ["E_kin"; "E_elastic"; "E_grav"; "E_batt"; "E_total"; "SoC"]%string)) /\
  (forall (duration64 dt64 : PrimFloat.float) (steps : Z),
      Float64.run_steps duration64 dt64 = Ok steps ->
      steps = py_int (Float64.to_R (PrimFloat.div duration64 dt64))).
Proof.
  split; [| split; [| split]].
  4:{ apply run_steps_value. }
  - intros duration Hdt. unfold run.
    destruct (Req_dec_T (dt s) 0); [reflexivity | contradiction].
  - intros duration Hwf Hdt.
    destruct (run_finishes s duration op cp Hwf Hdt)
      as (s' & H1 & H2 & H3 & H4 & H5 & H6).
    exists s', (Z.max 0 (py_int (duration / dt s))).
    split; [lia |]. tauto.
  - intros steps Hwf Hdt. now apply run_loop_range.
Qed.

(** The ledger after the loop of [run] on a freshly built integrator. *)
Lemma loop_ledger_from_fresh (p : params) (s s' : t) (steps : Z)
  (op cp : option (R -> R)) :
  init p = Ok s -> run_loop s op cp (range steps) = Ok s' ->
  step_count s' = Z.max 0 steps /\
  List.length (EnergyTracker.time (energy s')) = Z.to_nat steps /\
  (forall i, (i < Z.to_nat steps)%nat ->
     nth i (EnergyTracker.time (energy s')) 0 = INR i * p_dt p) /\
  (0 < p_battery_capacity_J p -> EnergyTracker.ledger_ok (energy s')).
Proof.
  intros Hinit Hrun.
  destruct (init_fresh p s Hinit) as (Een0 & Edt0 & Esc0 & _).
  destruct (run_loop_inv op cp (range steps) s s' Hrun)
    as (calls & Een & Elen & Hall & Esc & _).
  rewrite range_length in Elen, Esc.
  rewrite Een0 in Een. rewrite Edt0 in Hall.
  split; [rewrite Esc, Esc0; lia |]. rewrite Een. split; [| split].
  - rewrite <- Elen. apply (ledger_invariant _ _ calls).
  - intros i Hi. apply ledger_time_rows; [exact Hall | lia].
  - intros Hcap. apply apply_calls_ledger_ok, init_ledger_ok, Hcap.
Qed.

(** X23.  The ledger of a run on a freshly built integrator.  Whenever
    the loop of [run] over range(steps) returns, the ledger has one row
    per step taken (max(0, steps) of them, the step counter), row i
    stamped i * dt, the time at which [run] evaluated the command profiles
    for step i; and for a positive battery capacity every battery entry is
    within [0, capacity] and every state of charge within [0, 1].  So
    whenever [run] returns, the step counter is the number of ledger rows,
    the rows are stamped and bounded in that way, and the result is the
    summary of that ledger. *)
Theorem run_ledger_from_fresh (p : params) (s : t)
  (op cp : option (R -> R)) :
  init p = Ok s ->
  (forall (steps : Z) (s' : t),
      run_loop s op cp (range steps) = Ok s' ->
      step_count s' = Z.max 0 steps /\
      List.length (EnergyTracker.time (energy s')) = Z.to_nat steps /\
      (forall i, (i < Z.to_nat steps)%nat ->
         nth i (EnergyTracker.time (energy s')) 0 = INR i * p_dt p) /\
      (0 < p_battery_capacity_J p -> EnergyTracker.ledger_ok (energy s'))) /\
  (forall (duration : R) (s' : t) (summ : list (string * R)),
      run s duration op cp = Ok (s', summ) ->
      step_count s' =
      Z.of_nat (List.length (EnergyTracker.time (energy s'))) /\
      (forall i, (i < List.length (EnergyTracker.time (energy s')))%nat ->
         nth i (EnergyTracker.time (energy s')) 0 = INR i * p_dt p) /\
      (0 < p_battery_capacity_J p -> EnergyTracker.ledger_ok (energy s')) /\
      summ = EnergyTracker.summary (energy s')).
Proof.
  intros Hinit. split.
  - intros steps s' Hrun.
    exact (loop_ledger_from_fresh p s s' steps op cp Hinit Hrun).
  - intros duration s' summ Hrun.
    apply run_is_loop in Hrun as (_ & Hloop & ->).
    destruct (loop_ledger_from_fresh p s s' _ op cp Hinit Hloop)
      as (Hsc & Hlen & Hrows & Hok).
    rewrite Hlen. split; [rewrite Hsc; lia |].
    split; [exact Hrows |]. split; [exact Hok | reflexivity].
Qed.

Lemma row_fold_upd_out (g : nat -> Vec2 -> Vec2) (l : list nat)
  (F0 : list Vec2) (j : nat) :
  ~ In j l -> row j (fold_left (fun F i => upd i (g i) F) l F0) = row j F0.
Proof.
  revert F0. induction l as [| i r IH]; intros F0 Hj; [reflexivity |].
  simpl. rewrite IH by (intros H; apply Hj; now right).
  unfold row. apply nth_upd_other. intros ->. apply Hj. now left.
Qed.

Lemma row_fold_upd_in (g : nat -> Vec2 -> Vec2) (l : list nat)
  (F0 : list Vec2) (j : nat) :
  NoDup l -> In j l -> (j < List.length F0)%nat ->
  row j (fold_left (fun F i => upd i (g i) F) l F0) = g j (row j F0).
Proof.
  revert F0. induction l as [| i r IH]; intros F0 Hnd Hj Hlen; [easy |].
  apply NoDup_cons_iff in Hnd as [Hi Hr]. simpl.
  destruct (Nat.eq_dec i j) as [-> | Hne].
  - rewrite row_fold_upd_out by exact Hi.
    unfold row. now apply nth_upd_same.
  - destruct Hj as [-> | Hj]; [congruence |].
    rewrite IH; [| exact Hr | exact Hj | now rewrite upd_length].
    unfold row. now rewrite nth_upd_other.
Qed.

Lemma edt_update_returns_F (e : ElectrodynamicTether.t)
  (node payload v : Vec2) (cmd : R) :
  snd (ElectrodynamicTether.update e node payload v cmd) =
  ElectrodynamicTether.F (fst (ElectrodynamicTether.update e node payload v cmd)).
Proof.
  unfold ElectrodynamicTether.update.
  destruct (ElectrodynamicTether.mode e =? "off")%string; [reflexivity |].
  cbv zeta. destruct (Rlt_dec _ 1e-9); reflexivity.
Qed.

(** X25.  The external force field [_build_external_forces] returns,
    row by row: nothing on the anchor node, the node's weight (its mass
    times the field's acceleration at its position) on every node below,
    and on the payload its weight plus the force the actuator books in the
    same call, computed from the anchor position and the payload's
    position and velocity. *)
Theorem external_forces_rows (s : t) (current_cmd : R) :
  wf s ->
  let F := snd (_build_external_forces s current_cmd) in
  let e' := edt (fst (_build_external_forces s current_cmd)) in
  let tth := tether s in
  let n := Z.to_nat (DynamicTether.N tth) in
  let weight i :=
    DynamicTether.m_segment tth *.v
    GravityField.get_acceleration (gravity s)
                                  (row i (DynamicTether.positions tth)) in
  List.length F = S n /\
  row 0 F = vzero /\
  (forall i, (1 <= i < n)%nat -> row i F = weight i) /\
  row n F = weight n +v ElectrodynamicTether.F e' /\
  e' = fst (ElectrodynamicTether.update
              (edt s) (anchor_pos s)
              (row n (DynamicTether.positions tth))
              (row n (DynamicTether.velocities tth)) current_cmd).
Proof.
  intros [(HN & Hp & Hv & _) _] F e' tth n weight.
  unfold F, e', _build_external_forces. cbv zeta.
  fold tth. unfold DynamicTether.get_payload_state. fold tth.
  assert (Hlastp : last (DynamicTether.positions tth) vzero =
                   row n (DynamicTether.positions tth)).
  { rewrite last_nth. fold tth in Hp. rewrite Hp. unfold row, n.
    f_equal. lia. }
  assert (Hlastv : last (DynamicTether.velocities tth) vzero =
                   row n (DynamicTether.velocities tth)).
  { rewrite last_nth. fold tth in Hv. rewrite Hv. unfold row, n.
    f_equal. lia. }
  rewrite Hlastp, Hlastv.
  pose proof (edt_update_returns_F (edt s) (anchor_pos s)
                (row n (DynamicTether.positions tth))
                (row n (DynamicTether.velocities tth)) current_cmd) as HF.
  destruct (ElectrodynamicTether.update _ _ _ _ _) as [e1 F1].
  cbn [fst snd edt with_edt] in *. subst F1.
  set (g := fun (i : nat) (f : Vec2) =>
              f +v DynamicTether.m_segment tth *.v
                   _gravity_accel s (row i (DynamicTether.positions tth))).
  set (G := fold_left _ _ _).
  assert (EG : G = fold_left (fun F i => upd i (g i) F) (seq 1 n)
                             (zeros_like (DynamicTether.positions tth)))
    by reflexivity.
  assert (HlenG : List.length G = S n).
  { rewrite EG. apply fold_left_invariant.
    - intros x b Hx. now rewrite upd_length.
    - unfold zeros_like. rewrite length_map. exact Hp. }
  assert (Hrow : forall i, (1 <= i <= n)%nat -> row i G = weight i).
  { intros i Hi. rewrite EG, row_fold_upd_in.
    - unfold g, weight, _gravity_accel. rewrite row_zeros_like.
      apply vec_eq; simpl; ring.
    - apply seq_NoDup.
    - apply in_seq. lia.
    - unfold zeros_like. rewrite length_map. fold tth in Hp. rewrite Hp. lia. }
  assert (Hn1 : (1 <= n)%nat) by (unfold n, tth; lia).
  unfold upd_last. rewrite HlenG.
  replace (S n - 1)%nat with n by lia.
  split; [now rewrite upd_length |]. split; [| split; [| split]].
  - rewrite nth_upd by lia.
    destruct (Nat.eqb_spec n 0) as [E | _]; [lia |].
    rewrite EG, row_fold_upd_out; [apply row_zeros_like |].
    rewrite in_seq. lia.
  - intros i Hi. rewrite nth_upd by lia.
    destruct (Nat.eqb_spec n i) as [E | _]; [lia |].
    apply Hrow. lia.
  - rewrite nth_upd by lia. rewrite Nat.eqb_refl.
    rewrite Hrow by lia. reflexivity.
  - reflexivity.
Qed.

Lemma clamp_velocities_bound (limit : R) (vel : list Vec2) :
  0 < limit -> Forall (fun v => norm v <= limit) (clamp_velocities limit vel).
Proof.
  intros Hl. unfold clamp_velocities.
  destruct (existsb _ vel) eqn:Ex; apply Forall_forall.
  - intros w Hw. apply in_map_iff in Hw as (v & <- & _).
    destruct (Rgt_dec (norm v) limit) as [Hgt | Hle]; [| lra].
    rewrite norm_vscale, Rabs_right.
    + right. field. lra.
    + apply Rle_ge. apply Rmult_le_pos; [lra |].
      left. apply Rinv_0_lt_compat. lra.
  - intros v Hv. destruct (Rgt_dec (norm v) limit) as [Hgt | Hle]; [| lra].
    exfalso. assert (Ht : existsb
                            (fun v => if Rgt_dec (norm v) limit
                                      then true else false) vel = true).
    { apply existsb_exists. exists v. split; [exact Hv |].
      destruct (Rgt_dec (norm v) limit); [reflexivity | contradiction]. }
    congruence.
Qed.

Lemma clamp_velocities_row (limit : R) (vel : list Vec2) (i : nat) :
  (i < List.length vel)%nat ->
  row i (clamp_velocities limit vel) =
  if Rgt_dec (norm (row i vel)) limit
  then row i vel *v (limit / norm (row i vel))
  else row i vel.
Proof.
  intros Hi. unfold clamp_velocities.
  destruct (existsb _ vel) eqn:Ex.
  - rewrite row_map by exact Hi.
    destruct (Rgt_dec (norm (row i vel)) limit); reflexivity.
  - destruct (Rgt_dec (norm (row i vel)) limit) as [Hgt | _]; [| reflexivity].
    exfalso.
    assert (Ht : existsb
                   (fun v => if Rgt_dec (norm v) limit
                             then true else false) vel = true).
    { apply existsb_exists. exists (row i vel).
      split; [now apply nth_In |].
      destruct (Rgt_dec (norm (row i vel)) limit);
        [reflexivity | contradiction]. }
    congruence.
Qed.

Lemma substep_velocities (dt_sub current_cmd : R) (s : t) :
  0 < velocity_limit s ->
  exists vel : list Vec2,
    DynamicTether.velocities (tether (substep_in_range dt_sub current_cmd s)) =
    clamp_velocities (velocity_limit s) vel.
Proof.
  intros Hl.
  unfold substep_in_range, substep_after, _build_external_forces. cbv zeta.
  destruct (DynamicTether.get_payload_state _) as [pp pv].
  destruct (ElectrodynamicTether.update _ _ _ _ _) as [e F].
  cbn [velocity_limit with_edt with_tether with_anchor tether].
  destruct (Rgt_dec (velocity_limit s) 0); [| lra].
  eexists. reflexivity.
Qed.

(** X24.  The speed ceiling: for a limit > 0 the clamp keeps the shape
    of the velocity array, leaves every row at or under the limit as it
    is and rescales every faster row, along its own direction, to exactly
    the limit.  So after a step of an integrator with velocity_limit > 0
    no tether node is faster than the limit. *)
Theorem velocity_limit_is_enforced :
  (forall (limit : R) (vel : list Vec2),
      0 < limit ->
      let vel' := clamp_velocities limit vel in
      List.length vel' = List.length vel /\
      Forall (fun v => norm v <= limit) vel' /\
      (forall i, (i < List.length vel)%nat ->
         (norm (row i vel) <= limit -> row i vel' = row i vel) /\
         (limit < norm (row i vel) ->
          row i vel' = row i vel *v (limit / norm (row i vel)) /\
          norm (row i vel') = limit))) /\
  (forall (s s' : t) (omega_cmd current_cmd : R),
      0 < velocity_limit s ->
      step s omega_cmd current_cmd = Ok s' ->
      Forall (fun v => norm v <= velocity_limit s)
             (DynamicTether.velocities (tether s'))).
Proof.
  split.
  - intros limit vel Hl vel'. split; [| split].
    + unfold vel', clamp_velocities.
      destruct (existsb _ vel); [apply length_map | reflexivity].
    + now apply clamp_velocities_bound.
    + intros i Hi. unfold vel'. rewrite clamp_velocities_row by exact Hi.
      destruct (Rgt_dec (norm (row i vel)) limit) as [Hgt | Hle];
        split; intros H; try lra; try reflexivity.
      split; [reflexivity |].
      rewrite norm_vscale, Rabs_right.
      * field. lra.
      * apply Rle_ge. apply Rmult_le_pos; [lra |].
        left. apply Rinv_0_lt_compat. lra.
  - intros s s' omega_cmd current_cmd Hl Hstep.
    destruct (step_unfold_inv _ _ _ _ Hstep) as (Hdt & n & Hn & ->).
    unfold step_bookkeeping. cbn [tether].
    destruct (step_control_more s omega_cmd)
      as (_ & _ & _ & _ & _ & _ & Hvl & _).
    cbv zeta in Hvl.
    destruct (Z.to_nat n) as [| m] eqn:Em; [lia |].
    change (Nat.iter (S m) (substep_in_range (dt s / IZR n) current_cmd)
                     (step_control_in_range s omega_cmd))
      with (substep_in_range (dt s / IZR n) current_cmd
                    (Nat.iter m (substep_in_range (dt s / IZR n) current_cmd)
                              (step_control_in_range s omega_cmd))).
    destruct (iter_substep_frame (dt s / IZR n) current_cmd m
                (step_control_in_range s omega_cmd))
      as (_ & _ & _ & _ & _ & _ & _ & Hvl' & _).
    cbv zeta in Hvl'.
    destruct (substep_velocities (dt s / IZR n) current_cmd
                (Nat.iter m (substep_in_range (dt s / IZR n) current_cmd)
                          (step_control_in_range s omega_cmd)))
      as (vel & Evel); [rewrite Hvl', Hvl; exact Hl |].
    rewrite Evel, Hvl', Hvl. now apply clamp_velocities_bound.
Qed.

(** X26.  What building an integrator returns, in the order the
    constructor works: the tether's ZeroDivisionError for N = 0 or L0 = 0,
    whatever the field vector; with N >= 1 and L0 <> 0, the actuator's
    ValueError for a field vector of a length other than 2 or 3; otherwise
    an integrator that satisfies the shape invariant, with the step
    counter at 0, the anchor at rest at the origin, an empty ledger, a
    full battery, and the last entry of the given field vector as the
    actuator's out-of-plane component. *)
Theorem integrator_init_outcome (p : params) :
  (p_N p = 0%Z \/ p_L0 p = 0 -> init p = Raise ZeroDivisionError) /\
  ((1 <= p_N p)%Z -> p_L0 p <> 0 ->
   List.length (p_B_vec p) <> 2%nat -> List.length (p_B_vec p) <> 3%nat ->
   init p = Raise (ValueError "B_vec must be length 2 or 3")) /\
  ((1 <= p_N p)%Z -> p_L0 p <> 0 ->
   List.length (p_B_vec p) = 2%nat \/ List.length (p_B_vec p) = 3%nat ->
   exists s : t,
     init p = Ok s /\ wf s /\
     step_count s = 0%Z /\ anchor_pos s = (0, 0) /\ anchor_vel s = vzero /\
     EnergyTracker.time (energy s) = [] /\
     EnergyTracker.summary (energy s) = [] /\
     EnergyTracker.E_batt_now (energy s) = p_battery_capacity_J p /\
     nth 2 (ElectrodynamicTether.B_vec (edt s)) 0 = last (p_B_vec p) 0).
Proof.
  split; [| split].
  - intros H. unfold init, DynamicTether.init.
    destruct (p_N p =? 0)%Z eqn:EN; [reflexivity |].
    destruct H as [H | H]; [apply Z.eqb_neq in EN; contradiction |].
    destruct (Req_dec_T (p_L0 p / IZR (p_N p)) 0) as [_ | Hne];
      [reflexivity |].
    exfalso. apply Hne. rewrite H. unfold Rdiv. ring.
  - intros HN HL H2 H3.
    destruct (tether_init_ok (p_N p) (p_L0 p) (p_E p) (p_d p) (p_rho_l p)
                (p_tether_damping_ratio p) (p_numerical_vel_decay_per_s p)
                HN HL) as [tth Ht].
    unfold init. rewrite Ht. simpl.
    now rewrite edt_init_bad_length.
  - intros HN HL HB.
    destruct (integrator_init_ok p HN HL HB)
      as (s & Hs & Hwf & _ & _ & _ & _ & Htime).
    exists s. split; [exact Hs |]. split; [exact Hwf |].
    destruct (init_fresh p s Hs) as (Een & _ & Esc & _ & Ep & Ev & _).
    split; [exact Esc |]. split; [exact Ep |]. split; [exact Ev |].
    split; [exact Htime |].
    split; [unfold EnergyTracker.summary; now rewrite Htime |].
    split; [now rewrite Een |].
    revert Hs. unfold init.
    destruct (DynamicTether.init _ _ _ _ _ _ _) as [tth | e]; simpl;
      [| discriminate].
    unfold ElectrodynamicTether.init.
    destruct (p_B_vec p) as [| b0 [| b1 [| b2 [| b3 r]]]];
      simpl in HB; try (exfalso; lia); simpl; intros [= <-]; reflexivity.
Qed.

End MoreIntegratorFacts.

(* ================================================================== *)
(** * Further facts: utils/config.py and main.py *)
(* ================================================================== *)

Section MoreConfigFacts.

Import Config.

Lemma dict_get_set (key k0 : string) (v : value) (d : dict) :
  dict_get key (dict_set k0 v d) =
  if (k0 =? key)%string then Some v else dict_get key d.
Proof.
  induction d as [| [k1 v1] r IH]; simpl.
  - reflexivity.
  - destruct (k1 =? k0)%string eqn:E10; simpl.
    + apply String.eqb_eq in E10. subst k1.
      destruct (k0 =? key)%string; reflexivity.
    + destruct (k1 =? key)%string eqn:E1k; [| exact IH].
      apply String.eqb_eq in E1k. subst k1.
      now rewrite String.eqb_sym, E10.
Qed.

Lemma dict_get_none (key : string) (d : dict) :
  ~ In key (map fst d) -> dict_get key d = None.
Proof.
  induction d as [| [k1 v1] r IH]; simpl; [reflexivity |].
  intros H. destruct (k1 =? key)%string eqn:E.
  - apply String.eqb_eq in E. tauto.
  - apply IH. tauto.
Qed.

(** [d.update(other)] read back: the value of [other] where it has the
    key, that of [d] elsewhere. *)
Lemma dict_get_update (key : string) (other d : dict) :
  NoDup (map fst other) ->
  dict_get key (dict_update d other) =
  match dict_get key other with
  | Some v => Some v
  | None => dict_get key d
  end.
Proof.
  unfold dict_update. revert d.
  induction other as [| [k0 v0] r IH]; intros d Hnd; [reflexivity |].
  simpl in Hnd. apply NoDup_cons_iff in Hnd as [Hk Hr].
  simpl. rewrite IH by exact Hr. rewrite dict_get_set.
  destruct (k0 =? key)%string eqn:E.
  - apply String.eqb_eq in E. subst k0.
    now rewrite (dict_get_none key r Hk).
  - reflexivity.
Qed.

Lemma dict_set_keys (k0 : string) (v : value) (d : dict) :
  In k0 (map fst d) -> map fst (dict_set k0 v d) = map fst d.
Proof.
  induction d as [| [k1 v1] r IH]; simpl; [tauto |].
  intros H. destruct (k1 =? k0)%string eqn:E; simpl; [reflexivity |].
  f_equal. apply IH. destruct H as [H | H]; [| exact H].
  apply String.eqb_neq in E. contradiction.
Qed.

Lemma dict_update_keys (other d : dict) :
  incl (map fst other) (map fst d) ->
  map fst (dict_update d other) = map fst d.
Proof.
  unfold dict_update. revert d.
  induction other as [| [k0 v0] r IH]; intros d Hincl; [reflexivity |].
  simpl. assert (Hk : In k0 (map fst d)) by (apply Hincl; now left).
  rewrite IH; rewrite dict_set_keys by exact Hk.
  - reflexivity.
  - intros x Hx. apply Hincl. now right.
Qed.

Lemma ok_inj {A : Type} (a b : A) : Ok a = Ok b -> a = b.
Proof. intros H. now injection H. Qed.

Ltac distinct_keys :=
  repeat (apply NoDup_cons;
          [simpl; intros H;
           repeat (destruct H as [H | H]; [discriminate H |]); exact H |]);
  apply NoDup_nil.

Ltac known_keys :=
  intros x Hx; simpl in Hx;
  repeat (destruct Hx as [<- | Hx]; [simpl; tauto |]); contradiction.

(** X27.  What a preset is: [load_config] returns the base
    configuration with the preset's entries written over it, key by key.
    The result has exactly the keys of the base configuration, in the
    base order, whatever the preset; a key the preset lists reads the
    preset's value and any other key reads the base value. *)
Theorem load_config_overrides (name : string) (cfg : dict) :
  load_config name = Ok cfg ->
  exists preset : dict,
    In (normalize name, preset)
       [("orbital_test"%string, orbital_test_cfg);
        ("engineering"%string, engineering_cfg);
        ("local_demo"%string, local_demo_cfg)] /\
    map fst cfg = map fst base_cfg /\
    forall key : string,
      dict_get key cfg =
      match dict_get key preset with
      | Some v => Some v
      | None => dict_get key base_cfg
      end.
Proof.
  unfold load_config.
  destruct (normalize name =? "orbital_test")%string eqn:En;
    [| clear En; destruct (normalize name =? "engineering")%string eqn:En;
       [| clear En; destruct (normalize name =? "local_demo")%string eqn:En;
          [| discriminate]]];
    intros H; apply ok_inj in H; subst cfg;
    apply String.eqb_eq in En; rewrite En.
  - exists orbital_test_cfg. split; [simpl; tauto |]. split.
    + apply dict_update_keys. unfold orbital_test_cfg, base_cfg. known_keys.
    + intros key. apply dict_get_update.
      unfold orbital_test_cfg. cbn [map fst]. distinct_keys.
  - exists engineering_cfg. split; [simpl; tauto |]. split.
    + apply dict_update_keys. unfold engineering_cfg, base_cfg. known_keys.
    + intros key. apply dict_get_update.
      unfold engineering_cfg. cbn [map fst]. distinct_keys.
  - exists local_demo_cfg. split; [simpl; tauto |]. split.
    + apply dict_update_keys. unfold local_demo_cfg, base_cfg. known_keys.
    + intros key. apply dict_get_update.
      unfold local_demo_cfg. cbn [map fst]. distinct_keys.
Qed.

(** X28.  The command profiles of [main]: the winch command stays
    within [-8, 8]; the current command is 0.8 or -0.8, so the actuator's
    clip to [-1, 1] never changes it; it is 0.8 on [0, 10), -0.8 on
    [10, 20), and repeats with period 20. *)
Theorem main_profiles_in_range (t : R) :
  -8 <= Main.winch_profile t <= 8 /\
  (Main.current_profile t = 0.8 \/ Main.current_profile t = -0.8) /\
  np_clip (Main.current_profile t) (-1) 1 = Main.current_profile t /\
  (0 <= t < 10 -> Main.current_profile t = 0.8) /\
  (10 <= t < 20 -> Main.current_profile t = -0.8) /\
  Main.current_profile (t + 20) = Main.current_profile t.
Proof.
  assert (Hcur : Main.current_profile t = 0.8 \/ Main.current_profile t = -0.8).
  { unfold Main.current_profile. cbv zeta.
    destruct (_ =? 0)%Z; [now left | now right]. }
  split; [| split; [exact Hcur | split; [| split; [| split]]]].
  - unfold Main.winch_profile.
    pose proof (SIN_bound (2 * PI * 0.2 * t)) as [H1 H2]. lra.
  - apply np_clip_inside. destruct Hcur as [-> | ->]; lra.
  - intros Ht. unfold Main.current_profile. cbv zeta.
    rewrite py_int_IZR, (Zfloor_eq 0) by (simpl; lra). reflexivity.
  - intros Ht. unfold Main.current_profile. cbv zeta.
    rewrite py_int_IZR, (Zfloor_eq 1) by (simpl; lra). reflexivity.
  - unfold Main.current_profile. cbv zeta. rewrite !py_int_IZR.
    pose proof (Zfloor_bound (t / 10)) as Hb.
    rewrite (Zfloor_eq (Zfloor (t / 10) + 2)).
    + replace (Zfloor (t / 10) + 2)%Z with (Zfloor (t / 10) + 1 * 2)%Z by lia.
      now rewrite Z_mod_plus_full.
    + rewrite plus_IZR. lra.
Qed.

(** X6.  [main] under its presets: for a name that normalises to one
    of the three presets the whole run goes through without an exception,
    over an integrator that satisfies the shape invariant; it takes
    int(60 / dt) steps, 1200 for "orbital_test" and 12000 for the other
    two, the ledger has one row per step, and the returned summary has
    each of the five entries [main] prints.  Any other name ends in
    [load_config]'s ValueError.  The two step counts are also those of the
    binary64 quotients. *)
Theorem main_completes_for_every_preset (mode : string) :
  (normalize mode = "orbital_test"%string \/
   normalize mode = "engineering"%string \/
   normalize mode = "local_demo"%string ->
   exists (s : GLIDEIntegrator.t) (summ : list (string * R)),
     Main.simulate mode = Some (Ok (s, summ)) /\
     GLIDEIntegrator.wf s /\
     GLIDEIntegrator.step_count s =
     py_int (Main.sim_duration / GLIDEIntegrator.dt s) /\
     GLIDEIntegrator.step_count s =
     (if (normalize mode =? "orbital_test")%string then 1200 else 12000)%Z /\
     List.length (EnergyTracker.time (GLIDEIntegrator.energy s)) =
     Z.to_nat (GLIDEIntegrator.step_count s) /\
     (forall key : string,
         In key ["SoC"; "E_total"; "E_elastic"; "E_kin"; "E_grav"]%string ->
         exists x : R, Main.summary_get key summ = Some x)) /\
  (normalize mode <> "orbital_test"%string ->
   normalize mode <> "engineering"%string ->
   normalize mode <> "local_demo"%string ->
   Main.simulate mode =
   Some (Raise (ValueError ("Unknown configuration mode: " ++ normalize mode)))) /\
  Float64.run_steps Float64.main_duration Float64.dt_orbital_test =
  Ok 1200%Z /\
  Float64.run_steps Float64.main_duration Float64.dt_engineering =
  Ok 12000%Z.
Proof.
  split; [| split; [| split; vm_compute; reflexivity]].
  2:{ intros H1 H2 H3. unfold Main.simulate.
      now rewrite load_config_unknown. }
  intros Hmode.
  assert (Hrun : forall (p : GLIDEIntegrator.params) (steps : Z),
             (1 <= GLIDEIntegrator.p_N p)%Z ->
             GLIDEIntegrator.p_L0 p <> 0 ->
             List.length (GLIDEIntegrator.p_B_vec p) = 3%nat ->
             (1 <= steps)%Z ->
             GLIDEIntegrator.p_dt p <> 0 ->
             Main.sim_duration / GLIDEIntegrator.p_dt p = IZR steps ->
             exists (s : GLIDEIntegrator.t) (summ : list (string * R)),
               (sim <- GLIDEIntegrator.init p ;;
                GLIDEIntegrator.run sim Main.sim_duration
                                    (Some Main.winch_profile)
                                    (Some Main.current_profile)) =
               Ok (s, summ) /\
               GLIDEIntegrator.wf s /\
               GLIDEIntegrator.step_count s =
               py_int (Main.sim_duration / GLIDEIntegrator.dt s) /\
               GLIDEIntegrator.step_count s = steps /\
               List.length (EnergyTracker.time (GLIDEIntegrator.energy s)) =
               Z.to_nat (GLIDEIntegrator.step_count s) /\
               (forall key : string,
                   In key ["SoC"; "E_total"; "E_elastic"; "E_kin"; "E_grav"]%string ->
                   exists x : R, Main.summary_get key summ = Some x)).
  { intros p steps HN HL HB Hsteps Hdt Hq.
    destruct (integrator_init_ok p HN HL (or_intror HB))
      as (s0 & Hs0 & Hwf0 & Edt0 & _ & _ & _ & Htime0).
    destruct (init_fresh p s0 Hs0) as (_ & _ & Esc0 & _).
    rewrite <- Edt0 in Hdt, Hq.
    destruct (run_finishes s0 Main.sim_duration (Some Main.winch_profile)
                (Some Main.current_profile) Hwf0 Hdt)
      as (s & Hrun & Esc & Elen & Edt & Hwf & Hkeys).
    cbv zeta in Esc, Elen, Hkeys.
    rewrite Hq, py_int_IZR in Esc, Elen, Hkeys.
    replace (Z.max 0 steps) with steps in Esc, Elen, Hkeys by lia.
    exists s, (EnergyTracker.summary (GLIDEIntegrator.energy s)).
    rewrite Hs0. simpl. split; [exact Hrun |].
    split; [exact Hwf |].
    rewrite Edt, Hq, py_int_IZR, Esc, Esc0, Elen, Htime0.
    split; [lia |]. split; [lia |]. split; [simpl; f_equal; lia |].
    specialize (Hkeys Hsteps).
    intros key Hkey.
    rewrite summary_nonempty.
    - simpl in Hkey.
      repeat (destruct Hkey as [<- | Hkey]; [eexists; reflexivity |]).
      contradiction.
    - intros Et. unfold EnergyTracker.summary in Hkeys.
      rewrite Et in Hkeys. discriminate Hkeys. }
  unfold Main.simulate, load_config.
  destruct (normalize mode =? "orbital_test")%string eqn:E1.
  { cbn [GLIDEIntegrator.read_params]. cbn.
    match goal with
    | |- exists s summ, Some ?r = _ /\ _ =>
        match r with
        | context [GLIDEIntegrator.init ?p] =>
            destruct (Hrun p 1200%Z) as (s & summ & H)
        end
    end; try (cbn; lia); try (cbn; unfold Main.sim_duration; lra);
      try reflexivity.
    exists s, summ. destruct H as (H1 & H2 & H3 & H4 & H5 & H6).
    cbn in H1. rewrite H1.
    split; [reflexivity |]. split; [exact H2 |]. split; [exact H3 |].
    split; [exact H4 |]. split; [exact H5 | exact H6]. }
  destruct (normalize mode =? "engineering")%string eqn:E2.
  { cbn [GLIDEIntegrator.read_params]. cbn.
    match goal with
    | |- exists s summ, Some ?r = _ /\ _ =>
        match r with
        | context [GLIDEIntegrator.init ?p] =>
            destruct (Hrun p 12000%Z) as (s & summ & H)
        end
    end; try (cbn; lia); try (cbn; unfold Main.sim_duration; lra);
      try reflexivity.
    exists s, summ. destruct H as (H1 & H2 & H3 & H4 & H5 & H6).
    cbn in H1. rewrite H1.
    split; [reflexivity |]. split; [exact H2 |]. split; [exact H3 |].
    split; [exact H4 |]. split; [exact H5 | exact H6]. }
  destruct (normalize mode =? "local_demo")%string eqn:E3.
  { cbn [GLIDEIntegrator.read_params]. cbn.
    match goal with
    | |- exists s summ, Some ?r = _ /\ _ =>
        match r with
        | context [GLIDEIntegrator.init ?p] =>
            destruct (Hrun p 12000%Z) as (s & summ & H)
        end
    end; try (cbn; lia); try (cbn; unfold Main.sim_duration; lra);
      try reflexivity.
    exists s, summ. destruct H as (H1 & H2 & H3 & H4 & H5 & H6).
    cbn in H1. rewrite H1.
    split; [reflexivity |]. split; [exact H2 |]. split; [exact H3 |].
    split; [exact H4 |]. split; [exact H5 | exact H6]. }
  apply String.eqb_neq in E1, E2, E3.
  destruct Hmode as [H | [H | H]]; contradiction.
Qed.

End MoreConfigFacts.

(* ================================================================== *)
(** * Further facts: the energies depend on relative positions only *)
(* ================================================================== *)

Section MoreInvariance.

Import DynamicTether.

Lemma fold_left_ext_in {A B : Type} (f g : A -> B -> A) (l : list B) (a : A) :
  (forall x b, In b l -> f x b = g x b) -> fold_left f l a = fold_left g l a.
Proof.
  revert a. induction l as [| b bs IH]; intros a H; simpl; [reflexivity |].
  rewrite H by now left. apply IH. intros x b' Hb. apply H. now right.
Qed.

Lemma row_translate (d : Vec2) (a : list Vec2) (i : nat) :
  (i < List.length a)%nat -> row i (translate d a) = row i a +v d.
Proof. intros Hi. unfold translate. now rewrite row_map. Qed.

Lemma translate_diff (d : Vec2) (a : list Vec2) (i j : nat) :
  (i < List.length a)%nat -> (j < List.length a)%nat ->
  row j (translate d a) -v row i (translate d a) = row j a -v row i a.
Proof.
  intros Hi Hj. rewrite !row_translate by assumption.
  apply vec_eq; simpl; ring.
Qed.

(** X19.  Only relative positions matter: moving every node of a
    well-shaped tether by the same vector changes neither the internal
    forces nor the tension profile, nor the kinetic, elastic and total
    mechanical energy, nor (in a uniform field) the gravitational energy
    the tracker books, which is taken relative to the anchor's height. *)
Theorem energies_translation_invariant (s : t) (d : Vec2) :
  wf s ->
  let s' := with_positions s (translate d (positions s)) in
  wf s' /\
  snd (compute_internal_forces s') = snd (compute_internal_forces s) /\
  get_tension_profile s' = get_tension_profile s /\
  total_energy_mech s' = total_energy_mech s /\
  EnergyTracker.kinetic_energy s' = EnergyTracker.kinetic_energy s /\
  EnergyTracker.elastic_energy s' = EnergyTracker.elastic_energy s /\
  (forall g : GravityField.t,
      GravityField.mode g = "local"%string ->
      EnergyTracker.gravitational_energy s' (Some g) =
      EnergyTracker.gravitational_energy s (Some g)).
Proof.
  intros Hwf s'. pose proof Hwf as (HN & Hp & Hv & Hf & Hq).
  assert (Hseg : forall i, In i (range (N s)) ->
                           (i < List.length (positions s))%nat /\
                           (S i < List.length (positions s))%nat).
  { intros i Hi. apply in_range in Hi. rewrite Hp. lia. }
  assert (Hdiff : forall i, In i (range (N s)) ->
             row (S i) (translate d (positions s)) -v
             row i (translate d (positions s)) =
             row (S i) (positions s) -v row i (positions s)).
  { intros i Hi. destruct (Hseg i Hi). now apply translate_diff. }
  split; [| split; [| split; [| split; [| split; [| split]]]]].
  - unfold wf, s'. simpl. unfold translate. rewrite length_map. tauto.
  - unfold compute_internal_forces, s'. cbn [snd N positions with_positions].
    replace (zeros_like (translate d (positions s)))
      with (zeros_like (positions s))
      by (unfold zeros_like, translate; now rewrite map_map).
    apply fold_left_ext_in. intros F i Hi.
    unfold segment_force.
    cbn [positions velocities with_positions segment_length k c].
    now rewrite (Hdiff i Hi).
  - unfold get_tension_profile, s'.
    cbn [N positions with_positions segment_length k].
    apply map_ext_in. intros i Hi. cbv zeta. now rewrite (Hdiff i Hi).
  - unfold total_energy_mech, s'.
    cbn [N positions velocities with_positions segment_length k m_segment].
    f_equal. apply fold_left_ext_in. intros e i Hi. cbv zeta.
    now rewrite (Hdiff i Hi).
  - reflexivity.
  - unfold EnergyTracker.elastic_energy, s'.
    cbn [N positions with_positions segment_length k].
    apply fold_left_ext_in. intros e i Hi. cbv zeta.
    now rewrite (Hdiff i Hi).
  - intros g Hg. unfold EnergyTracker.gravitational_energy, s'.
    rewrite Hg. cbn [N positions with_positions m_segment String.eqb].
    simpl String.eqb. cbv iota zeta.
    apply fold_left_ext_in. intros e i Hi. apply in_seq in Hi.
    rewrite !row_translate by (rewrite Hp; lia).
    simpl. ring.
Qed.

End MoreInvariance.

(* ================================================================== *)
(** * Instances of the further facts *)
(* ================================================================== *)

Section MoreInstances.

Import Examples.

Lemma sim1_wf : GLIDEIntegrator.wf sim1.
Proof. split; [exact tether1_wf | reflexivity]. Qed.

(** A tether of two segments over 10 m is built at rest: well shaped,
    with no mechanical energy. *)
Lemma tether_init_at_rest_witness :
  exists s, DynamicTether.init 2 10 1 1 1 0 0 = Ok s /\
            DynamicTether.wf s /\ DynamicTether.total_energy_mech s = 0.
Proof.
  destruct (tether_init_ok 2 10 1 1 1 0 0) as [s Hs]; [lia | lra |].
  exists s. split; [exact Hs |].
  pose proof (tether_init_at_rest 2 10 1 1 1 0 0 s
                ltac:(lia) ltac:(lra) Hs) as H.
  split; apply H.
Defined.

(** No segment, or three segments short of none, cannot be built. *)
Lemma tether_init_outcome_witness :
  DynamicTether.init 0 10 1 1 1 0 0 = Raise ZeroDivisionError /\
  DynamicTether.init (-3) 10 1 1 1 0 0 =
  Raise (ValueError "negative dimensions are not allowed").
Proof.
  destruct (tether_init_outcome 0 10 1 1 1 0 0) as (H0 & _).
  destruct (tether_init_outcome (-3) 10 1 1 1 0 0) as (_ & _ & H3 & _).
  split; [apply H0; reflexivity | apply H3; [lia | lra]].
Defined.

(** The stretched segment pulls its two nodes with opposite forces. *)
Lemma internal_forces_sum_to_zero_witness :
  vsum (snd (DynamicTether.compute_internal_forces tether1)) = vzero.
Proof. apply (internal_forces_sum_to_zero tether1 tether1_wf). Defined.

(** Integrating the stretched segment over 0.01 s stores its positions
    and leaves the anchor at the origin. *)
Lemma integrate_semi_implicit_euler_witness :
  DynamicTether._pos_prev (DynamicTether.integrate tether1 0.01) =
  DynamicTether.positions tether1 /\
  row 0 (DynamicTether.positions (DynamicTether.integrate tether1 0.01)) =
  (0, 0).
Proof.
  destruct (integrate_semi_implicit_euler tether1 0.01 tether1_wf) as [_ H].
  destruct (H ltac:(lra)) as (_ & Hp & _ & H0 & _).
  split; [exact Hp | exact H0].
Defined.

(** Two constraint passes bring the segment stretched to 12 back to its
    rest length 10. *)
Lemma single_segment_constraint_exact_witness :
  let s' := DynamicTether.enforce_constraints tether1 0.01 2 in
  norm (row 1 (DynamicTether.positions s') -v
        row 0 (DynamicTether.positions s')) = 10.
Proof.
  assert (Hn : norm (row 1 (DynamicTether.positions tether1) -v
                     row 0 (DynamicTether.positions tether1)) = 12).
  { apply norm_eq; [lra | simpl; ring]. }
  apply (single_segment_constraint_exact tether1 0.01 2).
  - exact tether1_wf.
  - reflexivity.
  - lra.
  - lia.
  - simpl. lra.
  - reflexivity.
  - rewrite Hn. lra.
Defined.

(** The stretched segment holds a mechanical energy that is not
    negative. *)
Lemma mechanical_energy_agrees_witness :
  0 <= DynamicTether.total_energy_mech tether1.
Proof.
  destruct (mechanical_energy_agrees tether1) as [_ H].
  apply H; simpl; lra.
Defined.

(** A unit force on the payload of the one-segment tether. *)
Lemma payload_force_as_field_witness :
  DynamicTether.apply_force_to_payload tether1 (1, 0) =
  DynamicTether.add_external_forces
    tether1 (upd_last (fun _ => (1, 0))
                      (zeros_like (DynamicTether.positions tether1))).
Proof. apply (payload_force_as_field tether1 (1, 0) tether1_wf). Defined.

(** The spinning motor under a tension of 5 and a command of 3. *)
Lemma motor_update_bounds_witness :
  let s' := fst (MotorSystem.update motor_spinning 0.01 5 3) in
  -50 <= MotorSystem.omega s' <= 50 /\
  Rabs (MotorSystem.P_mech s') <= 50 * 15.
Proof.
  pose proof (motor_update_bounds motor_spinning 0.01 5 3) as H.
  cbv zeta in H. destruct H as (Hw & _ & _ & _ & Ht & _).
  split; [exact Hw |]. apply Ht. simpl. lra.
Defined.

(** The default motor at rest, left alone for 0.01 s. *)
Lemma motor_idle_stays_idle_witness :
  snd (MotorSystem.update motor_rest 0.01 0 0) = 0.
Proof.
  apply (motor_idle_stays_idle motor_rest 0.01); simpl; lra.
Defined.

(** A drag actuator along a vertical tether of 100 m, the payload moving
    sideways: the force has no component along the tether. *)
Lemma edt_force_geometry_witness :
  dot (ElectrodynamicTether.F
         (fst (ElectrodynamicTether.update (edt_in_mode "drag") (0, 0)
                 (0, -100) (10, 0) 1)))
      ((0, -100) -v (0, 0)) = 0.
Proof.
  apply (edt_force_geometry (edt_in_mode "drag") (0, 0) (0, -100) (10, 0) 1).
  reflexivity.
Defined.

(** The same actuator set to boost and to drag pushes in opposite
    directions. *)
Lemma edt_boost_and_drag_are_opposite_witness :
  ElectrodynamicTether.F
    (fst (ElectrodynamicTether.update
            (ElectrodynamicTether.set_mode (edt_in_mode "off") "boost")
            (0, 0) (0, -100) (10, 0) 1)) +v
  ElectrodynamicTether.F
    (fst (ElectrodynamicTether.update
            (ElectrodynamicTether.set_mode (edt_in_mode "off") "drag")
            (0, 0) (0, -100) (10, 0) 1)) = vzero.
Proof.
  apply (edt_boost_and_drag_are_opposite (edt_in_mode "off") (0, 0) (0, -100)
                                         (10, 0) 1).
  reflexivity.
Defined.

(** The local field pulls with g0 at any point. *)
Lemma gravity_local_is_uniform_witness :
  GravityField.get_acceleration gravity_local (3, 4) =
  (0, - GravityField.g0 gravity_local).
Proof.
  apply (gravity_local_is_uniform gravity_local). reflexivity.
Defined.

(** The orbital field is switched off half a metre from the origin. *)
Lemma gravity_orbital_inverse_square_witness :
  GravityField.get_acceleration
    (GravityField.mk 3.986004418e14 9.80665 6.371e6 "orbital") (0, 0.5) =
  vzero.
Proof.
  apply (gravity_orbital_inverse_square
           (GravityField.mk 3.986004418e14 9.80665 6.371e6 "orbital")
           (0, 0.5)).
  - simpl. discriminate.
  - unfold dot. simpl. lra.
Defined.

(** Two calls on a fresh tracker of capacity 10: two rows, the second
    stamped one time step after the first, and nothing printed when the
    log interval is zero. *)
Lemma ledger_is_a_table_witness :
  List.length
    (EnergyTracker.time
       (EnergyTracker.apply_calls (EnergyTracker.init 10 1)
                                  [draw_call; charge_call])) = 2%nat.
Proof.
  apply (ledger_is_a_table 10 1 [draw_call; charge_call]).
Defined.

Lemma ledger_time_stamps_witness :
  nth 1 (EnergyTracker.time
           (EnergyTracker.apply_calls (EnergyTracker.init 10 1)
                                      [draw_call; charge_call])) 0 =
  INR 1 * 1.
Proof.
  destruct (ledger_time_stamps 10 1 [draw_call; charge_call]) as [_ H].
  destruct (H 1) as [Hrows _].
  { apply Forall_cons; [reflexivity |].
    apply Forall_cons; [reflexivity | apply Forall_nil]. }
  apply Hrows. simpl. lia.
Defined.

Lemma log_lines_are_spaced_witness :
  EnergyTracker.stdout
    (EnergyTracker.apply_calls (EnergyTracker.init 10 0)
                               [draw_call; charge_call]) = [].
Proof.
  apply (log_lines_are_spaced 10 0 [draw_call; charge_call]). lra.
Defined.

(** The stretched segment moved by (5, 5) holds the same energy. *)
Lemma energies_translation_invariant_witness :
  DynamicTether.total_energy_mech
    (DynamicTether.with_positions
       tether1 (translate (5, 5) (DynamicTether.positions tether1))) =
  DynamicTether.total_energy_mech tether1.
Proof.
  apply (energies_translation_invariant tether1 (5, 5) tether1_wf).
Defined.

Lemma init_params_no_rows :
  exists s, GLIDEIntegrator.init params_no_rows = Ok s.
Proof.
  unfold GLIDEIntegrator.init, DynamicTether.init. simpl.
  destruct (Req_dec_T _ 0) as [E | _]; [exfalso; lra |].
  simpl. eexists. reflexivity.
Qed.

(** One step of the example integrator (dt = 0.05), and one of the
    integrator built with N = -1. *)
Lemma step_outcome_witness :
  (exists s', GLIDEIntegrator.step sim1 0 0 = Ok s' /\
              GLIDEIntegrator.step_count s' = 1%Z) /\
  (exists s, GLIDEIntegrator.init params_no_rows = Ok s /\
             GLIDEIntegrator.step s 0 0 = Raise IndexError).
Proof.
  split.
  - destruct (step_outcome sim1 0 0) as (_ & _ & _ & H).
    destruct (H sim1_wf) as (s' & Hs & Hc & _); [simpl; lra |].
    exists s'. split; [exact Hs | exact Hc].
  - destruct init_params_no_rows as [s Hs].
    exists s. split; [exact Hs |].
    destruct (step_outcome s 0 0) as (_ & H & _).
    apply (H params_no_rows); [reflexivity | exact Hs].
Defined.

Lemma step_anchor_kinematics_witness :
  exists s', GLIDEIntegrator.step sim1 0 0 = Ok s' /\
             row 0 (DynamicTether.positions (GLIDEIntegrator.tether s')) =
             GLIDEIntegrator.anchor_pos s'.
Proof.
  destruct (step_unfold sim1 0 0 sim1_wf) as (n & _ & E); [simpl; lra |].
  eexists. split; [exact E |].
  apply (step_anchor_kinematics sim1 _ 0 0 sim1_wf E).
Defined.

(** The example integrator run for 0.1 s. *)
Lemma run_outcome_witness :
  exists s', GLIDEIntegrator.run sim1 0.1 None None =
             Ok (s', EnergyTracker.summary (GLIDEIntegrator.energy s')) /\
             GLIDEIntegrator.wf s'.
Proof.
  destruct (run_outcome sim1 None None) as (_ & H & _).
  destruct (H 0.1 sim1_wf) as (s' & n & _ & Hs & _ & _ & _ & Hwf & _);
    [simpl; lra |].
  exists s'. split; [exact Hs | exact Hwf].
Defined.

(** An integrator built from the example parameters and run for 0.1 s:
    as many ledger rows as steps. *)
Lemma run_ledger_from_fresh_witness :
  exists s s' summ,
    GLIDEIntegrator.init params1 = Ok s /\
    GLIDEIntegrator.run s 0.1 None None = Ok (s', summ) /\
    GLIDEIntegrator.step_count s' =
    Z.of_nat (List.length (EnergyTracker.time (GLIDEIntegrator.energy s'))).
Proof.
  destruct (integrator_init_ok params1) as (s & Hs & Hwf & Hdt & _);
    [simpl; lia | simpl; lra | right; reflexivity |].
  destruct (run_finishes s 0.1 None None Hwf) as (s' & Hrun & _);
    [rewrite Hdt; simpl; lra |].
  exists s, s', (EnergyTracker.summary (GLIDEIntegrator.energy s')).
  split; [exact Hs |]. split; [exact Hrun |].
  destruct (run_ledger_from_fresh params1 s None None Hs) as [_ H].
  apply (H 0.1 s' _ Hrun).
Defined.

(** A node moving at speed 5 under a ceiling of 1. *)
Lemma velocity_limit_is_enforced_witness :
  Forall (fun v => norm v <= 1)
         (GLIDEIntegrator.clamp_velocities 1 [(3, 4)]).
Proof.
  destruct velocity_limit_is_enforced as [H _].
  apply (H 1 [(3, 4)]). lra.
Defined.

(** The example integrator puts no external force on its anchor node. *)
Lemma external_forces_rows_witness :
  row 0 (snd (GLIDEIntegrator._build_external_forces sim1 1)) = vzero.
Proof. apply (external_forces_rows sim1 1 sim1_wf). Defined.

(** The example parameters build a well-shaped integrator; without a
    segment they do not. *)
Lemma integrator_init_outcome_witness :
  exists s, GLIDEIntegrator.init params1 = Ok s /\
            GLIDEIntegrator.wf s /\ GLIDEIntegrator.step_count s = 0%Z.
Proof.
  destruct (integrator_init_outcome params1) as (_ & _ & H).
  destruct H as (s & Hs & Hwf & Hc & _);
    [simpl; lia | simpl; lra | right; reflexivity |].
  exists s. split; [exact Hs |]. split; [exact Hwf | exact Hc].
Defined.

(** The engineering preset keeps the keys of the base configuration. *)
Lemma load_config_overrides_witness :
  exists cfg, Config.load_config " Engineering " = Ok cfg /\
              map fst cfg = map fst Config.base_cfg.
Proof.
  destruct (load_config_known " Engineering ") as [cfg Hcfg];
    [right; right; reflexivity |].
  exists cfg. split; [exact Hcfg |].
  destruct (load_config_overrides " Engineering " cfg Hcfg)
    as (preset & _ & Hk & _).
  exact Hk.
Defined.

(** Five seconds into the run the current command is 0.8. *)
Lemma main_profiles_in_range_witness : Main.current_profile 5 = 0.8.
Proof. apply (main_profiles_in_range 5). lra. Defined.

(** [main] with its default preset takes 12000 steps. *)
Lemma main_completes_for_every_preset_witness :
  exists s summ,
    Main.simulate "engineering" = Some (Ok (s, summ)) /\
    GLIDEIntegrator.step_count s = 12000%Z.
Proof.
  destruct (main_completes_for_every_preset "engineering") as [H _].
  destruct H as (s & summ & Hs & _ & _ & Hc & _);
    [right; left; reflexivity |].
  exists s, summ. split; [exact Hs | exact Hc].
Defined.

End MoreInstances.
